(** * docschema: the versioned document register and the document comparator

    A shallow embedding of [DocumentRegister] (add, update, get, list,
    search, getHistory, archive, export, import, getAuditLog), of
    [DocumentComparator] (compare, compareMultiple, compareVersions,
    findConflicts, findOverlaps and their helpers) and of
    [CitationTracker] (add, the lookups, validate, createChain, export,
    import), followed by the properties of the temporal register and
    comparator design that hold of them, and the inputs at which the
    others break.

    Conventions of the embedding.
    - A JavaScript value is a [JS.value]; an object is the list of its own
      enumerable properties in the order [Object.keys] reports them.
      A number held by a value is an integer, NaN, Infinity or -Infinity
      (no fractions, no negative zero); strings are byte strings.  Match
      scores, doubles in the source, are exact rationals; the numbers the
      comparator computes are exact rationals, NaN or an infinity
      ([JS.number]).
    - A timestamp (an ISO-8601 string in the source) is kept as the instant
      [new Date(s)] denotes, in milliseconds since the epoch.
    - The clock and the uuid generator are inputs of each operation
      ([Env]); the clock is read once per operation.
    - The register runs on its default storage, a [Map] that hands out the
      stored objects themselves: an operation that mutates an entry it
      fetched has mutated the stored entry, which the state passing below
      makes explicit. *)

From Stdlib Require Import List String Ascii ZArith QArith Lia Bool.
From Stdlib Require Import Qabs Qminmax Lqa DecimalString Permutation Sorted Btauto.
Import ListNotations.
Close Scope Q_scope.
Open Scope string_scope.
Set Warnings "-register-all".

(* ================================================================== *)
(** ** JavaScript values *)
(* ================================================================== *)

Module JS.

Inductive value : Type :=
| VUndef
| VNull
| VBool (b : bool)
| VNum (z : Z)
| VNaN
| VInf (negative : bool)                  (* Infinity, -Infinity *)
| VStr (s : string)
| VArr (l : list value)
| VObj (o : list (string * value)).

(** An object: own enumerable properties, in [Object.keys] order. *)
Definition obj : Type := list (string * value).

Inductive jstype := TUndefined | TObject | TBoolean | TNumber | TString.

(** [typeof v]; note [typeof null === 'object'] and arrays are objects. *)
Definition typeof (v : value) : jstype :=
  match v with
  | VUndef => TUndefined
  | VNull | VArr _ | VObj _ => TObject
  | VBool _ => TBoolean
  | VNum _ | VNaN | VInf _ => TNumber
  | VStr _ => TString
  end.

Definition jstype_eqb (a b : jstype) : bool :=
  match a, b with
  | TUndefined, TUndefined | TObject, TObject | TBoolean, TBoolean
  | TNumber, TNumber | TString, TString => true
  | _, _ => false
  end.

Definition isUndefined (v : value) : bool :=
  match v with VUndef => true | _ => false end.

(** [Number.isNaN(v)] *)
Definition isNaN (v : value) : bool :=
  match v with VNaN => true | _ => false end.

Definition nullish (v : value) : bool :=
  match v with VUndef | VNull => true | _ => false end.

(** ToBoolean: the falsy values are undefined, null, false, 0, NaN
    and "". *)
Definition truthy (v : value) : bool :=
  match v with
  | VUndef | VNull => false
  | VBool b => b
  | VNum z => negb (z =? 0)%Z
  | VNaN => false
  | VInf _ => true
  | VStr s => negb (s =? "")
  | VArr _ | VObj _ => true
  end.

(** [a || b] *)
Definition or_else (a b : value) : value := if truthy a then a else b.

(** [a || b] on an optional string ([None] is undefined). *)
Definition str_or (a : option string) (b : string) : string :=
  match a with
  | Some s => if s =? "" then b else s
  | None => b
  end.

(** [o[k]] on an object: undefined when the property is missing. *)
Fixpoint prop (o : obj) (k : string) : value :=
  match o with
  | [] => VUndef
  | (k', v) :: rest => if k' =? k then v else prop rest k
  end.

(** [o[k] = v]: an existing property keeps its place, a new one goes last
    (JavaScript lists a new name that is an array index, "2024" say,
    before the names that are not: the place of such a name is not
    modelled). *)
Fixpoint set_prop (o : obj) (k : string) (v : value) : obj :=
  match o with
  | [] => [(k, v)]
  | (k', v') :: rest =>
      if k' =? k then (k', v) :: rest else (k', v') :: set_prop rest k v
  end.

(** [{...o, ...extra}] *)
Definition spread (o extra : obj) : obj :=
  fold_left (fun acc kv => set_prop acc (fst kv) (snd kv)) extra o.

(** [{...o, ...extra}] where [extra] may be undefined. *)
Definition spread_opt (o : obj) (extra : option obj) : obj :=
  match extra with Some x => spread o x | None => o end.

(** An object literal [{k1: v1, k2: v2, ...}]. *)
Definition literal (props : list (string * value)) : obj := spread [] props.

(** [v.k] for a value that is not null or undefined: plain objects answer
    with their property, everything else with undefined (none of the
    property names read this way is an array index or [length]). *)
Definition member (v : value) (k : string) : value :=
  match v with
  | VObj o => prop o k
  | _ => VUndef
  end.

(** [a === b].  NaN equals nothing, itself included.  Two arrays or
    objects are equal only when they are one reference; values built
    apart, as a query and a stored record are, never are. *)
Definition strict_eq (a b : value) : bool :=
  match a, b with
  | VUndef, VUndef => true
  | VNull, VNull => true
  | VBool x, VBool y => Bool.eqb x y
  | VNum x, VNum y => (x =? y)%Z
  | VInf x, VInf y => Bool.eqb x y
  | VStr x, VStr y => (x =? y)
  | _, _ => false
  end.

(** SameValueZero, the equality of [Map] keys, of the elements of a [Set]
    and of [Array.prototype.includes]: [===], except that NaN equals
    NaN. *)
Definition same_value_zero (a b : value) : bool :=
  match a, b with
  | VNaN, VNaN => true
  | _, _ => strict_eq a b
  end.

(** *** Arithmetic on numbers *)

(** A number as arithmetic produces it: an exact rational (a double in
    the source; nothing is rounded here and zero has no sign), NaN, or an
    infinity. *)
Inductive number : Type :=
| Num (q : Q)
| NaN
| Inf (negative : bool).

(** The number a value of type number is. *)
Definition number_of (v : value) : option number :=
  match v with
  | VNum z => Some (Num (inject_Z z))
  | VNaN => Some NaN
  | VInf s => Some (Inf s)
  | _ => None
  end.

Definition negative (q : Q) : bool := negb (Qle_bool 0 q).

(** [-a] *)
Definition nneg (a : number) : number :=
  match a with
  | Num q => Num (- q)
  | NaN => NaN
  | Inf s => Inf (negb s)
  end.

(** [a + b] *)
Definition nadd (a b : number) : number :=
  match a, b with
  | NaN, _ | _, NaN => NaN
  | Num p, Num q => Num (p + q)
  | Inf s, Num _ | Num _, Inf s => Inf s
  | Inf s, Inf t => if Bool.eqb s t then Inf s else NaN
  end.

(** [a - b] *)
Definition nsub (a b : number) : number := nadd a (nneg b).

(** [a * b] *)
Definition nmul (a b : number) : number :=
  match a, b with
  | NaN, _ | _, NaN => NaN
  | Num p, Num q => Num (p * q)
  | Inf s, Num q | Num q, Inf s =>
      if Qeq_bool q 0 then NaN else Inf (xorb s (negative q))
  | Inf s, Inf t => Inf (xorb s t)
  end.

(** [a / b]; a zero divisor is the positive zero. *)
Definition ndiv (a b : number) : number :=
  match a, b with
  | NaN, _ | _, NaN => NaN
  | Num p, Num q =>
      if Qeq_bool q 0
      then if Qeq_bool p 0 then NaN else Inf (negative p)
      else Num (p / q)
  | Num _, Inf _ => Num 0
  | Inf s, Num q => Inf (xorb s (negative q))
  | Inf _, Inf _ => NaN
  end.

(** [Math.abs(a)] *)
Definition nabs (a : number) : number :=
  match a with
  | Num q => Num (Qabs q)
  | NaN => NaN
  | Inf _ => Inf false
  end.

(** [Math.min(a, b)] *)
Definition nmin (a b : number) : number :=
  match a, b with
  | NaN, _ | _, NaN => NaN
  | Inf true, _ | _, Inf true => Inf true
  | Inf false, x | x, Inf false => x
  | Num p, Num q => Num (Qmin p q)
  end.

(** [a || b] on numbers: 0 and NaN are falsy. *)
Definition number_or (a b : number) : number :=
  match a with
  | Num q => if Qeq_bool q 0 then b else a
  | NaN => b
  | Inf _ => a
  end.

Definition join (sep : string) (parts : list string) : string :=
  match parts with
  | [] => ""
  | p :: rest => fold_left (fun acc s => acc ++ sep ++ s) rest p
  end.

Definition Z_to_string (z : Z) : string :=
  NilZero.string_of_int (Z.to_int z).

Definition nat_to_string (n : nat) : string := Z_to_string (Z.of_nat n).

Definition hex_digit (n : nat) : string :=
  String (nth n (list_ascii_of_string "0123456789abcdef") "0"%char) "".

(** The escapes [JSON.stringify] applies inside a string literal. *)
Definition escape_char (c : ascii) : string :=
  let n := nat_of_ascii c in
  if (n =? 34)%nat then String "\"%char (String c "")
  else if (n =? 92)%nat then "\\"
  else if (n =? 8)%nat then "\b"
  else if (n =? 9)%nat then "\t"
  else if (n =? 10)%nat then "\n"
  else if (n =? 12)%nat then "\f"
  else if (n =? 13)%nat then "\r"
  else if (n <? 32)%nat then "\u00" ++ hex_digit (n / 16) ++ hex_digit (n mod 16)
  else String c "".

Fixpoint escape (s : string) : string :=
  match s with
  | EmptyString => ""
  | String c rest => escape_char c ++ escape rest
  end.

Definition quote (s : string) : string :=
  String (ascii_of_nat 34) (escape s ++ String (ascii_of_nat 34) "").

(** [JSON.stringify(v)]: [None] is the undefined it returns for undefined;
    an undefined array element prints as null, an undefined property is
    left out; NaN and the infinities print as null. *)
Fixpoint JSON_stringify (v : value) : option string :=
  match v with
  | VUndef => None
  | VNull => Some "null"
  | VBool true => Some "true"
  | VBool false => Some "false"
  | VNum z => Some (Z_to_string z)
  | VNaN | VInf _ => Some "null"
  | VStr s => Some (quote s)
  | VArr l =>
      Some ("[" ++ join ","
              (map (fun x => match JSON_stringify x with
                             | Some s => s
                             | None => "null"
                             end) l) ++ "]")
  | VObj o =>
      Some ("{" ++ join ","
              ((fix props (o : list (string * value)) : list string :=
                  match o with
                  | [] => []
                  | (k, x) :: rest =>
                      match JSON_stringify x with
                      | Some s => (quote k ++ ":" ++ s) :: props rest
                      | None => props rest
                      end
                  end) o) ++ "}")
  end.

Definition opt_string_eqb (a b : option string) : bool :=
  match a, b with
  | Some x, Some y => x =? y
  | None, None => true
  | _, _ => false
  end.

(** [String(v)] *)
Fixpoint js_String (v : value) : string :=
  match v with
  | VUndef => "undefined"
  | VNull => "null"
  | VBool true => "true"
  | VBool false => "false"
  | VNum z => Z_to_string z
  | VNaN => "NaN"
  | VInf false => "Infinity"
  | VInf true => "-Infinity"
  | VStr s => s
  | VArr l =>
      join "," (map (fun x => if nullish x then "" else js_String x) l)
  | VObj _ => "[object Object]"
  end.

Fixpoint prefix_of (p s : string) : bool :=
  match p, s with
  | EmptyString, _ => true
  | String a p', String b s' => Ascii.eqb a b && prefix_of p' s'
  | String _ _, EmptyString => false
  end.

(** [s.includes(sub)] *)
Fixpoint includes (s sub : string) : bool :=
  prefix_of sub s ||
  match s with
  | EmptyString => false
  | String _ rest => includes rest sub
  end.

(** [s.split(sep)] for a one-character separator. *)
Fixpoint split_on (sep : ascii) (s : string) : list string :=
  match s with
  | EmptyString => [""]
  | String c rest =>
      if Ascii.eqb c sep then "" :: split_on sep rest
      else match split_on sep rest with
           | [] => [String c ""]
           | w :: ws => String c w :: ws
           end
  end.

(** [new Set(xs)] keeps the first occurrence of each element, in order. *)
Fixpoint dedup {A : Type} (eqb : A -> A -> bool) (xs : list A) : list A :=
  match xs with
  | [] => []
  | x :: rest =>
      x :: filter (fun y => negb (eqb x y)) (dedup eqb rest)
  end.

(** [arr.sort(cmp)] for a comparator with numeric result: the stable sort
    ECMAScript prescribes.  For a consistent comparator the outcome is
    fixed by the language; for any other, engines agree only on the result
    being a rearrangement of the array. *)
Fixpoint sort_insert {A : Type} (cmp : A -> A -> Q) (x : A) (sorted : list A)
  : list A :=
  match sorted with
  | [] => [x]
  | y :: rest =>
      if Qlt_le_dec (cmp x y) 0 then x :: y :: rest
      else y :: sort_insert cmp x rest
  end.

Definition Array_sort {A : Type} (cmp : A -> A -> Q) (xs : list A) : list A :=
  fold_left (fun sorted x => sort_insert cmp x sorted) xs [].

(** [v[k]] (and [v?.[k]]) for any value: own properties of objects,
    elements and [length] of arrays and strings; null and undefined are
    only ever read through [?.] or after a guard. *)
Definition index_of_string (p : string) : option nat :=
  match NilZero.uint_of_string p with
  | Some u =>
      let i := Nat.of_uint u in
      (* an array index is written without leading zeros *)
      if NilZero.string_of_uint (Nat.to_uint i) =? p then Some i else None
  | None => None
  end.

Definition elem (o : value) (p : string) : value :=
  match o with
  | VObj props => prop props p
  | VArr l =>
      if p =? "length" then VNum (Z.of_nat (List.length l))
      else match index_of_string p with
           | Some i => nth i l VUndef
           | None => VUndef
           end
  | VStr s =>
      if p =? "length" then VNum (Z.of_nat (String.length s))
      else match index_of_string p with
           | Some i => match String.get i s with
                       | Some c => VStr (String c "")
                       | None => VUndef
                       end
           | None => VUndef
           end
  | _ => VUndef
  end.

(** [Object.entries(v)]: the own enumerable properties; an array has its
    elements under their indices, a string its characters. *)
Fixpoint indexed (i : nat) (l : list value) : list (string * value) :=
  match l with
  | [] => []
  | x :: rest => (nat_to_string i, x) :: indexed (S i) rest
  end.

Definition Object_entries (v : value) : list (string * value) :=
  match v with
  | VObj o => o
  | VArr l => indexed 0 l
  | VStr s =>
      indexed 0 (map (fun c => VStr (String c "")) (list_ascii_of_string s))
  | _ => []
  end.

Definition Object_keys (v : value) : list string :=
  map fst (Object_entries v).

(** *** Time and the environment *)

(** Milliseconds since the epoch. *)
Definition time : Type := Z.
Bind Scope Z_scope with time.

(** A timestamp seen as a JavaScript value. *)
Definition time_value (t : time) : value := VNum t.

Definition opt_time_value (t : option time) : value :=
  match t with Some x => time_value x | None => VNull end.

(** [t || fallback] on an optional timestamp. *)
Definition time_or (t : option time) (fallback : time) : time :=
  match t with Some x => x | None => fallback end.

(** [new Date('YYYY-MM-DD')]: midnight UTC of a day of the proleptic
    Gregorian calendar. *)
Definition date (y m d : Z) : time :=
  let y' := if (m <=? 2)%Z then (y - 1)%Z else y in
  let era := (y' / 400)%Z in
  let yoe := (y' - era * 400)%Z in
  let doy := ((153 * (if (m <=? 2)%Z then m + 9 else m - 3) + 2) / 5 + d - 1)%Z in
  let doe := (yoe * 365 + yoe / 4 - yoe / 100 + doy)%Z in
  ((era * 146097 + doe - 719468) * 86400000)%Z.

(** What the environment supplies to one operation: [new Date()] and
    [uuidv4()]. *)
Record Env : Type := mkEnv { now : time; uuid : string }.

End JS.

(* ================================================================== *)
(** ** DocumentRegister *)
(* ================================================================== *)

Module DocumentRegister.
Import JS.

(** One superseded version, as [update] pushes it on [history]. *)
Record HistoryRecord : Type := mkHistoryRecord {
  h_version : Z;
  h_data : value;
  h_metadata : obj;
  h_effectiveFrom : time;
  h_effectiveTo : option time;
  h_archivedAt : time
}.

Record Entry : Type := mkEntry {
  e_id : string;
  e_version : Z;
  e_createdAt : time;
  e_updatedAt : time;
  e_effectiveFrom : time;
  e_effectiveTo : option time;
  e_status : string;
  e_data : value;
  e_metadata : obj;
  e_citations : value;
  e_history : list HistoryRecord;
  (** [archivedAt] and [archiveReason], which only [archive] sets *)
  e_archived : option (time * value)
}.

Definition with_history (e : Entry) (h : list HistoryRecord) : Entry :=
  mkEntry (e_id e) (e_version e) (e_createdAt e) (e_updatedAt e)
    (e_effectiveFrom e) (e_effectiveTo e) (e_status e) (e_data e)
    (e_metadata e) (e_citations e) h (e_archived e).

Inductive AuditDetails : Type :=
| AddDetails (version : Z) (effectiveFrom : time) (userId : value)
| UpdateDetails (previousVersion newVersion : Z) (effectiveFrom : time)
    (userId changeReason : value)
| ArchiveDetails (reason userId : value).

Record AuditLogEntry : Type := mkAudit {
  a_timestamp : time;
  a_action : string;
  a_documentId : string;
  a_details : AuditDetails
}.

(** [this.indexes]: under 'category' and under 'tags' a map from the
    indexed value to the set of entry ids, each created on first use. *)
Definition Index : Type := list (value * list string).

Record Indexes : Type := mkIndexes {
  idx_category : option Index;
  idx_tags : option Index
}.

(** The register object.  [storage] is the default [Map], in insertion
    order. *)
Record Register : Type := mkRegister {
  name : string;
  schemaId : value;
  enableVersioning : bool;
  enableAuditLog : bool;
  storage : list (string * Entry);
  auditLog : list AuditLogEntry;
  indexes : Indexes
}.

Record Options : Type := mkOptions {
  o_name : option string;
  o_schemaId : value;
  o_enableVersioning : option bool;
  o_enableAuditLog : option bool
}.

Definition default_options : Options := mkOptions None VUndef None None.

(** [x ?? d] *)
Definition nullish_or (x : option bool) (d : bool) : bool :=
  match x with Some b => b | None => d end.

Definition constructor (options : Options) : Register :=
  {| name := str_or (o_name options) "default";
     schemaId := or_else (o_schemaId options) VNull;
     enableVersioning := nullish_or (o_enableVersioning options) true;
     enableAuditLog := nullish_or (o_enableAuditLog options) true;
     storage := [];
     auditLog := [];
     indexes := mkIndexes None None |}.

Definition set_storage (this : Register) (s : list (string * Entry))
  : Register :=
  mkRegister (name this) (schemaId this) (enableVersioning this)
    (enableAuditLog this) s (auditLog this) (indexes this).

Definition set_auditLog (this : Register) (l : list AuditLogEntry)
  : Register :=
  mkRegister (name this) (schemaId this) (enableVersioning this)
    (enableAuditLog this) (storage this) l (indexes this).

Definition set_indexes (this : Register) (i : Indexes) : Register :=
  mkRegister (name this) (schemaId this) (enableVersioning this)
    (enableAuditLog this) (storage this) (auditLog this) i.

(** *** The storage Map *)

Fixpoint Map_get {V : Type} (m : list (string * V)) (k : string) : option V :=
  match m with
  | [] => None
  | (k', v) :: rest => if k' =? k then Some v else Map_get rest k
  end.

(** [m.set(k, v)]: a key already present keeps its position. *)
Fixpoint Map_set {V : Type} (m : list (string * V)) (k : string) (v : V)
  : list (string * V) :=
  match m with
  | [] => [(k, v)]
  | (k', v') :: rest =>
      if k' =? k then (k', v) :: rest else (k', v') :: Map_set rest k v
  end.

Definition Map_values {V : Type} (m : list (string * V)) : list V :=
  map snd m.

(** *** Errors and the state-and-exception monad of the methods *)

Inductive error : Type :=
| DocumentNotFound (id : string)          (* `Document not found: ${id}` *)
| VersionNotFound (version : Z) (id : string)
    (* `Version ${version} not found for document ${id}` *)
| TypeError           (* a property read on null/undefined, a loop over
                         what cannot be iterated *)
| SyntaxError.                            (* new RegExp on a bad pattern *)

Inductive Outcome (A : Type) : Type :=
| Returned (a : A)
| Thrown (e : error).
Arguments Returned {A} a.
Arguments Thrown {A} e.

Definition M (A : Type) : Type := Register -> Outcome A * Register.

Definition ret {A : Type} (a : A) : M A := fun this => (Returned a, this).

Definition throw {A : Type} (e : error) : M A := fun this => (Thrown e, this).

Definition bind {A B : Type} (m : M A) (k : A -> M B) : M B :=
  fun this =>
    match m this with
    | (Returned a, this') => k a this'
    | (Thrown e, this') => (Thrown e, this')
    end.

Definition modify (f : Register -> Register) : M unit :=
  fun this => (Returned tt, f this).

Definition read {A : Type} (f : Register -> A) : M A :=
  fun this => (Returned (f this), this).

Declare Scope reg_scope.
Delimit Scope reg_scope with reg.
Notation "x <- m ;; k" := (bind m (fun x => k))
  (at level 61, m at next level, right associativity) : reg_scope.
Notation "m ;;; k" := (bind m (fun _ => k))
  (at level 61, right associativity) : reg_scope.
Open Scope reg_scope.

(** *** _logAudit *)

Definition _logAudit (action documentId : string) (details : AuditDetails)
  (env : Env) : M unit :=
  modify (fun this =>
    set_auditLog this
      (auditLog this ++ [mkAudit (now env) action documentId details])%list).

(** *** _updateIndexes *)

(** [index.get(key).add(id)], creating the set when the key is new. *)
Fixpoint index_add (index : Index) (key : value) (id : string) : Index :=
  match index with
  | [] => [(key, [id])]
  | (k, ids) :: rest =>
      if same_value_zero k key
      then (k, if existsb (String.eqb id) ids then ids else (ids ++ [id])%list)
           :: rest
      else (k, ids) :: index_add rest key id
  end.

(** The elements a [for ... of] over [metadata.tags] visits, when the
    value has a non-zero length: the elements of an array, the characters
    of a string. *)
Definition tags_of (tags : value) : list value :=
  match tags with
  | VArr l => l
  | VStr s => map (fun c => VStr (String c "")) (list_ascii_of_string s)
  | _ => []
  end.

Definition _updateIndexes (entry : Entry) : M unit :=
  modify (fun this =>
    let category := prop (e_metadata entry) "category" in
    let this :=
      if truthy category then
        let categoryIndex :=
          match idx_category (indexes this) with Some i => i | None => [] end in
        set_indexes this
          (mkIndexes (Some (index_add categoryIndex category (e_id entry)))
                     (idx_tags (indexes this)))
      else this in
    match tags_of (prop (e_metadata entry) "tags") with
    | [] => this
    | tags =>
        let tagIndex :=
          match idx_tags (indexes this) with Some i => i | None => [] end in
        set_indexes this
          (mkIndexes (idx_category (indexes this))
             (Some (fold_left (fun ix tag => index_add ix tag (e_id entry))
                      tags tagIndex)))
    end).

(** *** get *)

Record GetOptions : Type := mkGetOptions {
  go_version : option Z;
  go_asOf : option time
}.

Definition no_options : GetOptions := mkGetOptions None None.

(** The object [get] builds for a historic version ([isHistoric: true]). *)
Record HistoricView : Type := mkHistoricView {
  hv_id : string;
  hv_version : Z;
  hv_data : value;
  hv_metadata : obj;
  hv_effectiveFrom : time;
  hv_effectiveTo : option time
}.

Inductive GetResult : Type :=
| Current (entry : Entry)
| Historic (view : HistoricView).

Definition historic_view (entry : Entry) (h : HistoryRecord) : HistoricView :=
  mkHistoricView (e_id entry) (h_version h) (h_data h) (h_metadata h)
    (h_effectiveFrom h) (h_effectiveTo h).

(** [from <= date && (!to || to > date)] on Date objects. *)
Definition effective_at (from : time) (to : option time) (date : time)
  : bool :=
  (from <=? date)%Z &&
  match to with None => true | Some t => (t >? date)%Z end.

Definition get (id : string) (options : GetOptions) : M (option GetResult) :=
  fun this =>
    match Map_get (storage this) id with
    | None => (Returned None, this)
    | Some entry =>
        (* options.version && options.version !== entry.version *)
        let wanted :=
          match go_version options with
          | Some v => if (v =? 0)%Z || (v =? e_version entry)%Z
                      then None else Some v
          | None => None
          end in
        match wanted with
        | Some v =>
            (* Return specific version if requested *)
            match find (fun h => (h_version h =? v)%Z) (e_history entry) with
            | Some historicVersion =>
                (Returned (Some (Historic (historic_view entry historicVersion))),
                 this)
            | None => (Thrown (VersionNotFound v id), this)
            end
        | None =>
            match go_asOf options with
            | Some asOfDate =>
                (* Return version effective at specific date *)
                if effective_at (e_effectiveFrom entry) (e_effectiveTo entry)
                     asOfDate
                then (Returned (Some (Current entry)), this)
                else
                  (* entry.history.reverse() reverses the stored array in
                     place and hands the same array to the loop *)
                  let reversed := rev (e_history entry) in
                  let this' :=
                    set_storage this
                      (Map_set (storage this) id (with_history entry reversed)) in
                  match find (fun h => effective_at (h_effectiveFrom h)
                                         (h_effectiveTo h) asOfDate) reversed with
                  | Some historicVersion =>
                      (Returned
                         (Some (Historic (historic_view entry historicVersion))),
                       this')
                  | None => (Returned None, this')
                  end
            | None => (Returned (Some (Current entry)), this)
            end
        end
    end.

(** *** add *)

Record AddOptions : Type := mkAddOptions {
  ao_id : option string;
  ao_effectiveFrom : option time;
  ao_effectiveTo : option time;
  ao_status : option string;
  ao_source : value;
  ao_tags : value;
  ao_category : value;
  ao_metadata : option obj;
  ao_userId : value
}.

Definition no_add_options : AddOptions :=
  mkAddOptions None None None None VUndef VUndef VUndef None VUndef.

Record AddResult : Type := mkAddResult {
  ar_id : string;
  ar_version : Z;
  ar_createdAt : time;
  ar_status : string
}.

(** The object literal [entry] of [add]. *)
Definition new_entry (this : Register) (entryId : string) (document : value)
  (options : AddOptions) (now : time) : Entry :=
  {| e_id := entryId;
     e_version := 1;
     e_createdAt := now;
     e_updatedAt := now;
     e_effectiveFrom := time_or (ao_effectiveFrom options) now;
     e_effectiveTo := ao_effectiveTo options;
     e_status := str_or (ao_status options) "active";
     e_data := or_else (member document "data") document;
     e_metadata :=
       spread_opt
         (literal
            [("schemaId", or_else (member document "schemaId") (schemaId this));
             ("schemaVersion", member document "schemaVersion");
             ("extractionId", member document "extractionId");
             ("confidence", member document "confidence");
             ("source", or_else (ao_source options) VNull);
             ("tags", or_else (ao_tags options) (VArr []));
             ("category", or_else (ao_category options) VNull)])
         (ao_metadata options);
     e_citations := or_else (member document "citations") (VArr []);
     e_history := [];
     e_archived := None |}.

Definition add (document : value) (options : AddOptions) (env : Env)
  : M AddResult :=
  let entryId := str_or (ao_id options) (uuid env) in
  let version := 1%Z in
  let now := now env in
  if nullish document then throw TypeError  (* document.data *)
  else
    this <- read (fun this => this) ;;
    let entry := new_entry this entryId document options now in
    (* Store the entry *)
    modify (fun this =>
      set_storage this (Map_set (storage this) entryId entry)) ;;;
    (* Update indexes *)
    _updateIndexes entry ;;;
    (* Audit log *)
    (if enableAuditLog this
     then _logAudit "ADD" entryId
            (AddDetails version (e_effectiveFrom entry) (ao_userId options)) env
     else ret tt) ;;;
    ret (mkAddResult entryId version now "created").

(** *** update *)

Record UpdateOptions : Type := mkUpdateOptions {
  uo_effectiveFrom : option time;
  uo_effectiveTo : option time;
  uo_metadata : option obj;
  uo_userId : value;
  uo_changeReason : value
}.

Definition no_update_options : UpdateOptions :=
  mkUpdateOptions None None None VUndef VUndef.

Record UpdateResult : Type := mkUpdateResult {
  ur_id : string;
  ur_version : Z;
  ur_previousVersion : Z;
  ur_updatedAt : time;
  ur_status : string
}.

(** The object [historyEntry] of [update]: the version being replaced,
    closed at [now]. *)
Definition history_entry (existing : Entry) (now : time) : HistoryRecord :=
  {| h_version := e_version existing;
     h_data := e_data existing;
     h_metadata := e_metadata existing;
     h_effectiveFrom := e_effectiveFrom existing;
     h_effectiveTo := Some now;
     h_archivedAt := now |}.

(** The object literal [updated] of [update]. *)
Definition updated_entry (this : Register) (existing : Entry)
  (document : value) (options : UpdateOptions) (now : time) : Entry :=
  {| e_id := e_id existing;
     e_version := e_version existing + 1;
     e_createdAt := e_createdAt existing;
     e_updatedAt := now;
     e_effectiveFrom := time_or (uo_effectiveFrom options) now;
     e_effectiveTo := uo_effectiveTo options;
     e_status := e_status existing;
     e_data := or_else (member document "data") document;
     e_metadata :=
       spread_opt
         (spread (e_metadata existing)
            [("schemaId",
               or_else (member document "schemaId")
                 (prop (e_metadata existing) "schemaId"));
             ("schemaVersion",
               or_else (member document "schemaVersion")
                 (prop (e_metadata existing) "schemaVersion"));
             ("extractionId", member document "extractionId");
             ("confidence", member document "confidence")])
         (uo_metadata options);
     e_citations :=
       or_else (member document "citations") (e_citations existing);
     e_history :=
       if enableVersioning this
       then (e_history existing ++ [history_entry existing now])%list
       else [];
     e_archived := e_archived existing |}.

Definition update (id : string) (document : value) (options : UpdateOptions)
  (env : Env) : M UpdateResult :=
  got <- get id no_options ;;
  match got with
  | None => throw (DocumentNotFound id)
  | Some (Historic _) =>
      (* not reached: without options get answers with the stored entry *)
      throw TypeError
  | Some (Current existing) =>
      let now := now env in
      let newVersion := (e_version existing + 1)%Z in
      if nullish document then throw TypeError  (* document.data *)
      else
        this <- read (fun this => this) ;;
        let updated := updated_entry this existing document options now in
        (* Store updated entry *)
        modify (fun this => set_storage this (Map_set (storage this) id updated)) ;;;
        (* Update indexes *)
        _updateIndexes updated ;;;
        (* Audit log *)
        (if enableAuditLog this
         then _logAudit "UPDATE" id
                (UpdateDetails (e_version existing) newVersion
                   (e_effectiveFrom updated) (uo_userId options)
                   (uo_changeReason options)) env
         else ret tt) ;;;
        ret (mkUpdateResult id newVersion (e_version existing) now "updated")
  end.

(** *** archive *)

Record ArchiveOptions : Type := mkArchiveOptions {
  arc_reason : value;
  arc_userId : value
}.

Record ArchiveResult : Type := mkArchiveResult {
  arr_id : string;
  arr_status : string;
  arr_archivedAt : time
}.

(** The entry once [archive] has assigned [status], [archivedAt] and
    [archiveReason]. *)
Definition archived_entry (entry : Entry) (now : time) (reason : value)
  : Entry :=
  mkEntry (e_id entry) (e_version entry) (e_createdAt entry)
    (e_updatedAt entry) (e_effectiveFrom entry) (e_effectiveTo entry)
    "archived" (e_data entry) (e_metadata entry) (e_citations entry)
    (e_history entry) (Some (now, reason)).

Definition archive (id : string) (options : ArchiveOptions) (env : Env)
  : M ArchiveResult :=
  got <- get id no_options ;;
  match got with
  | None => throw (DocumentNotFound id)
  | Some (Historic view) =>
      (* not reached: without options get answers with the stored entry *)
      throw TypeError
  | Some (Current entry) =>
      (* entry.status = 'archived'; entry.archivedAt = ...;
         entry.archiveReason = options.reason *)
      let entry := archived_entry entry (now env) (arc_reason options) in
      modify (fun this => set_storage this (Map_set (storage this) id entry)) ;;;
      this <- read (fun this => this) ;;
      (if enableAuditLog this
       then _logAudit "ARCHIVE" id
              (ArchiveDetails (arc_reason options) (arc_userId options)) env
       else ret tt) ;;;
      ret (mkArchiveResult id "archived" (now env))
  end.

(** *** list, search, export, import

    Two operators of the language are left open: the relational [a < b]
    with its coercions, and [new RegExp(pattern, flags)], which either
    throws or yields the test it performs on a string. *)

Section Engine.

Variable js_lt : value -> value -> bool.
Variable RegExp : value -> value -> option (string -> bool).

(** [a > b] *)
Definition js_gt (a b : value) : bool := js_lt b a.

Definition history_value (h : HistoryRecord) : value :=
  VObj [("version", VNum (h_version h));
        ("data", h_data h);
        ("metadata", VObj (h_metadata h));
        ("effectiveFrom", time_value (h_effectiveFrom h));
        ("effectiveTo", opt_time_value (h_effectiveTo h));
        ("archivedAt", time_value (h_archivedAt h))].

(** The entry as the object it is, for reads by property name. *)
Definition entry_fields (e : Entry) : obj :=
  ([("id", VStr (e_id e));
    ("version", VNum (e_version e));
    ("createdAt", time_value (e_createdAt e));
    ("updatedAt", time_value (e_updatedAt e));
    ("effectiveFrom", time_value (e_effectiveFrom e));
    ("effectiveTo", opt_time_value (e_effectiveTo e));
    ("status", VStr (e_status e));
    ("data", e_data e);
    ("metadata", VObj (e_metadata e));
    ("citations", e_citations e);
    ("history", VArr (map history_value (e_history e)))]
   ++ match e_archived e with
      | Some (at_, reason) =>
          [("archivedAt", time_value at_); ("archiveReason", reason)]
      | None => []
      end)%list.

Inductive Limit : Type := Finite (n : nat) | Infinity.

Record ListOptions : Type := mkListOptions {
  lo_status : option string;
  lo_category : value;
  lo_tags : list value;
  lo_effectiveAt : option time;
  lo_schemaId : value;
  lo_sortBy : option string;
  lo_sortDir : option string;
  lo_offset : option nat;
  lo_limit : option Limit;
  lo_includeData : bool
}.

Definition no_list_options : ListOptions :=
  mkListOptions None VUndef [] None VUndef None None None None false.

(** The projection [list] returns for an entry when [includeData] is off. *)
Record Summary : Type := mkSummary {
  s_id : string;
  s_version : Z;
  s_status : string;
  s_createdAt : time;
  s_updatedAt : time;
  s_effectiveFrom : time;
  s_effectiveTo : option time;
  s_metadata : obj
}.

Inductive Listed : Type :=
| Full (e : Entry)
| Brief (s : Summary).

Record ListResult : Type := mkListResult {
  lr_entries : list Listed;
  lr_total : nat;
  lr_offset : nat;
  lr_limit : Limit;
  lr_hasMore : bool
}.

(** [array.includes(x)] on the value stored under [metadata.tags]. *)
Definition tags_include (tags tag : value) : bool :=
  match tags with
  | VArr l => existsb (same_value_zero tag) l
  | VStr s => includes s (js_String tag)
  | _ => false
  end.

(** [entries.slice(offset, offset + limit)] *)
Definition slice (offset : nat) (limit : Limit) {A : Type} (xs : list A)
  : list A :=
  match limit with
  | Finite n => firstn n (skipn offset xs)
  | Infinity => skipn offset xs
  end.

Definition list_ (options : ListOptions) : M ListResult :=
  this <- read (fun this => this) ;;
  let entries := Map_values (storage this) in
  (* Apply filters *)
  let entries :=
    match lo_status options with
    | Some s =>
        if s =? "" then entries
        else filter (fun e => e_status e =? s) entries
    | None => entries
    end in
  let entries :=
    if truthy (lo_category options)
    then filter (fun e => strict_eq (prop (e_metadata e) "category")
                            (lo_category options)) entries
    else entries in
  let entries :=
    match lo_tags options with
    | [] => entries
    | tags =>
        filter (fun e =>
          existsb (fun tag => tags_include (prop (e_metadata e) "tags") tag)
            tags) entries
    end in
  let entries :=
    match lo_effectiveAt options with
    | Some date =>
        filter (fun e => effective_at (e_effectiveFrom e) (e_effectiveTo e) date)
          entries
    | None => entries
    end in
  let entries :=
    if truthy (lo_schemaId options)
    then filter (fun e => strict_eq (prop (e_metadata e) "schemaId")
                            (lo_schemaId options)) entries
    else entries in
  (* Sort *)
  let sortField := str_or (lo_sortBy options) "updatedAt" in
  let sortDir := str_or (lo_sortDir options) "desc" in
  let key e :=
    or_else (prop (entry_fields e) sortField) (prop (e_metadata e) sortField) in
  let entries :=
    Array_sort (fun a b =>
      if sortDir =? "asc"
      then (if js_gt (key a) (key b) then 1 else -1)%Q
      else (if js_lt (key a) (key b) then 1 else -1)%Q) entries in
  (* Pagination *)
  let offset := match lo_offset options with Some n => n | None => 0 end in
  let limit :=
    match lo_limit options with
    | Some (Finite 0) | None => Finite 100
    | Some l => l
    end in
  let total := List.length entries in
  let entries := slice offset limit entries in
  ret {| lr_entries :=
           map (fun e =>
             if lo_includeData options then Full e
             else Brief (mkSummary (e_id e) (e_version e) (e_status e)
                           (e_createdAt e) (e_updatedAt e) (e_effectiveFrom e)
                           (e_effectiveTo e) (e_metadata e))) entries;
         lr_total := total;
         lr_offset := offset;
         lr_limit := limit;
         lr_hasMore :=
           match limit with
           | Finite n => (offset + n <? total)%nat
           | Infinity => false
           end |}.

(** *** search *)

(** Get nested value from object using dot notation *)
Definition _getNestedValue (o : value) (path : string) : value :=
  fold_left elem (split_on "."%char path) o.

Record Matches : Type := mkMatches {
  matched : bool;
  score : Q;
  fields : list string
}.

Definition hit (m : Matches) (weight : Q) (field : string) : Matches :=
  mkMatches true (score m + weight)%Q (fields m ++ [field])%list.

Definition is_operators (v : value) : bool :=
  match v with VObj _ | VArr _ => true | _ => false end.

(** One turn of the loop of [_matchesQuery]; [None] when [new RegExp]
    throws. *)
Definition match_field (data : value) (m : Matches) (field : string)
  (v : value) : option Matches :=
  let fieldValue := _getNestedValue data field in
  if isUndefined fieldValue then Some m
  else if is_operators v then
    (* Complex query operators *)
    let m := if negb (isUndefined (member v "$eq"))
                && strict_eq fieldValue (member v "$eq")
             then hit m 1 field else m in
    let m := if negb (isUndefined (member v "$contains"))
                && includes (js_String fieldValue)
                     (js_String (member v "$contains"))
             then hit m 0.8 field else m in
    let m := if negb (isUndefined (member v "$gt"))
                && js_gt fieldValue (member v "$gt")
             then hit m 0.7 field else m in
    let m := if negb (isUndefined (member v "$lt"))
                && js_lt fieldValue (member v "$lt")
             then hit m 0.7 field else m in
    if negb (isUndefined (member v "$regex")) then
      match RegExp (member v "$regex") (or_else (member v "$flags") (VStr "i"))
      with
      | Some test =>
          Some (if test (js_String fieldValue) then hit m 0.9 field else m)
      | None => None
      end
    else Some m
  else
    (* Simple equality *)
    Some (if strict_eq fieldValue v then hit m 1 field else m).

Fixpoint match_fields (data : value) (m : Matches) (query : obj)
  : option Matches :=
  match query with
  | [] => Some m
  | (field, v) :: rest =>
      match match_field data m field v with
      | Some m' => match_fields data m' rest
      | None => None
      end
  end.

(** Check if document matches search query *)
Definition _matchesQuery (data : value) (query : obj) : option Matches :=
  match_fields data (mkMatches false 0 []) query.

Record SearchHit : Type := mkSearchHit {
  sh_entry : Entry;
  sh_matchScore : Q;
  sh_matchedFields : list string
}.

Record SearchResult : Type := mkSearchResult {
  sr_results : list SearchHit;
  sr_total : nat;
  sr_query : obj
}.

(** The loop of [search] over the entries. *)
Fixpoint collect (query : obj) (entries : list Entry) (results : list SearchHit)
  : option (list SearchHit) :=
  match entries with
  | [] => Some results
  | entry :: rest =>
      match _matchesQuery (e_data entry) query with
      | Some matches =>
          collect query rest
            (if matched matches
             then (results ++ [mkSearchHit entry (score matches)
                                 (fields matches)])%list
             else results)
      | None => None
      end
  end.

Definition search (query : obj) (limit : option nat) : M SearchResult :=
  this <- read (fun this => this) ;;
  let entries := Map_values (storage this) in
  match collect query entries [] with
  | None => throw SyntaxError
  | Some results =>
      (* Sort by match score *)
      let results :=
        Array_sort (fun a b => (sh_matchScore b - sh_matchScore a)%Q) results in
      ret {| sr_results :=
               firstn (match limit with
                       | Some 0 | None => 50
                       | Some n => n
                       end) results;
             sr_total := List.length results;
             sr_query := query |}
  end.

(** *** export *)

Record Exported : Type := mkExported {
  x_registerName : string;
  x_schemaId : value;
  x_exportedAt : time;
  x_totalEntries : nat;
  x_entries : list Listed;
  x_auditLog : option (list AuditLogEntry)
}.

Definition export (options : ListOptions) (includeAuditLog : bool) (env : Env)
  : M Exported :=
  listed <- list_ (mkListOptions (lo_status options) (lo_category options)
                     (lo_tags options) (lo_effectiveAt options)
                     (lo_schemaId options) (lo_sortBy options)
                     (lo_sortDir options) (lo_offset options)
                     (Some Infinity) true) ;;
  this <- read (fun this => this) ;;
  ret {| x_registerName := name this;
         x_schemaId := schemaId this;
         x_exportedAt := now env;
         x_totalEntries := lr_total listed;
         x_entries := lr_entries listed;
         x_auditLog := if includeAuditLog then Some (auditLog this) else None |}.

End Engine.

(** *** import *)

(** One element of the sequence [import] walks: the properties it reads,
    and the element itself as an object ([entry.data || entry]). *)
Record ImportItem : Type := mkImportItem {
  ii_id : option string;
  ii_data : value;
  ii_effectiveFrom : option time;
  ii_effectiveTo : option time;
  ii_status : option string;
  ii_metadata : option obj;
  ii_self : obj
}.

(** An exported entry, read back by [import]. *)
Definition item_of (l : Listed) : ImportItem :=
  match l with
  | Full e =>
      mkImportItem (Some (e_id e)) (e_data e) (Some (e_effectiveFrom e))
        (e_effectiveTo e) (Some (e_status e)) (Some (e_metadata e))
        (entry_fields e)
  | Brief s =>
      mkImportItem (Some (s_id s)) VUndef (Some (s_effectiveFrom s))
        (s_effectiveTo s) (Some (s_status s)) (Some (s_metadata s))
        [("id", VStr (s_id s));
         ("version", VNum (s_version s));
         ("status", VStr (s_status s));
         ("createdAt", time_value (s_createdAt s));
         ("updatedAt", time_value (s_updatedAt s));
         ("effectiveFrom", time_value (s_effectiveFrom s));
         ("effectiveTo", opt_time_value (s_effectiveTo s));
         ("metadata", VObj (s_metadata s))]
  end.

Record ImportResults : Type := mkImportResults {
  imported : nat;
  skipped : nat;
  errors : list (option string * error)
}.

(** [this.get(entry.id)] where the id may be undefined. *)
Definition get_opt (id : option string) : M (option GetResult) :=
  match id with
  | Some i => get i no_options
  | None => ret None
  end.

(** The options [import] passes to [add] for an element:
    [{id, effectiveFrom, effectiveTo, status, metadata, source: 'import'}]. *)
Definition import_options (entry : ImportItem) : AddOptions :=
  {| ao_id := ii_id entry;
     ao_effectiveFrom := ii_effectiveFrom entry;
     ao_effectiveTo := ii_effectiveTo entry;
     ao_status := ii_status entry;
     ao_source := VStr "import";
     ao_tags := VUndef;
     ao_category := VUndef;
     ao_metadata := ii_metadata entry;
     ao_userId := VUndef |}.

(** The body of the loop of [import] for one element; a throw inside the
    try block is caught and recorded. *)
Definition import_one (skipExisting : bool) (env : Env) (results : ImportResults)
  (entry : ImportItem) : M ImportResults :=
  fun this =>
    let attempt : M ImportResults :=
      existing <- (if skipExisting then get_opt (ii_id entry) else ret None) ;;
      match existing with
      | Some _ =>
          ret (mkImportResults (imported results) (S (skipped results))
                 (errors results))
      | None =>
          add (or_else (ii_data entry) (VObj (ii_self entry)))
            (import_options entry) env ;;;
          ret (mkImportResults (S (imported results)) (skipped results)
                 (errors results))
      end in
    match attempt this with
    | (Returned r, this') => (Returned r, this')
    | (Thrown e, this') =>
        (Returned (mkImportResults (imported results) (skipped results)
                     (errors results ++ [(ii_id entry, e)])%list), this')
    end.

Fixpoint import_loop (skipExisting : bool) (envs : nat -> Env) (i : nat)
  (results : ImportResults) (entries : list ImportItem) : M ImportResults :=
  match entries with
  | [] => ret results
  | entry :: rest =>
      results' <- import_one skipExisting (envs i) results entry ;;
      import_loop skipExisting envs (S i) results' rest
  end.

(** What [import] is handed as [data]: an object whose [entries] property
    is the sequence (the shape [export] writes), or the sequence itself. *)
Inductive ImportData : Type :=
| Payload (entries : list ImportItem)     (* {entries: [...]} *)
| Sequence (items : list ImportItem).     (* [...] *)

(** [data.entries || data], the sequence the loop is to walk.  On a bare
    array [data.entries] is the array's own [entries] method, a function
    and so truthy, which [for...of] cannot iterate: the loop statement
    throws a TypeError, outside the try block of its body. *)
Definition entries_of (data : ImportData) : M (list ImportItem) :=
  match data with
  | Payload entries => ret entries
  | Sequence _ => throw TypeError
  end.

(** [envs i] is what the clock and the uuid generator answer while the
    i-th element is added. *)
Definition import (data : ImportData) (skipExisting : bool)
  (envs : nat -> Env) : M ImportResults :=
  entries <- entries_of data ;;
  import_loop skipExisting envs 0 (mkImportResults 0 0 []) entries.

(** *** getHistory *)

(** One line of the version list: the current version with [updatedAt],
    or a superseded one with [archivedAt]. *)
Inductive VersionInfo : Type :=
| CurrentVersion (version : Z) (effectiveFrom : time)
    (effectiveTo : option time) (updatedAt : time)
| HistoricVersion (version : Z) (effectiveFrom : time)
    (effectiveTo : option time) (archivedAt : time).

Definition vi_version (v : VersionInfo) : Z :=
  match v with
  | CurrentVersion n _ _ _ | HistoricVersion n _ _ _ => n
  end.

Definition vi_isCurrent (v : VersionInfo) : bool :=
  match v with CurrentVersion _ _ _ _ => true | HistoricVersion _ _ _ _ => false end.

Record HistoryResult : Type := mkHistoryResult {
  hr_id : string;
  hr_currentVersion : Z;
  hr_versions : list VersionInfo
}.

(** Get version history for a document *)
Definition getHistory (id : string) : M HistoryResult :=
  got <- get id no_options ;;
  match got with
  | None => throw (DocumentNotFound id)
  | Some (Historic _) =>
      (* not reached: without options get answers with the stored entry *)
      throw TypeError
  | Some (Current entry) =>
      ret {| hr_id := id;
             hr_currentVersion := e_version entry;
             hr_versions :=
               (* Current version *)
               CurrentVersion (e_version entry) (e_effectiveFrom entry)
                 (e_effectiveTo entry) (e_updatedAt entry)
               (* Historic versions: the mapped copy is what is reversed *)
               :: rev (map (fun h =>
                         HistoricVersion (h_version h) (h_effectiveFrom h)
                           (h_effectiveTo h) (h_archivedAt h))
                       (e_history entry)) |}
  end.

(** *** getAuditLog *)

Record AuditOptions : Type := mkAuditOptions {
  al_documentId : option string;
  al_action : option string;
  al_since : option time;
  al_limit : option nat
}.

(** [logs.slice(-n)] for a positive [n]: the last [n] elements, all of
    them when there are fewer. *)
Definition last_n {A : Type} (n : nat) (xs : list A) : list A :=
  skipn (List.length xs - n) xs.

(** Get audit log entries *)
Definition getAuditLog (options : AuditOptions) (this : Register)
  : list AuditLogEntry :=
  let logs := auditLog this in
  let logs :=
    match al_documentId options with
    | Some d => if d =? "" then logs
                else filter (fun l => a_documentId l =? d) logs
    | None => logs
    end in
  let logs :=
    match al_action options with
    | Some a => if a =? "" then logs
                else filter (fun l => a_action l =? a) logs
    | None => logs
    end in
  let logs :=
    match al_since options with
    | Some since => filter (fun l => (a_timestamp l >=? since)%Z) logs
    | None => logs
    end in
  last_n (match al_limit options with
          | Some 0 | None => 1000
          | Some n => n
          end) logs.

End DocumentRegister.

(* ================================================================== *)
(** ** DocumentComparator *)
(* ================================================================== *)

Module DocumentComparator.
Import JS.

Record Comparator : Type := mkComparator {
  ignoreFields : list string;
  significanceThreshold : Q;
  deepCompare : bool
}.

Record Options : Type := mkOptions {
  o_ignoreFields : option (list string);
  o_significanceThreshold : option Q;
  o_deepCompare : option bool
}.

Definition constructor (options : Options) : Comparator :=
  {| ignoreFields :=
       match o_ignoreFields options with
       | Some l => l
       | None => ["extractionId"; "timestamp"; "durationMs"]
       end;
     significanceThreshold :=
       match o_significanceThreshold options with
       | Some q => q
       | None => 0.1%Q
       end;
     deepCompare :=
       match o_deepCompare options with Some b => b | None => true end |}.

(** A document handed to the comparator: the properties the comparator
    reads by name, and the object itself ([doc.data || doc]). *)
Record Document : Type := mkDocument {
  d_id : value;
  d_version : value;
  d_effectiveFrom : option time;
  d_effectiveTo : option time;
  d_data : value;
  d_self : obj
}.

(** [doc.data || doc] *)
Definition data_of (doc : Document) : value :=
  or_else (d_data doc) (VObj (d_self doc)).

Inductive DiffType : Type :=
| added | removed | numeric_change | text_change | array_change
| object_change | modified.

Definition DiffType_eqb (a b : DiffType) : bool :=
  match a, b with
  | added, added | removed, removed | numeric_change, numeric_change
  | text_change, text_change | array_change, array_change
  | object_change, object_change | modified, modified => true
  | _, _ => false
  end.

(** A difference record: [field], [type], [valueA], [valueB],
    [significance], and the details spread into it, which depend on the
    type.  Arithmetic on numbers is exact. *)
Inductive Difference : Type :=
| mkDifference (field : string) (type : DiffType) (valueA valueB : value)
    (significance : number) (details : Details)
with Details : Type :=
| NoDetails
| NumericDetails (delta : number) (percentChange : option number)
| TextDetails (lengthChange : Z)
| ArrayDetails (itemsAdded itemsRemoved : nat) (added_ removed_ : list value)
| ObjectDetails (nestedChanges : nat) (changes : list Difference).

Definition field (d : Difference) : string :=
  match d with mkDifference f _ _ _ _ _ => f end.

Definition type (d : Difference) : DiffType :=
  match d with mkDifference _ t _ _ _ _ => t end.

Definition valueA (d : Difference) : value :=
  match d with mkDifference _ _ a _ _ _ => a end.

Definition valueB (d : Difference) : value :=
  match d with mkDifference _ _ _ b _ _ => b end.

Definition significance (d : Difference) : number :=
  match d with mkDifference _ _ _ _ s _ => s end.

Definition details (d : Difference) : Details :=
  match d with mkDifference _ _ _ _ _ x => x end.

(** Check if two values are equal.  When [a] and [b] are one array or
    object, [a === b] holds and so does the equality of their
    serializations, which is the test kept here. *)
Definition _areEqual (a b : value) : bool :=
  if strict_eq a b then true
  else if negb (jstype_eqb (typeof a) (typeof b)) then false
  else if jstype_eqb (typeof a) TObject
       then opt_string_eqb (JSON_stringify a) (JSON_stringify b)
       else false.

(** Compare two arrays *)
Definition _compareArrays (arrA arrB : list value) : Details :=
  let added := filter (fun b => negb (existsb (fun a => _areEqual a b) arrA)) arrB in
  let removed := filter (fun a => negb (existsb (fun b => _areEqual a b) arrB)) arrA in
  ArrayDetails (List.length added) (List.length removed) added removed.

(** Calculate length of common prefix *)
Fixpoint _commonPrefixLength (strA strB : string) : nat :=
  match strA, strB with
  | String a restA, String b restB =>
      if Ascii.eqb a b then S (_commonPrefixLength restA restB) else 0
  | _, _ => 0
  end.

Definition Q_of_nat (n : nat) : Q := inject_Z (Z.of_nat n).

(** Calculate significance of a change *)
Definition _calculateSignificance (oldVal newVal : value) : number :=
  if nullish oldVal then Num 0.5
  else if nullish newVal then Num 0.5
  else
    match number_of oldVal, number_of newVal with
    | Some o, Some n =>
        let percentChange := nabs (ndiv (nsub n o) (number_or o (Num 1))) in
        nmin percentChange (Num 1)
    | _, _ =>
        match oldVal, newVal with
        | VStr o, VStr n =>
            (* Levenshtein-like significance *)
            let maxLen := Nat.max (String.length o) (String.length n) in
            if (maxLen =? 0)%nat then Num 0
            else
              let commonPrefix := _commonPrefixLength o n in
              Num (1 - Q_of_nat commonPrefix / Q_of_nat maxLen)
        | _, _ => Num 0.5 (* Default significance for other types *)
        end
    end.

Definition opt_list {A : Type} (x : option A) : list A :=
  match x with Some a => [a] | None => [] end.

(** The body of [_compareValues], open in the method it calls for two
    objects ([this._compareObjects]). *)
Definition compareValues_with (_compareObjects : value -> value -> Details)
  (deep : bool) (valueA valueB : value) (field : string)
  : option Difference :=
  (* Handle undefined/null cases *)
  if isUndefined valueA && negb (isUndefined valueB) then
    Some (mkDifference field added VNull valueB
            (_calculateSignificance VNull valueB) NoDetails)
  else if negb (isUndefined valueA) && isUndefined valueB then
    Some (mkDifference field removed valueA VNull
            (_calculateSignificance valueA VNull) NoDetails)
  (* Both have values - compare them *)
  else if _areEqual valueA valueB then None
  else
    (* Determine type of change *)
    let '(type, details) :=
      match number_of valueA, number_of valueB with
      | Some a, Some b =>
          (numeric_change,
           NumericDetails (nsub b a)
             (if strict_eq valueA (VNum 0) then None
              else Some (nmul (ndiv (nsub b a) a) (Num 100))))
      | _, _ =>
          match valueA, valueB with
          | VStr a, VStr b =>
              (text_change,
               TextDetails
                 (Z.of_nat (String.length b) - Z.of_nat (String.length a)))
          | VArr a, VArr b => (array_change, _compareArrays a b)
          | _, _ =>
              if deep && jstype_eqb (typeof valueA) TObject
                      && jstype_eqb (typeof valueB) TObject
              then (object_change, _compareObjects valueA valueB)
              else (modified, NoDetails)
          end
      end in
    Some (mkDifference field type valueA valueB
            (_calculateSignificance valueA valueB) details).

(** Compare two objects (deep).  The value [objA?.[key]] is reached by
    walking [objA], so that the comparison of a nested value descends
    into a component of [objA]; a key [objA] lacks, and the [length] of an
    array, give a value that holds nothing to descend into. *)
Fixpoint _compareObjects (deep : bool) (objA objB : value) {struct objA}
  : Details :=
  let allKeys :=
    dedup String.eqb
      (Object_keys (or_else objA (VObj [])) ++
       Object_keys (or_else objB (VObj [])))%list in
  let self := compareValues_with (_compareObjects deep) deep in
  let leaf := compareValues_with (fun _ _ => NoDetails) deep in
  let diff_at (key : string) : option Difference :=
    (* this._compareValues(objA?.[key], objB?.[key], key, {}) *)
    match objA with
    | VObj props =>
        (fix find (o : list (string * value)) : option Difference :=
           match o with
           | [] => leaf VUndef (elem objB key) key
           | (k, v) :: rest =>
               if k =? key then self v (elem objB key) key else find rest
           end) props
    | VArr l =>
        if key =? "length"
        then leaf (VNum (Z.of_nat (List.length l))) (elem objB key) key
        else match index_of_string key with
             | Some i =>
                 (fix at_ (l : list value) (i : nat) {struct l}
                    : option Difference :=
                    match l with
                    | [] => leaf VUndef (elem objB key) key
                    | v :: rest =>
                        match i with
                        | O => self v (elem objB key) key
                        | S j => at_ rest j
                        end
                    end) l i
             | None => leaf VUndef (elem objB key) key
             end
    | other => leaf (elem other key) (elem objB key) key
    end in
  let changes := flat_map (fun key => opt_list (diff_at key)) allKeys in
  ObjectDetails (List.length changes) changes.

(** Compare two values and return difference info *)
Definition _compareValues (this : Comparator) (valueA valueB : value)
  (field : string) : option Difference :=
  compareValues_with (_compareObjects (deepCompare this)) (deepCompare this)
    valueA valueB field.

Record Statistics : Type := mkStatistics {
  totalFields : nat;
  totalDifferences : nat;
  st_added : nat;
  st_removed : nat;
  st_modified : Z;
  changePercentage : Q;
  averageSignificance : number
}.

(** Calculate comparison statistics *)
Definition _calculateStats (differences : list Difference) (totalFields : nat)
  : Statistics :=
  let added :=
    List.length (filter (fun d => DiffType_eqb (type d) added) differences) in
  let removed :=
    List.length (filter (fun d => DiffType_eqb (type d) removed) differences) in
  let n := List.length differences in
  {| totalFields := totalFields;
     totalDifferences := n;
     st_added := added;
     st_removed := removed;
     st_modified := (Z.of_nat n - Z.of_nat added - Z.of_nat removed)%Z;
     changePercentage :=
       if (0 <? totalFields)%nat then (Q_of_nat n / Q_of_nat totalFields)%Q
       else 0%Q;
     averageSignificance :=
       if (0 <? n)%nat
       then ndiv
              (fold_left
                 (fun sum d => nadd sum (number_or (significance d) (Num 0)))
                 differences (Num 0))
              (Num (Q_of_nat n))
       else Num 0 |}.

(** Generate comparison summary *)
Definition _generateSummary (differences : list Difference)
  (stats : Statistics) : string :=
  match differences with
  | [] => "Documents are identical"
  | _ =>
      let parts :=
        ((if (0 <? st_added stats)%nat
          then [(nat_to_string (st_added stats) ++ " field(s) added")%string]
          else []) ++
         (if (0 <? st_removed stats)%nat
          then [(nat_to_string (st_removed stats) ++ " field(s) removed")%string]
          else []) ++
         (if (0 <? st_modified stats)%Z
          then [(Z_to_string (st_modified stats) ++ " field(s) modified")%string]
          else []))%list in
      join ", " parts
  end.

Record DocumentRef : Type := mkDocumentRef {
  ref_id : value;
  ref_version : value;
  ref_effectiveFrom : option time
}.

Record Comparison : Type := mkComparison {
  comparisonId : string;
  timestamp : time;
  documentA : DocumentRef;
  documentB : DocumentRef;
  identical : bool;
  differences : list Difference;
  statistics : Statistics;
  summary : string
}.

(** Compare two documents *)
Definition compare (this : Comparator) (docA docB : Document) (env : Env)
  : Comparison :=
  let comparisonId := uuid env in
  let dataA := data_of docA in
  let dataB := data_of docB in
  let allFields :=
    dedup String.eqb (Object_keys dataA ++ Object_keys dataB)%list in
  let differences :=
    flat_map (fun field =>
      if existsb (String.eqb field) (ignoreFields this) then []
      else opt_list (_compareValues this (elem dataA field) (elem dataB field)
                       field)) allFields in
  (* Calculate overall change statistics *)
  let stats := _calculateStats differences (List.length allFields) in
  {| comparisonId := comparisonId;
     timestamp := now env;
     documentA := mkDocumentRef (d_id docA) (d_version docA) (d_effectiveFrom docA);
     documentB := mkDocumentRef (d_id docB) (d_version docB) (d_effectiveFrom docB);
     identical := (List.length differences =? 0)%nat;
     differences := differences;
     statistics := stats;
     summary := _generateSummary differences stats |}.

(** *** findConflicts *)

(** What [findConflicts] records per document under a field.  The object
    it pushes has the properties [documentId], [version], [value] and
    [effectiveFrom]; [_findOverlappingPeriods] also reads [effectiveTo]. *)
Record FieldValue : Type := mkFieldValue {
  fv_documentId : value;
  fv_version : value;
  fv_value : value;
  fv_effectiveFrom : option time;
  fv_effectiveTo : option time
}.

Record Overlap : Type := mkOverlap {
  ov_documents : value * value;
  ov_overlapStart : time;
  ov_overlapEnd : time
}.

(** [new Date('9999-12-31')] *)
Definition end_of_time : time := date 9999 12 31.

(** The inner loop of [_findOverlappingPeriods]: [a] against each later
    element. *)
Definition overlaps_with (a : FieldValue) (later : list FieldValue)
  : list Overlap :=
  flat_map (fun b =>
    match fv_effectiveFrom a, fv_effectiveFrom b with
    | Some aFrom, Some bFrom =>
        let aTo := time_or (fv_effectiveTo a) end_of_time in
        let bTo := time_or (fv_effectiveTo b) end_of_time in
        (* Check for overlap *)
        if (aFrom <=? bTo)%Z && (bFrom <=? aTo)%Z
        then [mkOverlap (fv_documentId a, fv_documentId b)
                (Z.max aFrom bFrom) (Z.min aTo bTo)]
        else []
    | _, _ => []   (* if (!a.effectiveFrom || !b.effectiveFrom) continue *)
    end) later.

(** Find overlapping effective periods *)
Fixpoint _findOverlappingPeriods (values : list FieldValue) : list Overlap :=
  match values with
  | [] => []
  | a :: later => (overlaps_with a later ++ _findOverlappingPeriods later)%list
  end.

(** Calculate conflict severity *)
Definition _calculateConflictSeverity (field : string)
  (values : list FieldValue) : Q :=
  (* Higher severity for more documents in conflict *)
  let docCount :=
    List.length (dedup same_value_zero (map fv_documentId values)) in
  Qmin (Q_of_nat docCount / 10) 1.

Definition dquote : string := String (ascii_of_nat 34) "".

(** Generate conflict recommendation *)
Definition _generateConflictRecommendation (field : string)
  (values : list FieldValue) : string :=
  let uniqueValues :=
    dedup opt_string_eqb (map (fun v => JSON_stringify (fv_value v)) values) in
  if (List.length uniqueValues =? 2)%nat
  then "Review and reconcile the two different values for " ++ dquote ++ field
       ++ dquote
  else "Multiple conflicting values found for " ++ dquote ++ field ++ dquote
       ++ ". Manual review required to determine authoritative value.".

Record Conflict : Type := mkConflict {
  c_field : string;
  c_type : string;
  c_severity : Q;
  c_documents : list FieldValue;
  c_overlappingPeriods : list Overlap;
  c_recommendation : string
}.

(** Generate conflict summary *)
Definition _generateConflictSummary (conflicts : list Conflict) : string :=
  match conflicts with
  | [] => "No conflicts detected"
  | _ =>
      let highSeverity :=
        List.length
          (filter (fun c => if Qlt_le_dec 0.7 (c_severity c) then true else false)
             conflicts) in
      "Found " ++ nat_to_string (List.length conflicts) ++ " conflict(s): "
      ++ nat_to_string highSeverity ++ " high severity"
  end.

Record ConflictReport : Type := mkConflictReport {
  hasConflicts : bool;
  conflictCount : nat;
  conflicts : list Conflict;
  cr_summary : string
}.

(** [fieldValues.get(field).push(v)], after creating the array when the
    field is new. *)
Fixpoint push_value (fieldValues : list (string * list FieldValue))
  (field : string) (v : FieldValue) : list (string * list FieldValue) :=
  match fieldValues with
  | [] => [(field, [v])]
  | (f, vs) :: rest =>
      if f =? field then (f, (vs ++ [v])%list) :: rest
      else (f, vs) :: push_value rest field v
  end.

(** Group by field values to find contradictions: the first loop of
    [findConflicts]. *)
Definition group_fields (fieldsToCheck : option (list string))
  (documents : list Document) : list (string * list FieldValue) :=
  fold_left (fun fieldValues doc =>
    let data := data_of doc in
    fold_left (fun fieldValues fv =>
      let '(field, value) := fv in
      let skipped :=
        match fieldsToCheck with
        | Some fs => negb (existsb (String.eqb field) fs)
        | None => false
        end in
      if skipped then fieldValues
      else push_value fieldValues field
             {| fv_documentId := d_id doc;
                fv_version := d_version doc;
                fv_value := value;
                fv_effectiveFrom := d_effectiveFrom doc;
                fv_effectiveTo := None (* no such property is written *) |})
      (Object_entries data) fieldValues) documents [].

(** Check for conflicting values: the second loop, for one field. *)
Definition conflict_of (field : string) (values : list FieldValue)
  : list Conflict :=
  let uniqueValues :=
    dedup opt_string_eqb (map (fun v => JSON_stringify (fv_value v)) values) in
  if (1 <? List.length uniqueValues)%nat then
    (* Check if conflicts are due to time periods (valid) or actual
       conflicts *)
    let overlapping := _findOverlappingPeriods values in
    if (0 <? List.length overlapping)%nat
    then [mkConflict field "value_conflict"
            (_calculateConflictSeverity field values) values overlapping
            (_generateConflictRecommendation field values)]
    else []
  else [].

(** Find conflicts between documents *)
Definition findConflicts (documents : list Document)
  (conflictFields : option (list string)) : ConflictReport :=
  let fieldsToCheck := conflictFields in
  let fieldValues := group_fields fieldsToCheck documents in
  let conflicts :=
    flat_map (fun fv => conflict_of (fst fv) (snd fv)) fieldValues in
  {| hasConflicts := (0 <? List.length conflicts)%nat;
     conflictCount := List.length conflicts;
     conflicts :=
       Array_sort (fun a b => (c_severity b - c_severity a)%Q) conflicts;
     cr_summary := _generateConflictSummary conflicts |}.

(** *** compareMultiple *)

(** The elements of [l] with their indices, counted from [i]. *)
Fixpoint numbered {A : Type} (i : nat) (l : list A) : list (nat * A) :=
  match l with
  | [] => []
  | x :: rest => (i, x) :: numbered (S i) rest
  end.

(** The pairs the two nested loops [for i ...; for j = i + 1 ...] visit,
    in that order. *)
Fixpoint pairs_from {A : Type} (i : nat) (l : list A)
  : list ((nat * A) * (nat * A)) :=
  match l with
  | [] => []
  | x :: rest =>
      (map (pair (i, x)) (numbered (S i) rest) ++ pairs_from (S i) rest)%list
  end.

Record PairComparison : Type := mkPairComparison {
  pc_pair : nat * nat;
  pc_comparison : Comparison
}.

(** [fieldDiffs] of [_findCommonDifferences] after one more difference:
    the field is entered with 0 when new, then counted. *)
Definition count_field (fieldDiffs : list (string * nat)) (f : string)
  : list (string * nat) :=
  let fieldDiffs :=
    match DocumentRegister.Map_get fieldDiffs f with
    | Some _ => fieldDiffs
    | None => DocumentRegister.Map_set fieldDiffs f 0
    end in
  DocumentRegister.Map_set fieldDiffs f
    (match DocumentRegister.Map_get fieldDiffs f with
     | Some n => n + 1
     | None => 0 (* not reached *)
     end).

(** Find common differences across comparisons *)
Definition _findCommonDifferences (comparisons : list PairComparison)
  : list string :=
  if (List.length comparisons <? 2)%nat then []
  else
    let fieldDiffs :=
      fold_left (fun fieldDiffs c =>
        fold_left (fun fieldDiffs diff => count_field fieldDiffs (field diff))
          (differences (pc_comparison c)) fieldDiffs) comparisons [] in
    (* Fields that differ in all comparisons *)
    map fst
      (filter (fun fc => (snd fc =? List.length comparisons)%nat) fieldDiffs).

Record MultiComparison : Type := mkMultiComparison {
  documentCount : nat;
  comparisonCount : nat;
  comparisons : list PairComparison;
  commonDifferences : list string;
  allIdentical : bool
}.

(** Compare multiple documents pairwise.  [envs k] is what the clock and
    the uuid generator answer during the k-th comparison. *)
Definition compareMultiple (this : Comparator) (documents : list Document)
  (envs : nat -> Env) : MultiComparison :=
  let comparisons :=
    map (fun kp : nat * ((nat * Document) * (nat * Document)) =>
           let '(k, ((i, a), (j, b))) := kp in
           mkPairComparison (i, j) (compare this a b (envs k)))
      (numbered 0 (pairs_from 0 documents)) in
  (* Find common differences across all pairs *)
  let commonDiffs := _findCommonDifferences comparisons in
  {| documentCount := List.length documents;
     comparisonCount := List.length comparisons;
     comparisons := comparisons;
     commonDifferences := commonDiffs;
     allIdentical := forallb (fun c => identical (pc_comparison c)) comparisons |}.

(** *** compareVersions *)

(** An element of the array [versions]: the current version carries no
    [effectiveFrom]. *)
Record Version : Type := mkVersion {
  v_version : Z;
  v_data : value;
  v_effectiveFrom : option time;
  v_effectiveTo : option time
}.

Record TimelineEntry : Type := mkTimelineEntry {
  fromVersion : Z;
  toVersion : Z;
  tl_effectiveFrom : option time;
  changes : list Difference;
  changeCount : nat;
  tl_statistics : Statistics
}.

(** The object literal [{ data: v.data, version: v.version }] handed to
    [compare]. *)
Definition version_document (v : Version) : Document :=
  mkDocument VUndef (VNum (v_version v)) None None (v_data v)
    [("data", v_data v); ("version", VNum (v_version v))].

(** The loop [for (let i = 1; i < versions.length; i++)]; [k] counts the
    comparisons made so far. *)
Fixpoint timeline_of (this : Comparator) (envs : nat -> Env) (k : nat)
  (prev : Version) (later : list Version) : list TimelineEntry :=
  match later with
  | [] => []
  | curr :: rest =>
      let comparison :=
        compare this (version_document prev) (version_document curr) (envs k) in
      mkTimelineEntry (v_version prev) (v_version curr) (v_effectiveFrom curr)
        (differences comparison) (List.length (differences comparison))
        (statistics comparison)
      :: timeline_of this envs (S k) curr rest
  end.

(** [fieldCounts.set(f, (fieldCounts.get(f) || 0) + 1)] *)
Definition count_change (fieldCounts : list (string * nat)) (f : string)
  : list (string * nat) :=
  DocumentRegister.Map_set fieldCounts f
    (match DocumentRegister.Map_get fieldCounts f with
     | Some n => n + 1
     | None => 1
     end).

(** Get most frequently changed fields *)
Definition _getMostChangedFields (timeline : list TimelineEntry)
  : list (string * nat) :=
  let fieldCounts :=
    fold_left (fun fieldCounts entry =>
      fold_left (fun fieldCounts change => count_change fieldCounts (field change))
        (changes entry) fieldCounts) timeline [] in
  firstn 10
    (Array_sort (fun a b => inject_Z (Z.of_nat (snd b) - Z.of_nat (snd a)))
       fieldCounts).

Record VersionReport : Type := mkVersionReport {
  vr_documentId : string;
  versionCount : nat;
  timeline : list TimelineEntry;
  totalChanges : nat;
  mostChangedFields : list (string * nat)
}.

(** Compare document versions over time, for an entry of the register
    ([documentWithHistory]). *)
Definition compareVersions (this : Comparator)
  (documentWithHistory : DocumentRegister.Entry) (envs : nat -> Env)
  : VersionReport :=
  let versions :=
    Array_sort (fun a b => inject_Z (v_version a - v_version b))
      (mkVersion (DocumentRegister.e_version documentWithHistory)
         (DocumentRegister.e_data documentWithHistory) None None
       :: map (fun h =>
                 mkVersion (DocumentRegister.h_version h)
                   (DocumentRegister.h_data h)
                   (Some (DocumentRegister.h_effectiveFrom h))
                   (DocumentRegister.h_effectiveTo h))
            (DocumentRegister.e_history documentWithHistory)) in
  let timeline :=
    match versions with
    | [] => []
    | first :: later => timeline_of this envs 0 first later
    end in
  {| vr_documentId := DocumentRegister.e_id documentWithHistory;
     versionCount := List.length versions;
     timeline := timeline;
     totalChanges := fold_left (fun sum t => sum + changeCount t) timeline 0;
     mostChangedFields := _getMostChangedFields timeline |}.

(** *** findOverlaps *)

(** Calculate similarity between documents *)
Definition _calculateSimilarity (docA docB : Document) : Q :=
  let dataA := data_of docA in
  let dataB := data_of docB in
  let keysA := Object_keys dataA in
  let keysB := Object_keys dataB in
  let allKeys := dedup String.eqb (keysA ++ keysB)%list in
  let matchingFields :=
    List.length
      (filter (fun key => _areEqual (elem dataA key) (elem dataB key)) allKeys) in
  if (0 <? List.length allKeys)%nat
  then (Q_of_nat matchingFields / Q_of_nat (List.length allKeys))%Q
  else 1%Q.

Inductive Overlapping : Type :=
| duplicate_group (groupKey : string) (fields : list string)
    (documents : list (value * value)) (count : nat)
| high_similarity (similarity : Q) (documentA documentB : value * value).

Record OverlapOptions : Type := mkOverlapOptions {
  groupByFields : option (list string);
  similarityThreshold : option Q
}.

Record OverlapReport : Type := mkOverlapReport {
  hasOverlaps : bool;
  overlapCount : nat;
  overlaps : list Overlapping;
  or_summary : string
}.

(** [groups.get(key).push(doc)], after creating the array when the key
    is new. *)
Fixpoint push_doc (groups : list (string * list Document)) (key : string)
  (doc : Document) : list (string * list Document) :=
  match groups with
  | [] => [(key, [doc])]
  | (k, docs) :: rest =>
      if k =? key then (k, (docs ++ [doc])%list) :: rest
      else (k, docs) :: push_doc rest key doc
  end.

(** [fieldGroups.map(f => data[f]).join('|')] *)
Definition group_key (fieldGroups : list string) (doc : Document) : string :=
  let data := data_of doc in
  join "|"
    (map (fun f => let v := elem data f in
                   if nullish v then "" else js_String v) fieldGroups).

(** [options.similarityThreshold || 0.9] *)
Definition threshold_of (options : OverlapOptions) : Q :=
  match similarityThreshold options with
  | Some q => if Qeq_bool q 0 then 0.9%Q else q
  | None => 0.9%Q
  end.

(** Detect overlaps between documents *)
Definition findOverlaps (documents : list Document) (options : OverlapOptions)
  : OverlapReport :=
  let fieldGroups :=
    match groupByFields options with Some l => l | None => [] end in
  (* Group documents by specified fields *)
  let grouped :=
    if (0 <? List.length fieldGroups)%nat then
      let groups :=
        fold_left (fun groups doc => push_doc groups (group_key fieldGroups doc) doc)
          documents [] in
      (* Find duplicates within groups *)
      flat_map (fun g : string * list Document =>
        let '(groupKey, groupDocs) := g in
        if (1 <? List.length groupDocs)%nat
        then [duplicate_group groupKey fieldGroups
                (map (fun d => (d_id d, d_version d)) groupDocs)
                (List.length groupDocs)]
        else []) groups
    else [] in
  (* Find content-similar documents *)
  let similar :=
    flat_map (fun p : (nat * Document) * (nat * Document) =>
      let '((_, a), (_, b)) := p in
      let similarity := _calculateSimilarity a b in
      if Qlt_le_dec (threshold_of options) similarity
      then [high_similarity similarity (d_id a, d_version a)
              (d_id b, d_version b)]
      else []) (pairs_from 0 documents) in
  let overlaps := (grouped ++ similar)%list in
  {| hasOverlaps := (0 <? List.length overlaps)%nat;
     overlapCount := List.length overlaps;
     overlaps := overlaps;
     or_summary :=
       "Found " ++ nat_to_string (List.length overlaps) ++ " overlaps across "
       ++ nat_to_string (List.length documents) ++ " documents" |}.

(** *** _convertToHtml *)

(** [s.replace(/c/g, by)] for a one-character pattern. *)
Fixpoint replace_char (c : ascii) (by_ : string) (s : string) : string :=
  match s with
  | EmptyString => EmptyString
  | String x rest =>
      if Ascii.eqb x c then by_ ++ replace_char c by_ rest
      else String x (replace_char c by_ rest)
  end.

Definition newline : string := String (ascii_of_nat 10) "".

(** Convert report to HTML *)
Definition _convertToHtml (lines : list string) : string :=
  "<pre>"
  ++ replace_char ">" "&gt;" (replace_char "<" "&lt;" (join newline lines))
  ++ "</pre>".

End DocumentComparator.

(* ================================================================== *)
(** ** CitationTracker (src/src/CitationTracker.js) *)
(* ================================================================== *)

(** Citation ids, extraction ids, field names and source ids are
    strings, where given; the text of a citation is a string, where
    given ([None] stands for undefined); a confidence is an exact
    rational. *)
Module CitationTracker.
Import JS.

(** A citation as handed to [add]: the properties [add] reads. *)
Record RawCitation : Type := mkRawCitation {
  r_id : option string;
  r_text : option string;
  r_sourceDocument : option string;
  r_documentId : option string;
  r_startOffset : value;
  r_endOffset : value;
  r_chunkIndex : value;
  r_pageNumber : value;
  r_sectionId : value;
  r_fieldName : option string;
  r_extractionId : option string;
  r_confidence : option Q;
  r_reasoning : value;
  r_metadata : option obj
}.

(** The object [normalizedCitation] that is stored. *)
Record Citation : Type := mkCitation {
  id : string;
  text : option string;
  sourceDocument : option string;
  startOffset : value;
  endOffset : value;
  chunkIndex : value;
  pageNumber : value;
  sectionId : value;
  fieldName : option string;
  extractionId : option string;
  confidence : Q;
  reasoning : value;
  createdAt : time;
  metadata : obj
}.

Record Source : Type := mkSource {
  s_id : string;
  s_name : value;
  s_type : value;
  s_path : value;
  s_hash : value;
  s_version : value;
  s_registeredAt : time;
  s_metadata : obj
}.

Record SourceInfo : Type := mkSourceInfo {
  si_name : value;
  si_type : value;
  si_path : value;
  si_hash : value;
  si_version : value;
  si_metadata : option obj
}.

Record Tracker : Type := mkTracker {
  citations : list (string * Citation);
  documentCitations : list (string * list string);  (* documentId -> citation[] *)
  fieldCitations : list (string * list string);     (* fieldName -> citation[] *)
  requireCitations : bool;
  minCitations : nat;
  validateSources : bool;
  sourceDocuments : list (string * Source)          (* sourceId -> document info *)
}.

Record Options : Type := mkOptions {
  o_requireCitations : option bool;
  o_minCitations : option nat;
  o_validateSources : option bool
}.

Definition constructor (options : Options) : Tracker :=
  {| citations := [];
     documentCitations := [];
     fieldCitations := [];
     requireCitations :=
       match o_requireCitations options with Some b => b | None => false end;
     minCitations :=
       match o_minCitations options with Some n => n | None => 0 end;
     validateSources :=
       match o_validateSources options with Some b => b | None => true end;
     sourceDocuments := [] |}.

(** [a || b] on optional strings. *)
Definition opt_or (a b : option string) : option string :=
  match a with
  | Some s => if s =? "" then b else Some s
  | None => b
  end.

(** Whether an optional string is truthy, and the string then. *)
Definition given (a : option string) : option string :=
  match a with
  | Some s => if s =? "" then None else Some s
  | None => None
  end.

(** [index.get(key).push(id)], after creating the array when the key is
    new. *)
Fixpoint push_id (index : list (string * list string)) (key id : string)
  : list (string * list string) :=
  match index with
  | [] => [(key, [id])]
  | (k, ids) :: rest =>
      if k =? key then (k, (ids ++ [id])%list) :: rest
      else (k, ids) :: push_id rest key id
  end.

Definition normalized (citation : RawCitation) (citationId : string)
  (now : time) : Citation :=
  {| id := citationId;
     text := r_text citation;
     sourceDocument := opt_or (r_sourceDocument citation) (r_documentId citation);
     startOffset := r_startOffset citation;
     endOffset := r_endOffset citation;
     chunkIndex := r_chunkIndex citation;
     pageNumber := r_pageNumber citation;
     sectionId := r_sectionId citation;
     fieldName := r_fieldName citation;
     extractionId := r_extractionId citation;
     confidence :=
       match r_confidence citation with Some q => q | None => 1%Q end;
     reasoning := r_reasoning citation;
     createdAt := now;
     metadata := match r_metadata citation with Some m => m | None => [] end |}.

(** Add a citation *)
Definition add (citation : RawCitation) (env : Env) (this : Tracker)
  : string * Tracker :=
  let citationId := str_or (r_id citation) (uuid env) in
  let normalizedCitation := normalized citation citationId (now env) in
  let citations' :=
    DocumentRegister.Map_set (citations this) citationId normalizedCitation in
  (* Index by document *)
  let documentCitations' :=
    match given (extractionId normalizedCitation) with
    | Some e => push_id (documentCitations this) e citationId
    | None => documentCitations this
    end in
  (* Index by field *)
  let fieldCitations' :=
    match given (fieldName normalizedCitation) with
    | Some f => push_id (fieldCitations this) f citationId
    | None => fieldCitations this
    end in
  (citationId,
   mkTracker citations' documentCitations' fieldCitations'
     (requireCitations this) (minCitations this) (validateSources this)
     (sourceDocuments this)).

(** Add multiple citations; [envs i] is what the clock and the uuid
    generator answer during the i-th add. *)
Fixpoint addBatch_from (i : nat) (cs : list RawCitation) (envs : nat -> Env)
  (this : Tracker) : list string * Tracker :=
  match cs with
  | [] => ([], this)
  | c :: rest =>
      let '(id, this1) := add c (envs i) this in
      let '(ids, this2) := addBatch_from (S i) rest envs this1 in
      (id :: ids, this2)
  end.

Definition addBatch (cs : list RawCitation) (envs : nat -> Env)
  (this : Tracker) : list string * Tracker :=
  addBatch_from 0 cs envs this.

(** Get a citation by ID *)
Definition get (citationId : string) (this : Tracker) : option Citation :=
  DocumentRegister.Map_get (citations this) citationId.

Definition ids_of (index : list (string * list string)) (key : string)
  : list string :=
  match DocumentRegister.Map_get index key with
  | Some ids => ids
  | None => []
  end.

(** Get all citations for a document/extraction; an element is [None]
    where [this.citations.get(id)] is undefined. *)
Definition getForDocument (extractionId : string) (this : Tracker)
  : list (option Citation) :=
  let citationIds := ids_of (documentCitations this) extractionId in
  map (fun id => get id this) citationIds.

(** Get all citations for a field *)
Definition getForField (fieldName : string) (this : Tracker)
  : list (option Citation) :=
  let citationIds := ids_of (fieldCitations this) fieldName in
  map (fun id => get id this) citationIds.

(** Register a source document *)
Definition registerSource (sourceId : string) (sourceInfo : SourceInfo)
  (env : Env) (this : Tracker) : string * Tracker :=
  (sourceId,
   mkTracker (citations this) (documentCitations this) (fieldCitations this)
     (requireCitations this) (minCitations this) (validateSources this)
     (DocumentRegister.Map_set (sourceDocuments this) sourceId
        {| s_id := sourceId;
           s_name := si_name sourceInfo;
           s_type := si_type sourceInfo;
           s_path := si_path sourceInfo;
           s_hash := si_hash sourceInfo;
           s_version := si_version sourceInfo;
           s_registeredAt := now env;
           s_metadata :=
             match si_metadata sourceInfo with Some m => m | None => [] end |})).

(** *** validate *)

Inductive error : Type :=
| TypeError            (* a property read on undefined *)
| NoValidCitations.    (* 'No valid citations found for chain' *)

Inductive Result (A : Type) : Type :=
| Returned (a : A)
| Thrown (e : error).
Arguments Returned {A} a.
Arguments Thrown {A} e.

Inductive Issue : Type :=
| INSUFFICIENT_CITATIONS (message : string) (required found : nat)
| MISSING_FIELD_CITATION (message : string) (field : string)
| UNREGISTERED_SOURCE (message : string) (citationId sourceDocument : string)
| LOW_CONFIDENCE_CITATIONS (message : string)
    (citations : list (string * option string * Q)).

Record ValidateOptions : Type := mkValidateOptions {
  vo_minCitations : option nat;
  vo_requiredFields : option (list string);
  vo_confidenceThreshold : option Q
}.

Record Validation : Type := mkValidation {
  valid : bool;
  citationCount : nat;
  errors : list Issue;
  warnings : list Issue;
  summary : string
}.

(** The elements of an array none of which is undefined. *)
Fixpoint all_defined {A : Type} (l : list (option A)) : option (list A) :=
  match l with
  | [] => Some []
  | None :: _ => None
  | Some x :: rest =>
      match all_defined rest with
      | Some xs => Some (x :: xs)
      | None => None
      end
  end.

(** [c.fieldName === field] *)
Definition is_field (field : string) (c : Citation) : bool :=
  match fieldName c with Some f => f =? field | None => false end.

(** Validate citations against requirements.  Were one of the citations
    undefined, the read of [c.confidence], at the latest, would throw. *)
Definition validate (extractionId : string) (options : ValidateOptions)
  (this : Tracker) : Result Validation :=
  match all_defined (getForDocument extractionId this) with
  | None => Thrown TypeError
  | Some citations =>
      (* Check minimum citations requirement *)
      let minRequired :=
        match vo_minCitations options with
        | Some n => n
        | None => minCitations this
        end in
      let errors1 :=
        if (List.length citations <? minRequired)%nat
        then [INSUFFICIENT_CITATIONS
                ("Found " ++ nat_to_string (List.length citations)
                 ++ " citations, minimum required is "
                 ++ nat_to_string minRequired)
                minRequired (List.length citations)]
        else [] in
      (* Check that required fields have citations *)
      let errors2 :=
        flat_map (fun field =>
          if (List.length (filter (is_field field) citations) =? 0)%nat
          then [MISSING_FIELD_CITATION
                  ("No citation found for required field: " ++ field) field]
          else [])
          (match vo_requiredFields options with Some l => l | None => [] end) in
      let errors := (errors1 ++ errors2)%list in
      (* Validate source document references *)
      let warnings1 :=
        if validateSources this then
          flat_map (fun citation =>
            match given (sourceDocument citation) with
            | Some s =>
                match DocumentRegister.Map_get (sourceDocuments this) s with
                | Some _ => []
                | None =>
                    [UNREGISTERED_SOURCE
                       ("Citation references unregistered source: " ++ s)
                       (id citation) s]
                end
            | None => []
            end) citations
        else [] in
      (* Check citation confidence *)
      let threshold :=
        match vo_confidenceThreshold options with
        | Some q => q
        | None => 0.7%Q
        end in
      let lowConfidenceCitations :=
        filter (fun c => if Qlt_le_dec (confidence c) threshold
                         then true else false) citations in
      let warnings2 :=
        if (0 <? List.length lowConfidenceCitations)%nat
        then [LOW_CONFIDENCE_CITATIONS
                (nat_to_string (List.length lowConfidenceCitations)
                 ++ " citation(s) have low confidence")
                (map (fun c => (id c, fieldName c, confidence c))
                   lowConfidenceCitations)]
        else [] in
      Returned
        {| valid := (List.length errors =? 0)%nat;
           citationCount := List.length citations;
           errors := errors;
           warnings := (warnings1 ++ warnings2)%list;
           summary :=
             if (List.length errors =? 0)%nat
             then "Valid: " ++ nat_to_string (List.length citations)
                  ++ " citation(s) verified"
             else "Invalid: " ++ nat_to_string (List.length errors)
                  ++ " error(s) found" |}
  end.

(** *** createChain *)

Record PathStep : Type := mkPathStep {
  p_id : string;
  p_text : option string;
  p_source : option string
}.

Record Chain : Type := mkChain {
  chainId : string;
  chain_citations : list string;
  depth : nat;
  rootCitation : Citation;
  leafCitation : Citation;
  path : list PathStep
}.

(** Create a citation chain (for nested references) *)
Definition createChain (citationIds : list string) (env : Env)
  (this : Tracker) : Result Chain :=
  let chainId := uuid env in
  let citations :=
    flat_map (fun id => match get id this with Some c => [c] | None => [] end)
      citationIds in
  match citations with
  | [] => Thrown NoValidCitations
  | first :: _ =>
      Returned
        {| chainId := chainId;
           chain_citations := citationIds;
           depth := List.length citations;
           rootCitation := first;
           leafCitation := last citations first;
           path :=
             map (fun c =>
                    mkPathStep (id c) (option_map (String.substring 0 100) (text c))
                      (sourceDocument c)) citations |}
  end.

(** *** export, import, clear, getStats *)

Record ExportOptions : Type := mkExportOptions {
  eo_extractionId : option string;
  eo_fieldName : option string
}.

(** [c.extractionId === wanted] for a string [wanted]. *)
Definition same (a : option string) (wanted : string) : bool :=
  match a with Some s => s =? wanted | None => false end.

(** Export all citations *)
Definition export (options : ExportOptions) (this : Tracker) : list Citation :=
  let citations := DocumentRegister.Map_values (citations this) in
  match given (eo_extractionId options) with
  | Some e => filter (fun c => same (extractionId c) e) citations
  | None =>
      match given (eo_fieldName options) with
      | Some f => filter (fun c => same (fieldName c) f) citations
      | None => citations
      end
  end.

(** An exported citation as [add] reads it on import: it has no
    [documentId]. *)
Definition raw_of (c : Citation) : RawCitation :=
  mkRawCitation (Some (id c)) (text c) (sourceDocument c) None (startOffset c)
    (endOffset c) (chunkIndex c) (pageNumber c) (sectionId c) (fieldName c)
    (extractionId c) (Some (confidence c)) (reasoning c) (Some (metadata c)).

(** Import citations from export: the number imported and the tracker
    afterwards. *)
Definition import (cs : list RawCitation) (envs : nat -> Env) (this : Tracker)
  : nat * Tracker :=
  let '(ids, this') := addBatch_from 0 cs envs this in
  (List.length ids, this').

(** Clear all citations *)
Definition clear (this : Tracker) : Tracker :=
  mkTracker [] [] [] (requireCitations this) (minCitations this)
    (validateSources this) [].

Record Stats : Type := mkStats {
  totalCitations : nat;
  documentsWithCitations : nat;
  fieldsWithCitations : nat;
  sourcesRegistered : nat;
  averageConfidence : Q;
  citationsPerDocument : Q
}.

Definition Q_of_nat (n : nat) : Q := inject_Z (Z.of_nat n).

(** Get statistics *)
Definition getStats (this : Tracker) : Stats :=
  let cs := DocumentRegister.Map_values (citations this) in
  {| totalCitations := List.length cs;
     documentsWithCitations := List.length (documentCitations this);
     fieldsWithCitations := List.length (fieldCitations this);
     sourcesRegistered := List.length (sourceDocuments this);
     averageConfidence :=
       if (0 <? List.length cs)%nat
       then (fold_left (fun sum c => sum + confidence c)%Q cs 0%Q
             / Q_of_nat (List.length cs))%Q
       else 0%Q;
     citationsPerDocument :=
       if (0 <? List.length (documentCitations this))%nat
       then (Q_of_nat (List.length cs)
             / Q_of_nat (List.length (documentCitations this)))%Q
       else 0%Q |}.

End CitationTracker.

(* ================================================================== *)
(** ** The embedding on small inputs *)
(* ================================================================== *)

Module Checks.
Import JS.

Example date_epoch : date 1970 1 1 = 0%Z.
Proof. reflexivity. Qed.

Example date_2024_01_01 : date 2024 1 1 = 1704067200000%Z.
Proof. reflexivity. Qed.

Example date_leap_day : (date 2024 3 1 - date 2024 2 29 = 86400000)%Z.
Proof. reflexivity. Qed.

Example date_end_of_time : date 9999 12 31 = 253402214400000%Z.
Proof. reflexivity. Qed.

Example stringify_record :
  JSON_stringify
    (VObj [("rate", VNum 5); ("tags", VArr [VStr "a"; VUndef; VNull]);
           ("gone", VUndef); ("ok", VBool true)])
  = Some (String.concat ""
            ["{"; quote "rate"; ":5,"; quote "tags"; ":["; quote "a";
             ",null,null],"; quote "ok"; ":true}"]).
Proof. reflexivity. Qed.

Example stringify_key_order :
  JSON_stringify (VObj [("a", VNum 1); ("b", VNum 2)])
  <> JSON_stringify (VObj [("b", VNum 2); ("a", VNum 1)]).
Proof. discriminate. Qed.

Example spread_keeps_places :
  spread [("a", VNum 1); ("b", VNum 2)] [("b", VNum 3); ("c", VNum 4)]
  = [("a", VNum 1); ("b", VNum 3); ("c", VNum 4)].
Proof. reflexivity. Qed.

Example nested_path :
  DocumentRegister._getNestedValue
    (VObj [("items", VArr [VObj [("sku", VStr "x1")]; VObj []])])
    "items.0.sku"
  = VStr "x1".
Proof. reflexivity. Qed.

Example sort_is_stable :
  Array_sort (fun a b => inject_Z (fst b - fst a))
    [(1%Z, "a"); (2%Z, "b"); (1%Z, "c"); (2%Z, "d")]
  = [(2%Z, "b"); (2%Z, "d"); (1%Z, "a"); (1%Z, "c")].
Proof. reflexivity. Qed.

Example nested_differences :
  let this := DocumentComparator.constructor
                (DocumentComparator.mkOptions None None None) in
  option_map
    (fun d => (DocumentComparator.type d,
               match DocumentComparator.details d with
               | DocumentComparator.ObjectDetails n changes =>
                   map (fun c => (DocumentComparator.field c,
                                  DocumentComparator.type c)) changes
               | _ => []
               end))
    (DocumentComparator._compareValues this
       (VObj [("a", VNum 1); ("b", VStr "x")])
       (VObj [("a", VNum 2); ("c", VNull)]) "terms")
  = Some (DocumentComparator.object_change,
          [("a", DocumentComparator.numeric_change);
           ("b", DocumentComparator.removed);
           ("c", DocumentComparator.added)]).
Proof. reflexivity. Qed.

End Checks.

(* ================================================================== *)
(** ** Properties of the register *)
(* ================================================================== *)

Module RegisterFacts.
Import JS DocumentRegister.
Local Open Scope list_scope.

(** *** The storage Map *)

Lemma Map_get_set_same {V : Type} (m : list (string * V)) k v :
  Map_get (Map_set m k v) k = Some v.
Proof.
  induction m as [|[k' v'] m IH]; simpl.
  - now rewrite String.eqb_refl.
  - destruct (k' =? k) eqn:E; simpl; rewrite E; auto.
Qed.

Lemma Map_get_set_other {V : Type} (m : list (string * V)) k k' v :
  k <> k' -> Map_get (Map_set m k v) k' = Map_get m k'.
Proof.
  intros Hne. induction m as [|[k0 v0] m IH]; simpl.
  - destruct (k =? k') eqn:E; auto. apply String.eqb_eq in E. contradiction.
  - destruct (k0 =? k) eqn:E; simpl.
    + apply String.eqb_eq in E. subst k0.
      destruct (k =? k') eqn:E'; auto.
      apply String.eqb_eq in E'. contradiction.
    + destruct (k0 =? k'); auto.
Qed.

Lemma Map_set_keys {V : Type} (m : list (string * V)) k v :
  Map_get m k <> None -> map fst (Map_set m k v) = map fst m.
Proof.
  induction m as [|[k' v'] m IH]; simpl; intros H.
  - contradiction.
  - destruct (k' =? k) eqn:E; simpl; auto. now rewrite IH.
Qed.

(** *** What the helpers leave alone *)

Definition same_config (a b : Register) : Prop :=
  name a = name b /\ schemaId a = schemaId b /\
  enableVersioning a = enableVersioning b /\
  enableAuditLog a = enableAuditLog b.

Lemma same_config_refl a : same_config a a.
Proof. repeat split. Qed.

Lemma same_config_trans a b c :
  same_config a b -> same_config b c -> same_config a c.
Proof.
  unfold same_config. intros (?&?&?&?) (?&?&?&?).
  repeat split; congruence.
Qed.

Lemma updateIndexes_frame entry this :
  exists this',
    _updateIndexes entry this = (Returned tt, this') /\
    storage this' = storage this /\ auditLog this' = auditLog this /\
    same_config this this'.
Proof.
  unfold _updateIndexes, modify. eexists. split; [reflexivity|].
  destruct (truthy (prop (e_metadata entry) "category"));
    destruct (tags_of (prop (e_metadata entry) "tags"));
    simpl; repeat split.
Qed.

Lemma logAudit_frame action id details env this :
  exists this',
    _logAudit action id details env this = (Returned tt, this') /\
    storage this' = storage this /\ indexes this' = indexes this /\
    same_config this this'.
Proof.
  unfold _logAudit, modify. eexists. split; [reflexivity|].
  simpl; repeat split.
Qed.

(** Without options, [get] answers with the stored entry, or null, and
    touches nothing. *)
Lemma get_no_options id this :
  get id no_options this =
    (Returned (option_map Current (Map_get (storage this) id)), this).
Proof.
  unfold get. destruct (Map_get (storage this) id); reflexivity.
Qed.

(** *** add and update, step by step *)

Lemma add_returns document options env this :
  nullish document = false ->
  let id := str_or (ao_id options) (uuid env) in
  exists this',
    add document options env this =
      (Returned (mkAddResult id 1 (now env) "created"), this') /\
    storage this' =
      Map_set (storage this) id (new_entry this id document options (now env)) /\
    same_config this this'.
Proof.
  intros Hdoc id. unfold add. rewrite Hdoc.
  unfold bind at 1. unfold read at 1.
  unfold bind at 1. unfold modify at 1.
  set (entry := new_entry this _ document options (now env)).
  set (this1 := set_storage this _).
  unfold bind at 1.
  destruct (updateIndexes_frame entry this1) as (this2 & E2 & S2 & A2 & C2).
  rewrite E2. unfold bind at 1.
  destruct (enableAuditLog this).
  - destruct (logAudit_frame "ADD" (str_or (ao_id options) (uuid env))
                (AddDetails 1 (e_effectiveFrom entry) (ao_userId options))
                env this2) as (this3 & E3 & S3 & I3 & C3).
    rewrite E3. unfold ret. eexists. split; [reflexivity|]. split.
    + now rewrite S3, S2.
    + eapply same_config_trans; [|exact C3].
      eapply same_config_trans; [|exact C2]. repeat split.
  - unfold ret. eexists. split; [reflexivity|]. split.
    + now rewrite S2.
    + eapply same_config_trans; [|exact C2]. repeat split.
Qed.

Lemma update_returns id document options env this existing :
  Map_get (storage this) id = Some existing ->
  nullish document = false ->
  exists this',
    update id document options env this =
      (Returned (mkUpdateResult id (e_version existing + 1) (e_version existing)
                   (now env) "updated"), this') /\
    storage this' =
      Map_set (storage this) id
        (updated_entry this existing document options (now env)) /\
    same_config this this'.
Proof.
  intros Hget Hdoc. unfold update. unfold bind at 1.
  rewrite get_no_options, Hget. cbn [option_map]. rewrite Hdoc.
  unfold bind at 1. unfold read at 1.
  unfold bind at 1. unfold modify at 1.
  set (updated := updated_entry this existing document options (now env)).
  set (this1 := set_storage this _).
  unfold bind at 1.
  destruct (updateIndexes_frame updated this1) as (this2 & E2 & S2 & A2 & C2).
  rewrite E2. unfold bind at 1.
  destruct (enableAuditLog this).
  - match goal with
    | |- context [_logAudit ?a ?i ?d ?e this2] =>
        destruct (logAudit_frame a i d e this2) as (this3 & E3 & S3 & I3 & C3)
    end.
    rewrite E3. unfold ret. eexists. split; [reflexivity|]. split.
    + now rewrite S3, S2.
    + eapply same_config_trans; [|exact C3].
      eapply same_config_trans; [|exact C2]. repeat split.
  - unfold ret. eexists. split; [reflexivity|]. split.
    + now rewrite S2.
    + eapply same_config_trans; [|exact C2]. repeat split.
Qed.

(** *** Version numbering *)

(** The updates of [us], in turn, on one id. *)
Fixpoint update_all (id : string) (us : list (value * UpdateOptions * Env))
  : M (list UpdateResult) :=
  match us with
  | [] => ret []
  | (document, options, env) :: rest =>
      r <- update id document options env ;;
      rs <- update_all id rest ;;
      ret (r :: rs)
  end.

(** One add, then updates on the id it returned. *)
Definition add_then_update (document : value) (options : AddOptions)
  (env : Env) (us : list (value * UpdateOptions * Env))
  : M (AddResult * list UpdateResult) :=
  a <- add document options env ;;
  rs <- update_all (ar_id a) us ;;
  ret (a, rs).

Definition is_document (u : value * UpdateOptions * Env) : Prop :=
  nullish (fst (fst u)) = false.

(** The integers [v, v+1, ..., v+n-1]. *)
Definition from (v : Z) (n : nat) : list Z :=
  map (fun i => (v + Z.of_nat i)%Z) (seq 0 n).

Lemma from_S v n : from v (S n) = v :: from (v + 1) n.
Proof.
  unfold from. simpl. rewrite Z.add_0_r. f_equal.
  rewrite <- seq_shift, map_map. apply map_ext. intros i. lia.
Qed.

Lemma length_from v n : List.length (from v n) = n.
Proof. unfold from. now rewrite length_map, length_seq. Qed.

Lemma Forall_prefix {A : Type} (P : A -> Prop) (l : list A) :
  Forall P l -> forall k, Forall P (firstn k l).
Proof.
  induction 1 as [|x l Hx Hl IH]; intros [|k]; simpl; auto.
Qed.

Lemma update_all_versions us : forall this id e,
  enableVersioning this = true ->
  Map_get (storage this) id = Some e ->
  Forall is_document us ->
  exists rs this' e' hs,
    update_all id us this = (Returned rs, this') /\
    Map_get (storage this') id = Some e' /\
    e_version e' = (e_version e + Z.of_nat (List.length us))%Z /\
    e_history e' = (e_history e ++ hs)%list /\
    map h_version hs = from (e_version e) (List.length us) /\
    map ur_version rs = from (e_version e + 1) (List.length us).
Proof.
  induction us as [|[[document options] env] us IH]; intros this id e Hv Hget Hdocs.
  - exists [], this, e, []. simpl. unfold ret.
    rewrite app_nil_r, Z.add_0_r. repeat split; auto.
  - inversion Hdocs as [|u us' Hdoc Hrest]; subst. unfold is_document in Hdoc.
    simpl in Hdoc.
    destruct (update_returns id document options env this e Hget Hdoc)
      as (this1 & E1 & S1 & C1).
    assert (Hget1 : Map_get (storage this1) id =
                    Some (updated_entry this e document options (now env)))
      by (rewrite S1; apply Map_get_set_same).
    assert (Hv1 : enableVersioning this1 = true)
      by (destruct C1 as (_ & _ & Hc & _); congruence).
    destruct (IH this1 id _ Hv1 Hget1 Hrest)
      as (rs & this' & e' & hs & E & G & V & H & Hh & Hr).
    exists (mkUpdateResult id (e_version e + 1) (e_version e) (now env) "updated"
              :: rs), this', e', (history_entry e (now env) :: hs).
    simpl update_all. unfold bind at 1. rewrite E1.
    unfold bind at 1. rewrite E. unfold ret.
    simpl in V, H, Hh, Hr. rewrite Hv in H.
    repeat split; auto.
    + rewrite V. simpl List.length. lia.
    + rewrite H, <- app_assoc. reflexivity.
    + simpl List.length. rewrite from_S. simpl. now rewrite Hh.
    + simpl List.length. rewrite from_S. simpl. now rewrite Hr.
Qed.

(** C3.  One add followed by updates on the id it returned, on a register
    that keeps versions (the default): after the k-th update the entry
    is at version k+1, each update having returned the next integer;
    the history holds the versions 1..k in order, so that history and
    current entry together hold exactly 1..k+1; and the history is
    version - 1 records long. *)
Theorem versions_count_up (this : Register) (document : value)
  (options : AddOptions) (env : Env) (us : list (value * UpdateOptions * Env))
  (k : nat) :
  enableVersioning this = true ->
  nullish document = false ->
  Forall is_document us ->
  (k <= List.length us)%nat ->
  exists a rs this' entry,
    add_then_update document options env (firstn k us) this
      = (Returned (a, rs), this') /\
    ar_version a = 1%Z /\
    map ur_version rs = from 2 k /\
    Map_get (storage this') (ar_id a) = Some entry /\
    e_version entry = (Z.of_nat k + 1)%Z /\
    (map h_version (e_history entry) ++ [e_version entry])%list
      = from 1 (S k) /\
    Z.of_nat (List.length (e_history entry)) = (e_version entry - 1)%Z.
Proof.
  intros Hv Hdoc Hdocs Hk.
  destruct (add_returns document options env this Hdoc) as (this1 & E1 & S1 & C1).
  set (id := str_or (ao_id options) (uuid env)) in *.
  assert (Hget1 : Map_get (storage this1) id =
                  Some (new_entry this id document options (now env)))
    by (rewrite S1; apply Map_get_set_same).
  assert (Hv1 : enableVersioning this1 = true)
    by (destruct C1 as (_ & _ & Hc & _); congruence).
  assert (Hpre : Forall is_document (firstn k us)) by now apply Forall_prefix.
  destruct (update_all_versions (firstn k us) this1 id _ Hv1 Hget1 Hpre)
    as (rs & this' & e' & hs & E & G & V & H & Hh & Hr).
  rewrite length_firstn, Nat.min_l in V, Hh, Hr by exact Hk.
  cbn [e_version e_history new_entry app] in V, H, Hh, Hr.
  exists (mkAddResult id 1 (now env) "created"), rs, this', e'.
  unfold add_then_update. unfold bind at 1. rewrite E1.
  unfold bind at 1. simpl ar_id. rewrite E. unfold ret.
  repeat split; auto.
  - rewrite V. lia.
  - rewrite H, Hh, V. unfold from. rewrite seq_S, map_app.
    cbn [map Nat.add]. reflexivity.
  - rewrite H, <- (length_map h_version), Hh, length_from, V. lia.
Qed.

(** A run of [versions_count_up]: a register built with the default
    options, one add and two updates. *)
Lemma versions_count_up_witness :
  exists a rs this' entry,
    add_then_update (VObj [("amount", VNum 100)]) no_add_options
      (mkEnv 10%Z "id-1")
      (firstn 2 [(VObj [("amount", VNum 150)], no_update_options,
                  mkEnv 20%Z "id-2");
                 (VObj [("amount", VNum 175)], no_update_options,
                  mkEnv 30%Z "id-3")])
      (constructor default_options)
      = (Returned (a, rs), this') /\
    ar_version a = 1%Z /\
    map ur_version rs = from 2 2 /\
    Map_get (storage this') (ar_id a) = Some entry /\
    e_version entry = (Z.of_nat 2 + 1)%Z /\
    (map h_version (e_history entry) ++ [e_version entry])%list
      = from 1 3 /\
    Z.of_nat (List.length (e_history entry)) = (e_version entry - 1)%Z.
Proof.
  apply versions_count_up.
  - reflexivity.
  - reflexivity.
  - repeat constructor.
  - simpl; lia.
Defined.

(** *** Unknown ids and versions *)

(** C7 fails as stated: [get] on an id that is not stored does not throw,
    it returns null. *)
Lemma get_unknown_id_returns_null :
  let this := constructor default_options in
  Map_get (storage this) "doc-404" = None /\
  get "doc-404" no_options this = (Returned None, this) /\
  ~ (exists e this', get "doc-404" no_options this = (Thrown e, this')).
Proof.
  repeat split. intros (e & this' & H). discriminate H.
Qed.

(** C7, amended.  For an id that is not stored, [get] returns null
    whatever the options, and [update] and [archive] throw "Document not
    found", each leaving the register (entries, indexes, audit log) as it
    was.  For a stored id, asking [get] for a version other than 0 that is
    neither the current one nor in the history throws "Version not
    found". *)
Theorem unknown_id_or_version (this : Register) (id : string) :
  (Map_get (storage this) id = None ->
     (forall options, get id options this = (Returned None, this)) /\
     (forall document options env,
        update id document options env this
          = (Thrown (DocumentNotFound id), this)) /\
     (forall options env,
        archive id options env this = (Thrown (DocumentNotFound id), this)))
  /\
  (forall entry v asOf,
     Map_get (storage this) id = Some entry ->
     v <> 0%Z -> v <> e_version entry ->
     (forall h, In h (e_history entry) -> h_version h <> v) ->
     get id (mkGetOptions (Some v) asOf) this
       = (Thrown (VersionNotFound v id), this)).
Proof.
  split.
  - intros Hnone. repeat split.
    + intros options. unfold get. now rewrite Hnone.
    + intros. unfold update, bind. rewrite get_no_options, Hnone. reflexivity.
    + intros. unfold archive, bind. rewrite get_no_options, Hnone. reflexivity.
  - intros entry v asOf Hget Hv0 Hcur Hhist. unfold get. rewrite Hget.
    cbn [go_version].
    apply Z.eqb_neq in Hv0, Hcur. rewrite Hv0, Hcur. cbn [orb].
    destruct (find (fun h => (h_version h =? v)%Z) (e_history entry)) eqn:F.
    + apply find_some in F. destruct F as [Hin Heq].
      apply Z.eqb_eq in Heq. now apply Hhist in Hin.
    + reflexivity.
Qed.

(** [unknown_id_or_version] on a register holding one entry at version 1. *)
Lemma unknown_id_or_version_witness :
  let this := snd (add (VObj [("amount", VNum 100)])
                     (mkAddOptions (Some "doc-1") None None None VUndef VUndef
                        VUndef None VUndef)
                     (mkEnv 10%Z "uuid-1") (constructor default_options)) in
  ((forall options, get "doc-404" options this = (Returned None, this)) /\
   (forall document options env,
      update "doc-404" document options env this
        = (Thrown (DocumentNotFound "doc-404"), this)) /\
   (forall options env,
      archive "doc-404" options env this
        = (Thrown (DocumentNotFound "doc-404"), this))) /\
  get "doc-1" (mkGetOptions (Some 7%Z) None) this
    = (Thrown (VersionNotFound 7 "doc-1"), this).
Proof.
  intros this. split.
  - apply (proj1 (unknown_id_or_version this "doc-404")). reflexivity.
  - eapply (proj2 (unknown_id_or_version this "doc-1")).
    + reflexivity.
    + lia.
    + simpl. lia.
    + simpl. intros h [].
Defined.

(** *** add under an id that is already stored *)

(** The entry stored under [id] is a first version: version 1, no
    history. *)
Definition first_version (this : Register) (id : string) : Prop :=
  exists entry,
    Map_get (storage this) id = Some entry /\
    e_version entry = 1%Z /\ e_history entry = [].

Lemma str_or_some id fallback : id <> "" -> str_or (Some id) fallback = id.
Proof. intros H. simpl. apply String.eqb_neq in H. now rewrite H. Qed.

Lemma add_makes_first_version document options env this this' r :
  add document options env this = (Returned r, this') ->
  first_version this' (ar_id r) /\
  (forall k, first_version this k -> first_version this' k).
Proof.
  intros E. destruct (nullish document) eqn:Hdoc.
  - unfold add in E. rewrite Hdoc in E. discriminate E.
  - destruct (add_returns document options env this Hdoc) as (this1 & E1 & S & _).
    rewrite E1 in E. inversion E; subst r this1. simpl ar_id. split.
    + eexists. rewrite S, Map_get_set_same. repeat split.
    + intros k (e & G & V & H).
      destruct (String.eqb_spec (str_or (ao_id options) (uuid env)) k) as [Heq|Hne].
      * eexists. rewrite S, Heq, Map_get_set_same. repeat split.
      * exists e. rewrite S, Map_get_set_other by exact Hne. auto.
Qed.

Lemma import_document_is_object item :
  nullish (or_else (ii_data item) (VObj (ii_self item))) = false.
Proof.
  unfold or_else. destruct (ii_data item) as [| |[]|z| |n|s|l|o];
    try reflexivity.
  - simpl. destruct (z =? 0)%Z; reflexivity.
  - simpl. destruct (s =? ""); reflexivity.
Qed.

(** Without [skipExisting], the loop of [import] adds every element and
    records no error. *)
Lemma import_loop_overwrites envs items : forall i results this,
  exists this',
    import_loop false envs i results items this
      = (Returned (mkImportResults (imported results + List.length items)
                     (skipped results) (errors results)), this') /\
    (forall k, first_version this k -> first_version this' k) /\
    (forall item id,
       In item items -> ii_id item = Some id -> id <> "" ->
       first_version this' id).
Proof.
  induction items as [|item items IH]; intros i results this.
  - exists this. simpl. unfold ret. rewrite Nat.add_0_r.
    destruct results; simpl. repeat split; auto. intros ? ? [].
  - simpl import_loop. unfold bind at 1. unfold import_one.
    unfold bind at 1. unfold ret at 1. unfold bind at 1.
    set (document := or_else (ii_data item) (VObj (ii_self item))).
    set (options := import_options item).
    destruct (add_returns document options (envs i) this
                (import_document_is_object item)) as (this1 & E1 & S1 & C1).
    rewrite E1. unfold ret at 1.
    destruct (add_makes_first_version _ _ _ _ _ _ E1) as [Hnew Hkeep].
    destruct (IH (S i) (mkImportResults (S (imported results))
                          (skipped results) (errors results)) this1)
      as (this' & E & Hk & Hin).
    exists this'. rewrite E. cbn [imported skipped errors List.length].
    split; [do 3 f_equal; lia|]. split.
    + intros k Hf. apply Hk, Hkeep, Hf.
    + intros it id [<-|Hi] Hid Hne.
      * apply Hk. cbn [ar_id] in Hnew. subst options.
        cbn [import_options ao_id] in Hnew.
        rewrite Hid, str_or_some in Hnew by exact Hne. exact Hnew.
      * eapply Hin; eauto.
Qed.

(** [add] performs no existence check.  Under the id of a stored entry it
    returns normally and leaves, in the place of that entry, a fresh
    version 1 with an empty history, the previous versions gone.  So
    [import] without [skipExisting], handed an object whose [entries]
    property is the sequence, adds every element, records no error, and
    every id it was given, stored before or not, ends at a version 1 with
    an empty history. *)
Theorem add_overwrites_stored_entry (this : Register) (id : string)
  (old : Entry) :
  Map_get (storage this) id = Some old -> id <> "" ->
  (forall document options env,
     ao_id options = Some id -> nullish document = false ->
     exists this' entry,
       add document options env this
         = (Returned (mkAddResult id 1 (now env) "created"), this') /\
       Map_get (storage this') id = Some entry /\
       entry = new_entry this id document options (now env) /\
       e_version entry = 1%Z /\ e_history entry = [] /\
       map fst (storage this') = map fst (storage this))
  /\
  (forall items envs,
     (exists item, In item items /\ ii_id item = Some id) ->
     exists this' entry,
       import (Payload items) false envs this
         = (Returned (mkImportResults (List.length items) 0 []), this') /\
       Map_get (storage this') id = Some entry /\
       e_version entry = 1%Z /\ e_history entry = []).
Proof.
  intros Hold Hne. split.
  - intros document options env Hid Hdoc.
    destruct (add_returns document options env this Hdoc) as (this' & E & S & _).
    rewrite Hid, str_or_some in E, S by exact Hne.
    exists this', (new_entry this id document options (now env)).
    repeat split; auto.
    + rewrite S. apply Map_get_set_same.
    + rewrite S. apply Map_set_keys. congruence.
  - intros items envs (item & Hin & Hid). unfold import, entries_of.
    unfold bind at 1. unfold ret at 1.
    destruct (import_loop_overwrites envs items 0 (mkImportResults 0 0 []) this)
      as (this' & E & _ & Hall).
    destruct (Hall item id Hin Hid Hne) as (entry & G & V & H).
    exists this', entry. auto.
Qed.

(** [add_overwrites_stored_entry] on an entry that has reached version 2:
    a second add, and an import of an element, under its id. *)
Lemma add_overwrites_stored_entry_witness :
  let doc := VObj [("amount", VNum 100)] in
  let options := mkAddOptions (Some "doc-1") None None None VUndef VUndef
                   VUndef None VUndef in
  let this0 := snd (add doc options (mkEnv 10%Z "uuid-1")
                      (constructor default_options)) in
  let this := snd (update "doc-1" (VObj [("amount", VNum 150)])
                     no_update_options (mkEnv 20%Z "uuid-2") this0) in
  let item := mkImportItem (Some "doc-1") doc None None None None [] in
  (exists this' entry,
     add doc options (mkEnv 30%Z "uuid-3") this
       = (Returned (mkAddResult "doc-1" 1 30%Z "created"), this') /\
     Map_get (storage this') "doc-1" = Some entry /\
     entry = new_entry this "doc-1" doc options 30%Z /\
     e_version entry = 1%Z /\ e_history entry = [] /\
     map fst (storage this') = map fst (storage this)) /\
  (exists this' entry,
     import (Payload [item]) false (fun _ => mkEnv 30%Z "uuid-3") this
       = (Returned (mkImportResults 1 0 []), this') /\
     Map_get (storage this') "doc-1" = Some entry /\
     e_version entry = 1%Z /\ e_history entry = []).
Proof.
  intros doc options this0 this item.
  assert (Hold : exists old, Map_get (storage this) "doc-1" = Some old)
    by (eexists; reflexivity).
  destruct Hold as [old Hold].
  assert (Hne : "doc-1" <> "") by discriminate.
  split.
  - apply (proj1 (add_overwrites_stored_entry this "doc-1" old Hold Hne)
             doc options (mkEnv 30%Z "uuid-3")); reflexivity.
  - apply (proj2 (add_overwrites_stored_entry this "doc-1" old Hold Hne)
             [item] (fun _ => mkEnv 30%Z "uuid-3")).
    exists item. split; [now left | reflexivity].
Defined.

(** Handed the bare sequence, [import] throws before the first element:
    nothing is added, skipped or recorded, and the register is as it
    was. *)
Lemma import_sequence_throws (items : list ImportItem) (skipExisting : bool)
  (envs : nat -> Env) (this : Register) :
  import (Sequence items) skipExisting envs this = (Thrown TypeError, this).
Proof. reflexivity. Qed.

(** C10.  [import] of a bare sequence, without [skipExisting], under the
    id of a stored entry.  The stored "doc-1" has reached version 2.
    Handed the one-element array, [import] throws a TypeError before it
    reaches the element: the stored entry is still the version 2 it was,
    its history kept, and nothing has been overwritten.  Handed the same
    element as [{entries: [...]}], it returns with one element imported,
    no error, and a fresh version 1 with an empty history in the place
    of the stored entry. *)
Theorem import_of_a_bare_sequence_throws :
  let doc := VObj [("amount", VNum 100)] in
  let options := mkAddOptions (Some "doc-1") None None None VUndef VUndef
                   VUndef None VUndef in
  let this0 := snd (add doc options (mkEnv 10%Z "uuid-1")
                      (constructor default_options)) in
  let this := snd (update "doc-1" (VObj [("amount", VNum 150)])
                     no_update_options (mkEnv 20%Z "uuid-2") this0) in
  let item := mkImportItem (Some "doc-1") doc None None None None
                [("id", VStr "doc-1"); ("data", doc)] in
  let envs := fun _ : nat => mkEnv 30%Z "uuid-3" in
  option_map e_version (Map_get (storage this) "doc-1") = Some 2%Z /\
  import (Sequence [item]) false envs this = (Thrown TypeError, this) /\
  fst (import (Payload [item]) false envs this)
    = Returned (mkImportResults 1 0 []) /\
  option_map (fun e => (e_version e, e_history e))
    (Map_get (storage (snd (import (Payload [item]) false envs this))) "doc-1")
    = Some (1%Z, []).
Proof. repeat split. Qed.

(** *** As-of lookups and the stored history *)

(** A register whose entry "doc-1" was added on 2024-01-10 as effective
    from 2024-01-01, updated on 2024-03-10 as effective from 2024-02-01,
    and updated on 2024-05-10 as effective from 2024-12-01.  Version 1 was
    in force over [2024-01-01, 2024-03-10), version 2 over
    [2024-02-01, 2024-05-10): both contain 2024-02-15, version 2 was
    appended last, and the current version is not yet in force then. *)
Definition twice_updated : Register :=
  let this0 := constructor default_options in
  let this1 :=
    snd (add (VObj [("amount", VNum 100)])
           (mkAddOptions (Some "doc-1") (Some (date 2024 1 1)) None None VUndef
              VUndef VUndef None VUndef)
           (mkEnv (date 2024 1 10) "uuid-1") this0) in
  let this2 :=
    snd (update "doc-1" (VObj [("amount", VNum 150)])
           (mkUpdateOptions (Some (date 2024 2 1)) None None VUndef VUndef)
           (mkEnv (date 2024 3 10) "uuid-2") this1) in
  snd (update "doc-1" (VObj [("amount", VNum 175)])
         (mkUpdateOptions (Some (date 2024 12 1)) None None VUndef VUndef)
         (mkEnv (date 2024 5 10) "uuid-3") this2).

Definition stored_history (this : Register) (id : string)
  : list (Z * time * option time) :=
  match Map_get (storage this) id with
  | Some entry =>
      map (fun h => (h_version h, h_effectiveFrom h, h_effectiveTo h))
        (e_history entry)
  | None => []
  end.

Definition stored_history_records (this : Register) (id : string)
  : list HistoryRecord :=
  match Map_get (storage this) id with
  | Some entry => e_history entry
  | None => []
  end.

Definition answer_version (r : Outcome (option GetResult) * Register)
  : option Z :=
  match fst r with
  | Returned (Some (Historic view)) => Some (hv_version view)
  | Returned (Some (Current entry)) => Some (e_version entry)
  | _ => None
  end.

(** C2 breaks on the default storage.  The first lookup as of 2024-02-15
    answers with version 2, the most recently appended record in force
    then, and leaves the stored history reversed; the same lookup asked
    again walks the history from the oldest record and answers with
    version 1. *)
Theorem get_asOf_second_lookup_scans_oldest_first :
  let asOf := mkGetOptions None (Some (date 2024 2 15)) in
  let first := get "doc-1" asOf twice_updated in
  let second := get "doc-1" asOf (snd first) in
  let v1 := (1%Z, date 2024 1 1, Some (date 2024 3 10)) in
  let v2 := (2%Z, date 2024 2 1, Some (date 2024 5 10)) in
  stored_history twice_updated "doc-1" = [v1; v2] /\
  answer_version first = Some 2%Z /\
  stored_history (snd first) "doc-1" = [v2; v1] /\
  answer_version second = Some 1%Z /\
  stored_history (snd second) "doc-1" = [v1; v2].
Proof. repeat split. Qed.

(** What an as-of lookup does to the entry it misses on: the answer is
    the first match in the reversed stored history, and the stored history
    stays reversed. *)
Lemma get_asOf_reverses_history this id entry asOf :
  Map_get (storage this) id = Some entry ->
  effective_at (e_effectiveFrom entry) (e_effectiveTo entry) asOf = false ->
  exists this',
    get id (mkGetOptions None (Some asOf)) this
      = (Returned
           (option_map (fun h => Historic (historic_view entry h))
              (find (fun h => effective_at (h_effectiveFrom h)
                                (h_effectiveTo h) asOf)
                 (rev (e_history entry)))), this') /\
    Map_get (storage this') id
      = Some (with_history entry (rev (e_history entry))).
Proof.
  intros Hget Hcur. unfold get. rewrite Hget. cbn [go_version go_asOf].
  rewrite Hcur.
  destruct (find (fun h => effective_at (h_effectiveFrom h) (h_effectiveTo h)
                             asOf) (rev (e_history entry)));
    eexists; (split; [reflexivity | apply Map_get_set_same]).
Qed.

(** *** What the operations do to a stored history *)

Lemma archive_returns id options env this entry :
  Map_get (storage this) id = Some entry ->
  exists this',
    archive id options env this
      = (Returned (mkArchiveResult id "archived" (now env)), this') /\
    storage this' =
      Map_set (storage this) id
        (archived_entry entry (now env) (arc_reason options)) /\
    same_config this this'.
Proof.
  intros Hget. unfold archive. unfold bind at 1.
  rewrite get_no_options, Hget. cbn [option_map].
  unfold bind at 1. unfold modify at 1.
  set (this1 := set_storage this _).
  unfold bind at 1. unfold read at 1. unfold bind at 1.
  destruct (enableAuditLog this1).
  - match goal with
    | |- context [_logAudit ?a ?i ?d ?e this1] =>
        destruct (logAudit_frame a i d e this1) as (this2 & E2 & S2 & I2 & C2)
    end.
    rewrite E2. unfold ret. eexists. split; [reflexivity|]. split.
    + now rewrite S2.
    + eapply same_config_trans; [|exact C2]. repeat split.
  - unfold ret. eexists. split; [reflexivity|]. repeat split.
Qed.

(** Whether [get] goes on to walk the history for an instant: the id is
    stored, no other version is asked for, and the current version is not
    in force at [asOf]. *)
Definition scans_history (id : string) (options : GetOptions)
  (this : Register) : bool :=
  match Map_get (storage this) id, go_asOf options with
  | Some entry, Some asOfDate =>
      match go_version options with
      | Some v => (v =? 0)%Z || (v =? e_version entry)%Z
      | None => true
      end &&
      negb (effective_at (e_effectiveFrom entry) (e_effectiveTo entry) asOfDate)
  | _, _ => false
  end.

(** A lookup that does not walk the history leaves the register as it
    was. *)
Lemma get_is_pure_unless_it_scans id options this :
  scans_history id options this = false -> snd (get id options this) = this.
Proof.
  unfold scans_history, get.
  destruct (Map_get (storage this) id) as [entry|]; [|reflexivity].
  destruct (go_version options) as [v|].
  - destruct ((v =? 0)%Z || (v =? e_version entry)%Z).
    + destruct (go_asOf options) as [asOfDate|]; [|reflexivity].
      cbn [andb]. destruct (effective_at _ _ asOfDate); [reflexivity|discriminate].
    + intros _. destruct (find _ (e_history entry)); reflexivity.
  - destruct (go_asOf options) as [asOfDate|]; [|reflexivity].
    cbn [andb]. destruct (effective_at _ _ asOfDate); [reflexivity|discriminate].
Qed.

Section Operations.

Variable js_lt : value -> value -> bool.
Variable RegExp : value -> value -> option (string -> bool).

Lemma list_is_pure options this : snd (list_ js_lt options this) = this.
Proof. reflexivity. Qed.

Lemma search_is_pure query limit this :
  snd (search js_lt RegExp query limit this) = this.
Proof.
  unfold search, bind, read.
  destruct (collect _ _ _ _ _); reflexivity.
Qed.

Lemma export_is_pure options audit env this :
  snd (export js_lt options audit env this) = this.
Proof. reflexivity. Qed.

(** The operations of the register that the statement below ranges
    over. *)
Inductive Operation : Type :=
| Add (document : value) (options : AddOptions) (env : Env)
| Get (id : string) (options : GetOptions)
| List_ (options : ListOptions)
| Search (query : obj) (limit : option nat)
| Archive (id : string) (options : ArchiveOptions) (env : Env)
| Update (id : string) (document : value) (options : UpdateOptions) (env : Env)
| Export (options : ListOptions) (includeAuditLog : bool) (env : Env).

(** The register once the operation has returned or thrown. *)
Definition after (op : Operation) (this : Register) : Register :=
  match op with
  | Add document options env => snd (add document options env this)
  | Get id options => snd (get id options this)
  | List_ options => snd (list_ js_lt options this)
  | Search query limit => snd (search js_lt RegExp query limit this)
  | Archive id options env => snd (archive id options env this)
  | Update id document options env => snd (update id document options env this)
  | Export options audit env => snd (export js_lt options audit env this)
  end.

(** An [add] whose id is not stored yet. *)
Definition adds_new_id (op : Operation) (this : Register) : Prop :=
  match op with
  | Add _ options env =>
      Map_get (storage this) (str_or (ao_id options) (uuid env)) = None
  | _ => True
  end.

(** A [get] that does not walk the history. *)
Definition answers_without_scan (op : Operation) (this : Register) : Prop :=
  match op with
  | Get id options => scans_history id options this = false
  | _ => True
  end.

(** The history the operation is to leave under [id], given the entry
    stored there before. *)
Definition expected_history (op : Operation) (id : string) (entry : Entry)
  : list HistoryRecord :=
  match op with
  | Update id' document _ env =>
      if (id' =? id) && negb (nullish document)
      then (e_history entry ++ [history_entry entry (now env)])%list
      else e_history entry
  | _ => e_history entry
  end.

(** C4, amended.  On a register that keeps versions, every operation
    among add under an id not stored yet, get that answers without walking
    the history for an instant (no [asOf], or the current version in force
    at it), list, search, archive, update and export leaves the history of
    each stored entry as it was, record for record, except that an update
    that goes through appends exactly one record, the version it replaces,
    at the end of the history of the entry it updates. *)
Theorem history_is_append_only (this : Register) (op : Operation)
  (id : string) (entry : Entry) :
  enableVersioning this = true ->
  Map_get (storage this) id = Some entry ->
  adds_new_id op this ->
  answers_without_scan op this ->
  exists entry',
    Map_get (storage (after op this)) id = Some entry' /\
    e_history entry' = expected_history op id entry.
Proof.
  intros Hv Hget Hnew Hasof.
  destruct op as [document options env | id' options | options | query limit
                 | id' options env | id' document options env
                 | options audit env]; cbn [after expected_history].
  - (* add *)
    cbn [adds_new_id] in Hnew. exists entry. split; [|reflexivity].
    destruct (nullish document) eqn:Hdoc.
    + unfold add. rewrite Hdoc. exact Hget.
    + destruct (add_returns document options env this Hdoc) as (this' & E & S & _).
      rewrite E. cbn [snd]. rewrite S, Map_get_set_other; [exact Hget|].
      intros Heq. rewrite Heq in Hnew. congruence.
  - (* get *)
    cbn [answers_without_scan] in Hasof.
    rewrite get_is_pure_unless_it_scans by exact Hasof. eauto.
  - rewrite list_is_pure. eauto.
  - rewrite search_is_pure. eauto.
  - (* archive *)
    destruct (Map_get (storage this) id') as [entry0|] eqn:Hget'.
    + destruct (archive_returns id' options env this entry0 Hget')
        as (this' & E & S & _).
      rewrite E. cbn [snd]. rewrite S.
      destruct (String.eqb_spec id' id) as [Heq|Hne].
      * subst id'. rewrite Map_get_set_same. eexists. split; [reflexivity|].
        rewrite Hget in Hget'. now inversion Hget'.
      * rewrite Map_get_set_other by exact Hne. eauto.
    + unfold archive, bind. rewrite get_no_options, Hget'. cbn. eauto.
  - (* update *)
    destruct (Map_get (storage this) id') as [entry0|] eqn:Hget'.
    + destruct (nullish document) eqn:Hdoc.
      * rewrite andb_false_r. exists entry. split; [|reflexivity].
        unfold update, bind. rewrite get_no_options, Hget'. cbn [option_map].
        rewrite Hdoc. exact Hget.
      * destruct (update_returns id' document options env this entry0 Hget' Hdoc)
          as (this' & E & S & _).
        rewrite E. cbn [snd]. rewrite S.
        destruct (String.eqb_spec id' id) as [Heq|Hne].
        -- subst id'. rewrite Map_get_set_same. eexists. split; [reflexivity|].
           rewrite Hget in Hget'. inversion Hget'; subst entry0.
           cbn [updated_entry e_history andb negb]. now rewrite Hv.
        -- rewrite Map_get_set_other by exact Hne. cbn [andb]. eauto.
    + assert (Hne : (id' =? id) = false).
      { apply String.eqb_neq. intros ->. congruence. }
      rewrite Hne. cbn [andb]. exists entry. split; [|reflexivity].
      unfold update, bind. rewrite get_no_options, Hget'. exact Hget.
  - rewrite export_is_pure. eauto.
Qed.

End Operations.

(** [history_is_append_only] on an entry that has one record in its
    history: at an update, and at a lookup as of an instant at which the
    current version is in force. *)
Lemma history_is_append_only_witness :
  let js_lt := fun _ _ => false in
  let RegExp := fun _ _ => None in
  let this0 :=
    snd (add (VObj [("amount", VNum 100)])
           (mkAddOptions (Some "doc-1") None None None VUndef VUndef VUndef
              None VUndef)
           (mkEnv (date 2024 1 10) "uuid-1") (constructor default_options)) in
  let this :=
    snd (update "doc-1" (VObj [("amount", VNum 150)]) no_update_options
           (mkEnv (date 2024 3 10) "uuid-2") this0) in
  let op := Update "doc-1" (VObj [("amount", VNum 175)]) no_update_options
              (mkEnv (date 2024 5 10) "uuid-3") in
  let lookup := Get "doc-1" (mkGetOptions None (Some (date 2024 4 1))) in
  exists entry entry' entry'',
    Map_get (storage this) "doc-1" = Some entry /\
    map h_version (e_history entry) = [1%Z] /\
    Map_get (storage (after js_lt RegExp op this)) "doc-1" = Some entry' /\
    e_history entry' = expected_history op "doc-1" entry /\
    map h_version (e_history entry') = [1%Z; 2%Z] /\
    Map_get (storage (after js_lt RegExp lookup this)) "doc-1" = Some entry'' /\
    e_history entry'' = e_history entry.
Proof.
  intros js_lt RegExp this0 this op lookup.
  assert (Hget : exists entry, Map_get (storage this) "doc-1" = Some entry /\
                               map h_version (e_history entry) = [1%Z])
    by (eexists; split; reflexivity).
  destruct Hget as (entry & Hget & Hh).
  destruct (history_is_append_only js_lt RegExp this op "doc-1" entry)
    as (entry' & G & H); [reflexivity | exact Hget | exact I | exact I |].
  destruct (history_is_append_only js_lt RegExp this lookup "doc-1" entry)
    as (entry'' & G' & H'); [reflexivity | exact Hget | exact I | reflexivity |].
  exists entry, entry', entry''. repeat split; auto.
  rewrite H. cbn [expected_history op String.eqb Ascii.eqb Bool.eqb nullish
                  negb andb].
  rewrite map_app, Hh. inversion Hget. reflexivity.
Defined.

(** C4 fails as stated.  Under the default options, an [add] under the id
    of a stored entry leaves an empty history where one record was: the
    history is neither kept nor extended.  And on a register built with
    [enableVersioning: false], an [update] that goes through, taking the
    entry to version 2, appends nothing. *)
Lemma history_is_dropped_by_design :
  let doc := VObj [("amount", VNum 100)] in
  let options := mkAddOptions (Some "doc-1") None None None VUndef VUndef
                   VUndef None VUndef in
  let added (this : Register) :=
    snd (add doc options (mkEnv (date 2024 1 10) "uuid-1") this) in
  let updated (this : Register) :=
    snd (update "doc-1" (VObj [("amount", VNum 150)]) no_update_options
           (mkEnv (date 2024 3 10) "uuid-2") this) in
  let versioned := updated (added (constructor default_options)) in
  let unversioned :=
    added (constructor (mkOptions None VUndef (Some false) None)) in
  let before := stored_history_records versioned "doc-1" in
  let after_add :=
    stored_history_records
      (snd (add doc options (mkEnv (date 2024 5 10) "uuid-3") versioned))
      "doc-1" in
  (map h_version before = [1%Z] /\ after_add = [] /\
   after_add <> before /\ forall h, after_add <> before ++ [h]) /\
  (stored_history_records unversioned "doc-1" = [] /\
   option_map e_version (Map_get (storage (updated unversioned)) "doc-1")
     = Some 2%Z /\
   forall h, stored_history_records (updated unversioned) "doc-1"
             <> stored_history_records unversioned "doc-1" ++ [h]).
Proof.
  repeat split; try discriminate; intros h; discriminate.
Qed.

(** *** Export, then import into a fresh register *)

(** The register [import] fills from what [export] returned, starting
    from one built with the default options. *)
Definition export_then_import (js_lt : value -> value -> bool)
  (source : Register) (env : Env) (envs : nat -> Env) : Register :=
  match fst (export js_lt no_list_options false env source) with
  | Returned payload =>
      snd (import (Payload (map item_of (x_entries payload))) false envs
             (constructor default_options))
  | Thrown _ => constructor default_options
  end.

Definition stored_data (this : Register) (id : string) : option value :=
  option_map e_data (Map_get (storage this) id).

(** A register holding one record whose data has a field named [data]:
    [add({data: {kind: 'envelope', data: {amount: 100}}},
         {id: 'doc-1', effectiveFrom: '1970-01-01'})]. *)
Definition envelope_register : Register :=
  snd (add (VObj [("data", VObj [("kind", VStr "envelope");
                                 ("data", VObj [("amount", VNum 100)])])])
         (mkAddOptions (Some "doc-1") (Some (date 1970 1 1)) None None VUndef
            VUndef VUndef None VUndef)
         (mkEnv (date 2024 1 10) "uuid-1") (constructor default_options)).

(** C5 breaks on a record with a field named [data].  [import] hands
    [entry.data] to [add] as the document, and [add] takes
    [document.data || document] once more: the register filled from the
    export holds the inner field where the source holds the record. *)
Theorem export_then_import_unwraps_data_again
  (js_lt : value -> value -> bool) :
  let copy := export_then_import js_lt envelope_register (mkEnv 20%Z "uuid-2")
                (fun _ => mkEnv 30%Z "uuid-3") in
  stored_data envelope_register "doc-1"
    = Some (VObj [("kind", VStr "envelope");
                  ("data", VObj [("amount", VNum 100)])]) /\
  stored_data copy "doc-1" = Some (VObj [("amount", VNum 100)]) /\
  stored_data copy "doc-1" <> stored_data envelope_register "doc-1".
Proof.
  repeat split. discriminate.
Qed.

(** *** What is preserved otherwise

    The loss above is confined to records with a truthy field named
    [data]: for the other entries of a register built by add and update,
    the round trip keeps data, metadata and effective dates. *)

Lemma set_prop_inside (l1 l2 : obj) k v0 v :
  ~ In k (map fst l1) ->
  set_prop (l1 ++ (k, v0) :: l2) k v = (l1 ++ (k, v) :: l2)%list.
Proof.
  induction l1 as [|[k1 v1] l1 IH]; simpl; intros H.
  - now rewrite String.eqb_refl.
  - destruct (String.eqb_spec k1 k) as [E|E]; [elim H; now left|].
    f_equal. apply IH. tauto.
Qed.

Lemma set_prop_fresh (l : obj) k v :
  ~ In k (map fst l) -> set_prop l k v = (l ++ [(k, v)])%list.
Proof.
  induction l as [|[k1 v1] l IH]; simpl; intros H; [reflexivity|].
  destruct (String.eqb_spec k1 k) as [E|E]; [elim H; now left|].
  f_equal. apply IH. tauto.
Qed.

Lemma set_prop_keys (l : obj) k v :
  map fst (set_prop l k v)
  = if existsb (String.eqb k) (map fst l) then map fst l
    else (map fst l ++ [k])%list.
Proof.
  induction l as [|[k1 v1] l IH]; simpl; [reflexivity|].
  rewrite (String.eqb_sym k k1).
  destruct (k1 =? k); simpl; [reflexivity|]. rewrite IH.
  now destruct (existsb _ _).
Qed.

(** Spreading an object over one that has its first keys, in the same
    order, gives the object back. *)
Lemma spread_overwrites (todo : obj) : forall done rest,
  map fst rest = map fst todo ->
  NoDup (map fst (done ++ todo)) ->
  spread (done ++ rest) todo = (done ++ todo)%list.
Proof.
  unfold spread.
  induction todo as [|[k v] todo IH]; intros done rest Hk Hnd.
  - destruct rest; [reflexivity|discriminate].
  - destruct rest as [|[k0 v0] rest]; [discriminate|].
    simpl in Hk. injection Hk as -> Hk. cbn [fold_left fst snd].
    rewrite set_prop_inside.
    + change (done ++ (k, v) :: rest)%list
        with (done ++ [(k, v)] ++ rest)%list.
      rewrite app_assoc. rewrite IH; auto.
      * now rewrite <- app_assoc.
      * now rewrite <- app_assoc.
    + rewrite map_app in Hnd. apply NoDup_remove_2 in Hnd.
      intros Hin. apply Hnd. apply in_or_app. now left.
Qed.

Lemma spread_appends (extra : obj) : forall o,
  NoDup (map fst (o ++ extra)) -> spread o extra = (o ++ extra)%list.
Proof.
  unfold spread.
  induction extra as [|[k v] extra IH]; intros o Hnd.
  - now rewrite app_nil_r.
  - cbn [fold_left fst snd]. rewrite set_prop_fresh.
    + rewrite IH; rewrite <- app_assoc; auto.
    + rewrite map_app in Hnd. apply NoDup_remove_2 in Hnd.
      intros Hin. apply Hnd. apply in_or_app. now left.
Qed.

(** The seven properties every metadata object starts with. *)
Definition base_keys : list string :=
  ["schemaId"; "schemaVersion"; "extractionId"; "confidence"; "source";
   "tags"; "category"].

(** The shape [add] and [update] give to metadata: the base properties
    first, no property twice. *)
Definition well_shaped (m : obj) : Prop :=
  (exists extras, map fst m = (base_keys ++ extras)%list) /\
  NoDup (map fst m).

Lemma well_shaped_set_prop m k v :
  well_shaped m -> well_shaped (set_prop m k v).
Proof.
  intros [[extras He] Hnd]. unfold well_shaped. rewrite set_prop_keys.
  destruct (existsb (String.eqb k) (map fst m)) eqn:E; [eauto|]. split.
  - exists (extras ++ [k])%list. now rewrite He, app_assoc.
  - apply NoDup_app; [exact Hnd | repeat constructor; intros [] |].
    intros x Hx [Hk|[]]. subst x.
    assert (existsb (String.eqb k) (map fst m) = true)
      by (apply existsb_exists; exists k; split; auto using String.eqb_refl).
    congruence.
Qed.

Lemma well_shaped_spread extra : forall m,
  well_shaped m -> well_shaped (spread m extra).
Proof.
  unfold spread. induction extra as [|[k v] extra IH]; intros m H; auto.
  cbn [fold_left]. apply IH, well_shaped_set_prop, H.
Qed.

Lemma well_shaped_spread_opt m extra :
  well_shaped m -> well_shaped (spread_opt m extra).
Proof. destruct extra; simpl; auto using well_shaped_spread. Qed.

Lemma new_entry_well_shaped this id document options now :
  well_shaped (e_metadata (new_entry this id document options now)).
Proof.
  cbn [new_entry e_metadata]. apply well_shaped_spread_opt.
  unfold literal. split.
  - exists []. reflexivity.
  - cbv [spread fold_left set_prop fst snd String.eqb Ascii.eqb Bool.eqb map].
    repeat constructor; simpl; intuition discriminate.
Qed.

Lemma updated_entry_well_shaped this existing document options now :
  well_shaped (e_metadata existing) ->
  well_shaped (e_metadata (updated_entry this existing document options now)).
Proof.
  intros H. cbn [updated_entry e_metadata].
  apply well_shaped_spread_opt, well_shaped_spread, H.
Qed.

(** What [add] makes of the metadata of an exported entry: the entry's
    own. *)
Lemma imported_metadata (base m : obj) :
  map fst base = base_keys -> well_shaped m -> spread base m = m.
Proof.
  intros Hb [[extras He] Hnd].
  assert (Hsplit : exists m1 m2, m = (m1 ++ m2)%list /\
                                  map fst m1 = base_keys).
  { exists (firstn 7 m), (skipn 7 m). split; [now rewrite firstn_skipn|].
    rewrite <- firstn_map, He. reflexivity. }
  destruct Hsplit as (m1 & m2 & -> & H1).
  assert (E1 : spread base m1 = m1).
  { apply (spread_overwrites m1 [] base); [congruence|].
    rewrite map_app in Hnd. now apply NoDup_app_remove_r in Hnd. }
  unfold spread in *. rewrite fold_left_app, E1.
  now apply spread_appends.
Qed.

(** A register as add and update leave it: one entry per id, stored
    under its own non-empty id, with metadata of the shape above. *)
Definition well_formed (this : Register) : Prop :=
  NoDup (map fst (storage this)) /\
  forall k e, In (k, e) (storage this) ->
    e_id e = k /\ k <> "" /\ well_shaped (e_metadata e).

Lemma Map_set_fst {V : Type} (m : list (string * V)) k v :
  map fst (Map_set m k v)
  = if existsb (String.eqb k) (map fst m) then map fst m else map fst m ++ [k].
Proof.
  induction m as [|[k1 v1] m IH]; simpl; [reflexivity|].
  rewrite (String.eqb_sym k k1).
  destruct (k1 =? k); simpl; [reflexivity|]. rewrite IH.
  now destruct (existsb _ _).
Qed.

Lemma Map_set_NoDup {V : Type} (m : list (string * V)) k v :
  NoDup (map fst m) -> NoDup (map fst (Map_set m k v)).
Proof.
  intros Hnd. rewrite Map_set_fst.
  destruct (existsb (String.eqb k) (map fst m)) eqn:E; [exact Hnd|].
  apply NoDup_app; [exact Hnd | repeat constructor; intros [] |].
  intros x Hx [Hk|[]]. subst x.
  assert (existsb (String.eqb k) (map fst m) = true)
    by (apply existsb_exists; exists k; split; auto using String.eqb_refl).
  congruence.
Qed.

Lemma Map_set_In {V : Type} (m : list (string * V)) k v k' v' :
  In (k', v') (Map_set m k v) -> (k', v') = (k, v) \/ In (k', v') m.
Proof.
  induction m as [|[k0 v0] m IH]; simpl.
  - intros [H|[]]; auto.
  - destruct (String.eqb_spec k0 k) as [E|E]; simpl.
    + subst k0. intros [H|H]; auto.
    + intros [H|H]; auto. destruct (IH H); auto.
Qed.

Lemma Map_get_In {V : Type} (m : list (string * V)) k v :
  Map_get m k = Some v -> In (k, v) m.
Proof.
  induction m as [|[k0 v0] m IH]; simpl; [discriminate|].
  destruct (String.eqb_spec k0 k) as [E|E].
  - intros H. inversion H; subst. now left.
  - intros H. right. auto.
Qed.

Lemma well_formed_new options : well_formed (constructor options).
Proof. split; [constructor | intros k e []]. Qed.

Lemma well_formed_stored this this' k e :
  well_formed this ->
  storage this' = Map_set (storage this) k e ->
  e_id e = k -> k <> "" -> well_shaped (e_metadata e) ->
  well_formed this'.
Proof.
  intros [Hnd Hall] S Hid Hne Hshape. unfold well_formed. rewrite S. split.
  - now apply Map_set_NoDup.
  - intros k' e' Hin. apply Map_set_In in Hin. destruct Hin as [Hin|Hin]; auto.
    inversion Hin; subst. auto.
Qed.

(** [add], with a non-empty id given or generated, and [update] keep a
    register well formed. *)
Lemma add_well_formed document options env this :
  well_formed this -> str_or (ao_id options) (uuid env) <> "" ->
  well_formed (snd (add document options env this)).
Proof.
  intros Hwf Hne. destruct (nullish document) eqn:Hdoc.
  - unfold add. now rewrite Hdoc.
  - destruct (add_returns document options env this Hdoc) as (this' & E & S & _).
    rewrite E. cbn [snd].
    eapply well_formed_stored; eauto using new_entry_well_shaped.
Qed.

Lemma update_well_formed id document options env this :
  well_formed this ->
  well_formed (snd (update id document options env this)).
Proof.
  intros Hwf. destruct (Map_get (storage this) id) as [existing|] eqn:Hget.
  - destruct (nullish document) eqn:Hdoc.
    + unfold update, bind. rewrite get_no_options, Hget. cbn [option_map].
      now rewrite Hdoc.
    + destruct (update_returns id document options env this existing Hget Hdoc)
        as (this' & E & S & _).
      rewrite E. cbn [snd].
      destruct (proj2 Hwf id existing (Map_get_In _ _ _ Hget)) as (Hid & Hne & Hs).
      eapply well_formed_stored; eauto using updated_entry_well_shaped.
  - unfold update, bind. now rewrite get_no_options, Hget.
Qed.

(** The registers populated by adds and updates; the uuid generator
    never answers with the empty string. *)
Inductive populated : Register -> Prop :=
| populated_new options : populated (constructor options)
| populated_add this document options env :
    populated this -> str_or (ao_id options) (uuid env) <> "" ->
    populated (snd (add document options env this))
| populated_update this id document options env :
    populated this ->
    populated (snd (update id document options env this)).

Lemma populated_well_formed this : populated this -> well_formed this.
Proof.
  induction 1; auto using well_formed_new, add_well_formed, update_well_formed.
Qed.

(** The sort rearranges. *)
Lemma sort_insert_Permutation {A : Type} (cmp : A -> A -> Q) x l :
  Permutation (x :: l) (sort_insert cmp x l).
Proof.
  induction l as [|y l IH]; simpl; [reflexivity|].
  destruct (Qlt_le_dec (cmp x y) 0); [reflexivity|].
  rewrite perm_swap. now constructor.
Qed.

Lemma Array_sort_Permutation {A : Type} (cmp : A -> A -> Q) l :
  Permutation l (Array_sort cmp l).
Proof.
  unfold Array_sort.
  assert (H : forall acc, Permutation (l ++ acc)
                (fold_left (fun sorted x => sort_insert cmp x sorted) l acc)).
  { induction l as [|x l IH]; intros acc; simpl; [reflexivity|].
    rewrite <- IH. rewrite <- sort_insert_Permutation.
    now rewrite Permutation_middle. }
  specialize (H []). now rewrite app_nil_r in H.
Qed.

(** What [export] hands over under no option: every stored entry, whole,
    in the order the sort leaves them. *)
Lemma export_lists_every_entry js_lt env this :
  exists payload,
    fst (export js_lt no_list_options false env this) = Returned payload /\
    exists entries,
      x_entries payload = map Full entries /\
      Permutation (Map_values (storage this)) entries.
Proof.
  eexists. split; [reflexivity|]. cbn [x_entries lr_entries].
  eexists. split; [reflexivity|]. cbn. apply Array_sort_Permutation.
Qed.

(** The entry [import] stores for an element that carries an id. *)
Definition imported_entry (this : Register) (item : ImportItem) (id : string)
  (now : time) : Entry :=
  new_entry this id (or_else (ii_data item) (VObj (ii_self item)))
    (import_options item) now.

Lemma import_loop_stores envs items : forall i results this,
  (forall item, In item items -> exists id, ii_id item = Some id /\ id <> "") ->
  NoDup (map ii_id items) ->
  exists this',
    snd (import_loop false envs i results items this) = this' /\
    (forall k, ~ In (Some k) (map ii_id items) ->
       Map_get (storage this') k = Map_get (storage this) k) /\
    (forall item id, In item items -> ii_id item = Some id ->
       exists this0 now,
         Map_get (storage this') id = Some (imported_entry this0 item id now)).
Proof.
  induction items as [|item items IH]; intros i results this Hids Hnd.
  - exists this. repeat split; auto. intros ? ? [].
  - simpl import_loop. unfold bind at 1. unfold import_one.
    unfold bind at 1. unfold ret at 1. unfold bind at 1.
    set (document := or_else (ii_data item) (VObj (ii_self item))).
    destruct (add_returns document (import_options item) (envs i) this
                (import_document_is_object item)) as (this1 & E1 & S1 & C1).
    rewrite E1. unfold ret at 1.
    destruct (Hids item (or_introl eq_refl)) as (id0 & Hid0 & Hne0).
    cbn [import_options ao_id] in S1. rewrite Hid0, str_or_some in S1 by exact Hne0.
    inversion Hnd as [|? ? Hfresh Hnd']; subst.
    destruct (IH (S i) (mkImportResults (S (imported results))
                          (skipped results) (errors results)) this1)
      as (this' & E & Hother & Hin); auto.
    { intros it Hit. apply Hids. now right. }
    exists this'. split; [exact E|]. split.
    + intros k Hk. rewrite Hother by (intros H; apply Hk; now right).
      rewrite S1. apply Map_get_set_other. intros ->. apply Hk. left. exact Hid0.
    + intros it id [<-|Hit] Hid.
      * rewrite Hid0 in Hid. inversion Hid; subst id0.
        exists this, (now (envs i)).
        rewrite Hother by (now rewrite <- Hid0). rewrite S1.
        apply Map_get_set_same.
      * eapply Hin; eauto.
Qed.

(** Export then import keeps the data, the metadata and the effective
    dates of every entry whose data is a record with no truthy field
    named [data]. *)
Lemma export_then_import_keeps_plain_records js_lt this env envs id entry :
  populated this ->
  Map_get (storage this) id = Some entry ->
  truthy (e_data entry) = true ->
  truthy (member (e_data entry) "data") = false ->
  exists entry',
    Map_get (storage (export_then_import js_lt this env envs)) id
      = Some entry' /\
    e_data entry' = e_data entry /\
    e_metadata entry' = e_metadata entry /\
    e_effectiveFrom entry' = e_effectiveFrom entry /\
    e_effectiveTo entry' = e_effectiveTo entry.
Proof.
  intros Hpop Hget Hdata Hplain.
  destruct (populated_well_formed this Hpop) as [Hnd Hall].
  unfold export_then_import.
  destruct (export_lists_every_entry js_lt env this)
    as (payload & -> & entries & -> & Hperm).
  apply Map_get_In in Hget.
  assert (Hkeys : map e_id (Map_values (storage this)) = map fst (storage this)).
  { unfold Map_values. rewrite map_map. apply map_ext_in.
    intros [k e] Hin. now apply Hall in Hin. }
  assert (Hentries : forall e, In e entries -> In (e_id e, e) (storage this)).
  { intros e He. apply (Permutation_in _ (Permutation_sym Hperm)) in He.
    unfold Map_values in He. apply in_map_iff in He.
    destruct He as ([k e'] & <- & Hin). simpl.
    destruct (Hall _ _ Hin) as (-> & _). exact Hin. }
  rewrite map_map.
  destruct (import_loop_stores envs (map (fun e => item_of (Full e)) entries) 0
              (mkImportResults 0 0 []) (constructor default_options))
    as (copy & E & _ & Hstored).
  - intros item Hitem. apply in_map_iff in Hitem.
    destruct Hitem as (e & <- & He). exists (e_id e). split; [reflexivity|].
    apply Hentries, Hall in He. tauto.
  - rewrite map_map. cbn [item_of ii_id].
    rewrite <- (map_map e_id Some).
    apply Finite.Injective_map_NoDup; [intros a b H; now inversion H|].
    apply (Permutation_NoDup (Permutation_map e_id Hperm)).
    now rewrite Hkeys.
  - unfold import, entries_of. unfold bind at 1. unfold ret at 1. rewrite E.
    assert (Hin : In entry entries).
    { apply (Permutation_in _ Hperm). unfold Map_values.
      apply in_map_iff. exists (id, entry). auto. }
    destruct (Hall _ _ Hget) as (Hid & Hne & Hshape).
    destruct (Hstored (item_of (Full entry)) id) as (this0 & now0 & G).
    + apply in_map_iff. eauto.
    + cbn [item_of ii_id]. congruence.
    + eexists. split; [exact G|].
      unfold imported_entry.
      cbn [new_entry item_of e_data e_metadata e_effectiveFrom e_effectiveTo
           import_options ii_data ii_self ii_metadata ii_effectiveFrom
           ii_effectiveTo ao_metadata ao_effectiveFrom ao_effectiveTo
           spread_opt time_or].
      unfold or_else at 2. unfold or_else at 2. rewrite Hdata.
      unfold or_else at 1. rewrite Hplain.
      repeat split. now apply imported_metadata.
Qed.

(** *** Search: scores, ranking, exclusion *)

Section Search.

Variable js_lt : value -> value -> bool.
Variable RegExp : value -> value -> option (string -> bool).

(** The predicates of the query language. *)
Inductive Predicate : Type :=
| Literal (v : value)
| Eq (v : value)
| Contains (v : value)
| Gt (v : value)
| Lt (v : value)
| Regex (pattern flags : value).

(** The fixed weight of a predicate. *)
Definition weight (p : Predicate) : Q :=
  match p with
  | Literal _ | Eq _ => 1
  | Regex _ _ => 0.9
  | Contains _ => 0.8
  | Gt _ | Lt _ => 0.7
  end%Q.

Definition given (v : value) (p : value -> Predicate) : list Predicate :=
  if isUndefined v then [] else [p v].

(** The predicates one entry of the query puts on its field: a literal,
    or those of an operator object. *)
Definition predicates_of (v : value) : list Predicate :=
  if is_operators v then
    (given (member v "$eq") Eq ++ given (member v "$contains") Contains ++
     given (member v "$gt") Gt ++ given (member v "$lt") Lt ++
     given (member v "$regex")
       (fun pattern => Regex pattern (or_else (member v "$flags") (VStr "i"))))%list
  else [Literal v].

Definition predicates (query : obj) : list (string * Predicate) :=
  flat_map (fun fv => map (pair (fst fv)) (predicates_of (snd fv))) query.

(** Whether a predicate on a field matches the data. *)
Definition holds (data : value) (fp : string * Predicate) : bool :=
  let fieldValue := _getNestedValue data (fst fp) in
  negb (isUndefined fieldValue) &&
  match snd fp with
  | Literal v | Eq v => strict_eq fieldValue v
  | Contains v => includes (js_String fieldValue) (js_String v)
  | Gt v => js_gt js_lt fieldValue v
  | Lt v => js_lt fieldValue v
  | Regex pattern flags =>
      match RegExp pattern flags with
      | Some test => test (js_String fieldValue)
      | None => false
      end
  end.

(** The predicates of the query that match, in order, and the sum of
    their weights. *)
Definition matching (data : value) (query : obj) : list (string * Predicate) :=
  filter (holds data) (predicates query).

Definition weighted_score (data : value) (query : obj) : Q :=
  fold_left (fun sum fp => sum + weight (snd fp))%Q (matching data query) 0%Q.

Definition record (m : Matches) (fps : list (string * Predicate)) : Matches :=
  fold_left (fun m fp => hit m (weight (snd fp)) (fst fp)) fps m.

Lemma record_app m l l' : record m (l ++ l') = record (record m l) l'.
Proof. apply fold_left_app. Qed.

Lemma record_given data m field v (p : value -> Predicate) (b : bool) :
  holds data (field, p v) = (negb (isUndefined (_getNestedValue data field)) && b) ->
  isUndefined (_getNestedValue data field) = false ->
  record m (filter (holds data) (map (pair field) (given v p)))
  = if negb (isUndefined v) && b then hit m (weight (p v)) field else m.
Proof.
  intros Hh Hf. unfold given. destruct (isUndefined v); [reflexivity|].
  cbn [map filter]. rewrite Hh, Hf. cbn [negb andb].
  destruct b; reflexivity.
Qed.

(** One turn of the loop records exactly the matching predicates of the
    field. *)
Lemma match_field_records data m field v m' :
  match_field js_lt RegExp data m field v = Some m' ->
  m' = record m (filter (holds data) (map (pair field) (predicates_of v))).
Proof.
  unfold match_field, predicates_of.
  destruct (isUndefined (_getNestedValue data field)) eqn:Hf.
  - intros H. inversion H; subst m'. clear H.
    assert (E : forall l, filter (holds data) (map (pair field) l) = []).
    { induction l as [|p l IH]; [reflexivity|]. cbn [map filter].
      unfold holds at 1. cbn [fst]. rewrite Hf. exact IH. }
    now rewrite E.
  - destruct (is_operators v).
    + rewrite !map_app, !filter_app, !record_app.
      rewrite (record_given data _ field _ Eq
                 (strict_eq (_getNestedValue data field) (member v "$eq")))
        by (auto; unfold holds; cbn [fst snd]; reflexivity).
      rewrite (record_given data _ field _ Contains
                 (includes (js_String (_getNestedValue data field))
                    (js_String (member v "$contains"))))
        by (auto; unfold holds; cbn [fst snd]; reflexivity).
      rewrite (record_given data _ field _ Gt
                 (js_gt js_lt (_getNestedValue data field) (member v "$gt")))
        by (auto; unfold holds; cbn [fst snd]; reflexivity).
      rewrite (record_given data _ field _ Lt
                 (js_lt (_getNestedValue data field) (member v "$lt")))
        by (auto; unfold holds; cbn [fst snd]; reflexivity).
      cbn [weight].
      unfold given. destruct (isUndefined (member v "$regex")); cbn [negb].
      * intros H. now inversion H.
      * cbn [map filter]. unfold holds at 1. cbn [fst snd]. rewrite Hf.
        cbn [negb andb].
        destruct (RegExp _ _) as [test|]; [|discriminate].
        intros H. inversion H. destruct (test _); reflexivity.
    + intros H. inversion H. cbn [map filter]. unfold holds at 1.
      cbn [fst snd]. rewrite Hf. cbn [negb andb].
      destruct (strict_eq _ v); reflexivity.
Qed.

Lemma match_fields_records data query : forall m m',
  match_fields js_lt RegExp data m query = Some m' ->
  m' = record m (matching data query).
Proof.
  unfold matching.
  induction query as [|[field v] query IH]; intros m m' H.
  - now inversion H.
  - cbn [match_fields] in H.
    destruct (match_field js_lt RegExp data m field v) as [m1|] eqn:E;
      [|discriminate].
    apply match_field_records in E. apply IH in H. subst m1 m'.
    unfold predicates. cbn [flat_map fst snd].
    now rewrite filter_app, record_app.
Qed.

Lemma record_score fps : forall m,
  score (record m fps)
  = fold_left (fun sum fp => sum + weight (snd fp))%Q fps (score m).
Proof.
  induction fps as [|fp fps IH]; intros m; [reflexivity|].
  cbn [record fold_left]. fold (record (hit m (weight (snd fp)) (fst fp)) fps).
  now rewrite IH.
Qed.

Lemma record_matched fps : forall m,
  matched (record m fps) = matched m || negb (Nat.eqb (List.length fps) 0).
Proof.
  induction fps as [|fp fps IH]; intros m.
  - simpl. now rewrite orb_false_r.
  - cbn [record fold_left]. fold (record (hit m (weight (snd fp)) (fst fp)) fps).
    rewrite IH. simpl. now rewrite orb_true_r.
Qed.

Lemma record_fields fps : forall m,
  fields (record m fps) = (fields m ++ map fst fps)%list.
Proof.
  induction fps as [|fp fps IH]; intros m.
  - simpl. now rewrite app_nil_r.
  - cbn [record fold_left]. fold (record (hit m (weight (snd fp)) (fst fp)) fps).
    rewrite IH. simpl. now rewrite <- app_assoc.
Qed.

(** [_matchesQuery], when no pattern fails to compile: the score is the
    sum of the weights of the matching predicates, [matched] says whether
    there is one, [fields] lists their fields. *)
Lemma _matchesQuery_sums_weights data query m :
  _matchesQuery js_lt RegExp data query = Some m ->
  score m = weighted_score data query /\
  (matched m = false <-> matching data query = []) /\
  fields m = map fst (matching data query).
Proof.
  unfold _matchesQuery. intros H. apply match_fields_records in H. subst m.
  rewrite record_score, record_matched, record_fields. repeat split.
  - cbn [matched orb]. destruct (matching data query); [reflexivity|discriminate].
  - intros ->. reflexivity.
Qed.

Lemma match_fields_returns data query :
  (forall pattern flags, RegExp pattern flags <> None) ->
  forall m, exists m', match_fields js_lt RegExp data m query = Some m'.
Proof.
  intros Hre. induction query as [|[field v] query IH]; intros m.
  - eexists; reflexivity.
  - cbn [match_fields].
    assert (E : exists m1, match_field js_lt RegExp data m field v = Some m1).
    { unfold match_field.
      destruct (isUndefined _); [eauto|].
      destruct (is_operators v); [|eauto].
      destruct (negb (isUndefined (member v "$regex"))); [|eauto].
      destruct (RegExp _ _) eqn:R; [eauto|]. now apply Hre in R. }
    destruct E as [m1 ->]. apply IH.
Qed.

(** *** The sort *)

(** Results in descending order of score. *)
Definition descending : list SearchHit -> Prop :=
  StronglySorted (fun a b => (sh_matchScore b <= sh_matchScore a)%Q).

Definition by_score (a b : SearchHit) : Q :=
  (sh_matchScore b - sh_matchScore a)%Q.

Lemma In_sort_insert {A : Type} (cmp : A -> A -> Q) x l y :
  In y (sort_insert cmp x l) <-> y = x \/ In y l.
Proof.
  induction l as [|z l IH]; simpl.
  - intuition.
  - destruct (Qlt_le_dec (cmp x z) 0); simpl; [intuition|].
    rewrite IH. intuition.
Qed.

Lemma In_Array_sort {A : Type} (cmp : A -> A -> Q) l y :
  In y (Array_sort cmp l) <-> In y l.
Proof.
  unfold Array_sort.
  assert (H : forall acc, In y (fold_left (fun sorted x => sort_insert cmp x sorted)
                                  l acc) <-> In y l \/ In y acc).
  { induction l as [|x l IH]; intros acc; simpl; [tauto|].
    rewrite IH, In_sort_insert. intuition. }
  rewrite H. simpl. tauto.
Qed.

Lemma sort_insert_descending x l :
  descending l -> descending (sort_insert by_score x l).
Proof.
  unfold descending. induction 1 as [|y l Hl IH Hy]; simpl.
  - repeat constructor.
  - unfold by_score at 1. destruct (Qlt_le_dec _ 0) as [Hlt|Hle].
    + constructor; [now constructor|]. constructor; [lra|].
      rewrite Forall_forall in *. intros z Hz. specialize (Hy z Hz). lra.
    + constructor; [exact IH|].
      rewrite Forall_forall in *. intros z Hz.
      apply In_sort_insert in Hz. destruct Hz as [->|Hz]; [lra|now apply Hy].
Qed.

Lemma Array_sort_descending l : descending (Array_sort by_score l).
Proof.
  unfold Array_sort.
  assert (H : forall acc, descending acc ->
            descending (fold_left (fun sorted x => sort_insert by_score x sorted)
                          l acc)).
  { induction l as [|x l IH]; intros acc Hacc; simpl; auto.
    apply IH, sort_insert_descending, Hacc. }
  apply H. constructor.
Qed.

Lemma firstn_descending n : forall l, descending l -> descending (firstn n l).
Proof.
  unfold descending.
  induction n as [|n IH]; intros l Hl; simpl; [constructor|].
  destruct Hl as [|x l Hl Hx]; constructor; auto.
  rewrite Forall_forall in *. intros y Hy. apply Hx.
  rewrite <- (firstn_skipn n l). apply in_or_app. now left.
Qed.

(** What the loop of [search] gathers. *)
Lemma collect_hits query entries : forall acc results,
  collect js_lt RegExp query entries acc = Some results ->
  forall h, In h results ->
    In h acc \/
    (In (sh_entry h) entries /\
     sh_matchScore h = weighted_score (e_data (sh_entry h)) query /\
     matching (e_data (sh_entry h)) query <> [] /\
     sh_matchedFields h = map fst (matching (e_data (sh_entry h)) query)).
Proof.
  induction entries as [|entry entries IH]; intros acc results H h Hh.
  - inversion H; subst. now left.
  - cbn [collect] in H.
    destruct (_matchesQuery js_lt RegExp (e_data entry) query) as [m|] eqn:E;
      [|discriminate].
    destruct (_matchesQuery_sums_weights _ _ _ E) as (Hs & Hm & Hf).
    destruct (IH _ _ H h Hh) as [Hacc|(Hin & Hrest)].
    + destruct (matched m) eqn:M.
      * apply in_app_or in Hacc. destruct Hacc as [Hacc|[<-|[]]]; [now left|].
        right. cbn [sh_entry sh_matchScore sh_matchedFields].
        repeat split; auto; [now left|].
        intros Hnone. apply Hm in Hnone. congruence.
      * now left.
    + right. split; [now right | exact Hrest].
Qed.

Lemma collect_returns query entries :
  (forall pattern flags, RegExp pattern flags <> None) ->
  forall acc, exists results, collect js_lt RegExp query entries acc = Some results.
Proof.
  intros Hre. induction entries as [|entry entries IH]; intros acc.
  - eexists; reflexivity.
  - cbn [collect]. unfold _matchesQuery.
    destruct (match_fields_returns (e_data entry) query Hre
                (mkMatches false 0 [])) as [m ->].
    apply IH.
Qed.

(** C8.  [search] returns unless a pattern fails to compile, and what it
    returns is this: each result is a stored entry whose score is the sum
    of the weights (1 for a literal or [$eq], 0.9 for [$regex], 0.8 for
    [$contains], 0.7 for [$gt] or [$lt]) of the predicates of the query
    that match its data, of which there is at least one; the results are
    in descending order of score; and an entry that matches no predicate
    is not among them. *)
Theorem search_ranks_by_weighted_score (this : Register) (query : obj)
  (limit : option nat) :
  ((forall pattern flags, RegExp pattern flags <> None) ->
   exists res, search js_lt RegExp query limit this = (Returned res, this))
  /\
  (forall res this',
     search js_lt RegExp query limit this = (Returned res, this') ->
     (forall h, In h (sr_results res) ->
        In (sh_entry h) (Map_values (storage this)) /\
        sh_matchScore h = weighted_score (e_data (sh_entry h)) query /\
        matching (e_data (sh_entry h)) query <> []) /\
     descending (sr_results res) /\
     (forall entry, matching (e_data entry) query = [] ->
        ~ In entry (map sh_entry (sr_results res)))).
Proof.
  split.
  - intros Hre. unfold search, bind, read.
    destruct (collect_returns query (Map_values (storage this)) Hre [])
      as [results ->].
    eexists. reflexivity.
  - intros res this' H. unfold search, bind, read in H.
    destruct (collect js_lt RegExp query (Map_values (storage this)) [])
      as [results|] eqn:E; [|discriminate].
    unfold ret in H. inversion H; subst res this'. clear H.
    cbn [sr_results]. fold by_score.
    set (n := match limit with Some 0 | None => 50 | Some n => n end).
    assert (Hhits : forall h,
              In h (firstn n (Array_sort by_score results)) ->
              In (sh_entry h) (Map_values (storage this)) /\
              sh_matchScore h = weighted_score (e_data (sh_entry h)) query /\
              matching (e_data (sh_entry h)) query <> []).
    { intros h Hh.
      assert (Hin : In h (Array_sort by_score results)).
      { rewrite <- (firstn_skipn n (Array_sort by_score results)).
        apply in_or_app. left. exact Hh. }
      apply In_Array_sort in Hin.
      destruct (collect_hits _ _ _ _ E h Hin) as [[]|(Ha & Hb & Hc & _)].
      auto. }
    repeat split.
    + now apply Hhits.
    + now apply Hhits.
    + now apply Hhits.
    + apply firstn_descending, Array_sort_descending.
    + intros entry Hnone Hin. apply in_map_iff in Hin.
      destruct Hin as (h & <- & Hh). now apply Hhits in Hh.
Qed.

End Search.

(** [search_ranks_by_weighted_score] on a register of three entries and
    the query [{amount: {$gt: 100}, currency: 'EUR'}]: "b" matches both
    predicates, "a" one, "c" none. *)
Lemma search_ranks_by_weighted_score_witness :
  let js_lt a b :=
    match a, b with VNum x, VNum y => (x <? y)%Z | _, _ => false end in
  let RegExp := fun _ _ : value => Some (fun _ : string => false) in
  let put id amount currency this :=
    snd (add (VObj [("amount", VNum amount); ("currency", VStr currency)])
           (mkAddOptions (Some id) None None None VUndef VUndef VUndef None
              VUndef)
           (mkEnv 10 "uuid") this) in
  let this := put "c" 50%Z "USD" (put "b" 200%Z "EUR"
                (put "a" 150%Z "USD" (constructor default_options))) in
  let query := [("amount", VObj [("$gt", VNum 100)]);
                ("currency", VStr "EUR")] in
  exists res,
    search js_lt RegExp query None this = (Returned res, this) /\
    map (fun h => e_id (sh_entry h)) (sr_results res) = ["b"; "a"] /\
    descending (sr_results res) /\
    (forall h, In h (sr_results res) ->
       sh_matchScore h
       = weighted_score js_lt RegExp (e_data (sh_entry h)) query).
Proof.
  intros js_lt RegExp put this query.
  destruct (proj1 (search_ranks_by_weighted_score js_lt RegExp this query None))
    as [res Hres].
  - discriminate.
  - exists res. split; [exact Hres|].
    destruct (proj2 (search_ranks_by_weighted_score js_lt RegExp this query None)
                res this Hres) as (Hhits & Hsorted & _).
    split; [|split; [exact Hsorted|]].
    + assert (Hr : fst (search js_lt RegExp query None this) = Returned res)
        by now rewrite Hres.
      vm_compute in Hr. injection Hr as Hr. rewrite <- Hr. reflexivity.
    + intros h Hh. now apply Hhits.
Defined.

End RegisterFacts.

(* ================================================================== *)
(** ** Properties of the comparator *)
(* ================================================================== *)

Module ComparatorFacts.
Import JS DocumentComparator.

(** *** Conflicts and effective intervals *)

(** The overlap test of the design, on half-open intervals [[f1, t1)]
    and [[f2, t2)] with a null upper bound standing for no bound:
    [f1 < t2 && f2 < t1]. *)
Definition half_open_overlap (f1 : time) (t1 : option time) (f2 : time)
  (t2 : option time) : bool :=
  match t2 with None => true | Some t => (f1 <? t)%Z end &&
  match t1 with None => true | Some t => (f2 <? t)%Z end.

(** Two documents that disagree on [rate], the first in force over
    [2024-01-01, 2024-06-01), the second from 2024-06-01 on. *)
Definition sequential_documents : list Document :=
  [mkDocument (VStr "doc-a") (VNum 1) (Some (date 2024 1 1))
     (Some (date 2024 6 1)) (VObj [("rate", VNum 5)]) [];
   mkDocument (VStr "doc-b") (VNum 1) (Some (date 2024 6 1)) None
     (VObj [("rate", VNum 7)]) []].

(** C1 breaks on the code: the two documents of [sequential_documents]
    have disjoint, sequential intervals, and [findConflicts] reports their
    field as a conflict.  The values gathered per field carry no
    [effectiveTo], so every interval is read as running to 9999-12-31. *)
Theorem findConflicts_flags_sequential_intervals :
  half_open_overlap (date 2024 1 1) (Some (date 2024 6 1))
    (date 2024 6 1) None = false /\
  let report := findConflicts sequential_documents None in
  hasConflicts report = true /\
  map c_field (conflicts report) = ["rate"] /\
  map (fun c => map fv_effectiveTo (c_documents c)) (conflicts report)
    = [[None; None]] /\
  map (fun c => map (fun o => (ov_overlapStart o, ov_overlapEnd o))
                  (c_overlappingPeriods c)) (conflicts report)
    = [[(date 2024 6 1, date 9999 12 31)]].
Proof. repeat split. Qed.

(** As [findConflicts] gathers them, any two values dated no later than
    9999-12-31 overlap, whatever the documents gave as [effectiveTo]. *)
Lemma gathered_values_always_overlap (a b : FieldValue) (aFrom bFrom : time) :
  fv_effectiveFrom a = Some aFrom -> fv_effectiveFrom b = Some bFrom ->
  fv_effectiveTo a = None -> fv_effectiveTo b = None ->
  (aFrom <= end_of_time)%Z -> (bFrom <= end_of_time)%Z ->
  _findOverlappingPeriods [a; b]
  = [mkOverlap (fv_documentId a, fv_documentId b) (Z.max aFrom bFrom)
       end_of_time].
Proof.
  intros Ha Hb Hta Htb Hla Hlb. simpl. unfold overlaps_with. simpl.
  rewrite Ha, Hb, Hta, Htb. cbn [time_or].
  apply Z.leb_le in Hla, Hlb. rewrite Hla, Hlb. cbn [andb app].
  now rewrite Z.min_id.
Qed.

(** *** Equality of values *)

Lemma strict_eq_sym a b : strict_eq a b = strict_eq b a.
Proof.
  destruct a, b; simpl; auto.
  - destruct b, b0; reflexivity.
  - apply Z.eqb_sym.
  - destruct negative0, negative1; reflexivity.
  - apply String.eqb_sym.
Qed.

Lemma jstype_eqb_sym a b : jstype_eqb a b = jstype_eqb b a.
Proof. destruct a, b; reflexivity. Qed.

Lemma opt_string_eqb_sym a b : opt_string_eqb a b = opt_string_eqb b a.
Proof. destruct a, b; simpl; auto using String.eqb_sym. Qed.

Lemma opt_string_eqb_refl a : opt_string_eqb a a = true.
Proof. destruct a; simpl; auto using String.eqb_refl. Qed.

Lemma _areEqual_sym a b : _areEqual a b = _areEqual b a.
Proof.
  unfold _areEqual.
  rewrite (strict_eq_sym b a), (jstype_eqb_sym (typeof b) (typeof a)),
    (opt_string_eqb_sym (JSON_stringify b)).
  destruct (strict_eq a b); [reflexivity|].
  destruct (jstype_eqb (typeof a) (typeof b)) eqn:E; [|reflexivity]. simpl.
  assert (typeof a = typeof b) as ->
    by (destruct (typeof a), (typeof b); try discriminate; reflexivity).
  reflexivity.
Qed.

(** A value equals itself, NaN apart: [NaN === NaN] is false, and a
    number is not compared through its serialization. *)
Lemma _areEqual_same a : _areEqual a a = negb (isNaN a).
Proof.
  unfold _areEqual. destruct a; simpl; try reflexivity.
  - now destruct b.
  - now rewrite Z.eqb_refl.
  - now destruct negative0.
  - now rewrite String.eqb_refl.
  - apply String.eqb_refl.
  - apply String.eqb_refl.
Qed.

Lemma _areEqual_refl a : isNaN a = false -> _areEqual a a = true.
Proof. intros H. now rewrite _areEqual_same, H. Qed.

(** *** The nested comparison *)

(** A value that is not an object never reaches [_compareObjects]. *)
Lemma compareValues_leaf nested nested' deep a b f :
  typeof a <> TObject ->
  compareValues_with nested deep a b f = compareValues_with nested' deep a b f.
Proof.
  intros Ha. unfold compareValues_with.
  destruct a; try (now elim Ha); destruct b; try reflexivity;
    cbn [typeof jstype_eqb andb]; rewrite ?andb_false_r; reflexivity.
Qed.

Lemma typeof_elem_string s key : typeof (elem (VStr s) key) <> TObject.
Proof.
  simpl. destruct (key =? "length"); [discriminate|].
  destruct (index_of_string key) as [i|]; [|discriminate].
  destruct (String.get i s); discriminate.
Qed.

(** [_compareObjects] as the source has it: over the union of the keys,
    [_compareValues(objA?.[key], objB?.[key], key)], keeping what is not
    null. *)
Lemma _compareObjects_by_key deep objA objB :
  _compareObjects deep objA objB
  = let allKeys :=
      dedup String.eqb
        (Object_keys (or_else objA (VObj [])) ++
         Object_keys (or_else objB (VObj [])))%list in
    let changes :=
      flat_map (fun key =>
        opt_list (compareValues_with (_compareObjects deep) deep
                    (elem objA key) (elem objB key) key)) allKeys in
    ObjectDetails (List.length changes) changes.
Proof.
  set (self := compareValues_with (_compareObjects deep) deep).
  assert (Hleaf : forall a b f, typeof a <> TObject ->
            compareValues_with (fun _ _ => NoDetails) deep a b f = self a b f)
    by (intros; now apply compareValues_leaf).
  assert (Hundef : typeof VUndef <> TObject) by discriminate.
  cbv zeta.
  destruct objA as [| |bo|z| |n|s|l|props];
    cbn [_compareObjects]; fold self;
    try (match goal with
         | |- ObjectDetails _ ?x = ObjectDetails _ ?y =>
             assert (E : x = y); [|now rewrite E]
         end);
    apply flat_map_ext; intros key; f_equal.
  - now apply Hleaf.
  - now apply Hleaf.
  - now apply Hleaf.
  - now apply Hleaf.
  - now apply Hleaf.
  - now apply Hleaf.
  - apply Hleaf. apply typeof_elem_string.
  - cbn [elem]. destruct (key =? "length"); [now apply Hleaf|].
    destruct (index_of_string key) as [i|]; [|now apply Hleaf].
    revert i. induction l as [|v l IH]; intros [|i]; cbn [nth];
      try (now apply Hleaf); auto.
  - cbn [elem]. induction props as [|[k v] props IH]; cbn [prop].
    + now apply Hleaf.
    + destruct (k =? key); auto.
Qed.

(** *** A value against itself *)

(** What the comparison of NaN with NaN reports under the field [f]. *)
Definition NaN_difference (f : string) : Difference :=
  mkDifference f numeric_change VNaN VNaN NaN (NumericDetails NaN (Some NaN)).

(** A value compared with itself gives no difference, unless it is NaN:
    then it gives a numeric change. *)
Lemma compareValues_same nested deep v f :
  compareValues_with nested deep v v f
  = if isNaN v then Some (NaN_difference f) else None.
Proof.
  unfold compareValues_with.
  destruct (isUndefined v); simpl; rewrite _areEqual_same;
    destruct v; try reflexivity; discriminate.
Qed.

(** The fields of a document that [compare] looks at and that hold
    NaN. *)
Definition NaN_fields (this : Comparator) (docA : Document) : list string :=
  filter (fun f => negb (existsb (String.eqb f) (ignoreFields this))
                   && isNaN (elem (data_of docA) f))
    (dedup String.eqb
       (Object_keys (data_of docA) ++ Object_keys (data_of docA))%list).

(** A document compared with itself: the differences are one numeric
    change for each compared field that holds NaN, and no other. *)
Lemma compare_with_itself_lists_NaN (this : Comparator) (docA : Document)
  (env : Env) :
  differences (compare this docA docA env)
  = map NaN_difference (NaN_fields this docA).
Proof.
  unfold compare, NaN_fields. cbn [differences].
  induction (dedup String.eqb
               (Object_keys (data_of docA) ++ Object_keys (data_of docA))%list)
    as [|k ks IH]; [reflexivity|].
  cbn [flat_map filter]. rewrite IH.
  destruct (existsb (String.eqb k) (ignoreFields this)); [reflexivity|].
  unfold _compareValues. rewrite compareValues_same.
  now destruct (isNaN (elem (data_of docA) k)).
Qed.

(** A document none of whose compared fields holds NaN, compared with
    itself: [identical] is true and the list of differences is empty;
    and [identical] is true of no other document compared with itself. *)
Lemma compare_with_itself (this : Comparator) (docA : Document) (env : Env) :
  (NaN_fields this docA = [] ->
   identical (compare this docA docA env) = true /\
   differences (compare this docA docA env) = []) /\
  (identical (compare this docA docA env) = true ->
   NaN_fields this docA = []).
Proof.
  assert (H : identical (compare this docA docA env)
              = (List.length (differences (compare this docA docA env)) =? 0)%nat)
    by reflexivity.
  rewrite H, compare_with_itself_lists_NaN. split.
  - intros ->. split; reflexivity.
  - destruct (NaN_fields this docA); [reflexivity|discriminate].
Qed.

(** C9.  A document one field of which holds NaN, compared with itself.
    [_areEqual] answers false for the field, since [NaN === NaN] is false
    and a number is not compared through its serialization: the field is
    listed as a numeric change from NaN to NaN and [identical] is false.
    The same NaN one level down, inside an object or an array, gives no
    difference. *)
Theorem compare_with_itself_at_NaN :
  let this := constructor (mkOptions None None None) in
  let env := mkEnv 0%Z "uuid" in
  let record (fields : obj) :=
    mkDocument (VStr "doc-1") (VNum 1) None None (VObj fields)
      [("id", VStr "doc-1"); ("version", VNum 1); ("data", VObj fields)] in
  let docA := record [("vendor", VStr "Acme"); ("amount", VNaN)] in
  let nested := record [("vendor", VStr "Acme");
                        ("totals", VObj [("amount", VNaN)]);
                        ("lines", VArr [VNaN])] in
  identical (compare this docA docA env) = false /\
  differences (compare this docA docA env)
    = [mkDifference "amount" numeric_change VNaN VNaN NaN
         (NumericDetails NaN (Some NaN))] /\
  summary (compare this docA docA env) = "1 field(s) modified" /\
  _areEqual VNaN VNaN = false /\
  identical (compare this nested nested env) = true.
Proof. repeat split. Qed.

(** *** The two directions of a comparison *)

(** How the difference list classifies a field, if it lists it. *)
Definition classification (c : Comparison) (f : string) : option DiffType :=
  option_map type (find (fun d => field d =? f) (differences c)).

(** [added] and [removed] exchanged, the other types kept. *)
Definition mirrored (t : DiffType) : DiffType :=
  match t with
  | added => removed
  | removed => added
  | other => other
  end.

Lemma compareValues_field nested deep a b f d :
  compareValues_with nested deep a b f = Some d -> field d = f.
Proof.
  unfold compareValues_with.
  destruct (isUndefined a && negb (isUndefined b));
    [intros H; inversion H; reflexivity|].
  destruct (negb (isUndefined a) && isUndefined b);
    [intros H; inversion H; reflexivity|].
  destruct (_areEqual a b); [discriminate|].
  destruct a, b;
    try (intros H; inversion H; reflexivity);
    destruct deep; intros H; inversion H; reflexivity.
Qed.

Lemma compareValues_mirrored nested nested' deep a b f :
  option_map type (compareValues_with nested deep b a f)
  = option_map mirrored (option_map type (compareValues_with nested' deep a b f)).
Proof.
  unfold compareValues_with. rewrite (_areEqual_sym b a).
  destruct a, b; cbn [isUndefined negb andb]; try reflexivity;
    destruct (_areEqual _ _); try reflexivity;
    destruct deep; reflexivity.
Qed.

Lemma In_dedup (l : list string) x : In x (dedup String.eqb l) <-> In x l.
Proof.
  induction l as [|y l IH]; simpl; [tauto|].
  rewrite filter_In, IH. split.
  - intros [H|[H _]]; auto.
  - intros [H|H]; auto.
    destruct (String.eqb_spec y x) as [E|E]; [now left|].
    right. split; [exact H | reflexivity].
Qed.

Lemma NoDup_dedup (l : list string) : NoDup (dedup String.eqb l).
Proof.
  induction l as [|y l IH]; simpl; constructor.
  - rewrite filter_In. intros [_ H]. now rewrite String.eqb_refl in H.
  - now apply NoDup_filter.
Qed.

Lemma existsb_same_members (l l' : list string) f :
  (forall x, In x l <-> In x l') ->
  existsb (String.eqb f) l = existsb (String.eqb f) l'.
Proof.
  intros H. apply eq_true_iff_eq. rewrite !existsb_exists. split.
  - intros (x & Hx & E). exists x. split; auto. now apply H.
  - intros (x & Hx & E). exists x. split; auto. now apply H.
Qed.

(** The union of field names does not depend on the order of the two
    documents. *)
Lemma allFields_same_members (ka kb : list string) x :
  In x (dedup String.eqb (ka ++ kb)) <-> In x (dedup String.eqb (kb ++ ka)).
Proof. rewrite !In_dedup, !in_app_iff. tauto. Qed.

(** What [compare] pushes for one field. *)
Definition difference_at (this : Comparator) (dataA dataB : value)
  (f : string) : option Difference :=
  if existsb (String.eqb f) (ignoreFields this) then None
  else _compareValues this (elem dataA f) (elem dataB f) f.

Lemma differences_by_field this docA docB env :
  differences (compare this docA docB env)
  = flat_map (fun f => opt_list (difference_at this (data_of docA)
                                   (data_of docB) f))
      (dedup String.eqb
         (Object_keys (data_of docA) ++ Object_keys (data_of docB))).
Proof.
  unfold compare. cbn [differences]. apply flat_map_ext. intros f.
  unfold difference_at.
  now destruct (existsb (String.eqb f) (ignoreFields this)).
Qed.

Lemma difference_at_field this a b f d :
  difference_at this a b f = Some d -> field d = f.
Proof.
  unfold difference_at, _compareValues.
  destruct (existsb _ _); [discriminate|]. apply compareValues_field.
Qed.

Lemma difference_at_mirrored this a b f :
  option_map type (difference_at this b a f)
  = option_map mirrored (option_map type (difference_at this a b f)).
Proof.
  unfold difference_at, _compareValues.
  destruct (existsb _ _); [reflexivity|]. apply compareValues_mirrored.
Qed.

Section OnePerField.

Variable h : string -> option Difference.
Hypothesis h_field : forall k d, h k = Some d -> field d = k.

Lemma find_by_field (l : list string) f :
  find (fun d => field d =? f) (flat_map (fun k => opt_list (h k)) l)
  = if existsb (String.eqb f) l then h f else None.
Proof.
  induction l as [|k l IH]; [reflexivity|].
  cbn [flat_map existsb]. destruct (h k) as [d|] eqn:Hk; cbn [opt_list app].
  - cbn [find]. rewrite (h_field _ _ Hk), (String.eqb_sym f k).
    destruct (String.eqb_spec k f) as [->|Hne]; [now rewrite Hk | exact IH].
  - rewrite IH. destruct (String.eqb_spec f k) as [->|Hne]; [|reflexivity].
    cbn [orb]. rewrite Hk. now destruct (existsb _ l).
Qed.

Lemma fields_come_from_keys (l : list string) f :
  In f (map field (flat_map (fun k => opt_list (h k)) l)) -> In f l.
Proof.
  rewrite in_map_iff. intros (d & <- & Hd).
  apply in_flat_map in Hd. destruct Hd as (k & Hk & Hd).
  destruct (h k) as [d'|] eqn:E; [|contradiction].
  destruct Hd as [<-|[]]. now rewrite (h_field _ _ E).
Qed.

Lemma one_difference_per_field (l : list string) :
  NoDup l -> NoDup (map field (flat_map (fun k => opt_list (h k)) l)).
Proof.
  induction 1 as [|k l Hk Hl IH]; [constructor|].
  cbn [flat_map]. destruct (h k) as [d|] eqn:E; cbn [opt_list app map]; auto.
  constructor; auto. rewrite (h_field _ _ E).
  intros Hin. apply Hk. now apply fields_come_from_keys.
Qed.

End OnePerField.

Lemma classified_iff_listed (c : Comparison) f :
  classification c f <> None <-> In f (map field (differences c)).
Proof.
  unfold classification. rewrite in_map_iff. split.
  - destruct (find _ _) as [d|] eqn:F; [|now intros []].
    intros _. apply find_some in F. destruct F as [Hin E].
    apply String.eqb_eq in E. eauto.
  - intros (d & E & Hin). destruct (find _ _) eqn:F; [discriminate|].
    apply (find_none _ _ F) in Hin. rewrite E, String.eqb_refl in Hin.
    discriminate.
Qed.

(** C6.  [compare(A, B)] and [compare(B, A)] list the same fields, each
    once; a field is [added] in one exactly when it is [removed] in the
    other, and carries the same type in both otherwise; the two lists
    have the same length. *)
Theorem compare_is_mirrored (this : Comparator) (docA docB : Document)
  (envAB envBA : Env) :
  let ab := compare this docA docB envAB in
  let ba := compare this docB docA envBA in
  (forall f, In f (map field (differences ab))
             <-> In f (map field (differences ba))) /\
  NoDup (map field (differences ab)) /\
  NoDup (map field (differences ba)) /\
  (forall f, classification ba f = option_map mirrored (classification ab f)) /\
  List.length (differences ba) = List.length (differences ab).
Proof.
  intros ab ba.
  set (a := data_of docA). set (b := data_of docB).
  assert (Hclass : forall f, classification ba f
                             = option_map mirrored (classification ab f)).
  { intros f. unfold classification, ab, ba.
    rewrite !differences_by_field.
    rewrite !find_by_field by (intros k d; apply difference_at_field).
    fold a b.
    rewrite (existsb_same_members _ _ f
               (allFields_same_members (Object_keys b) (Object_keys a))).
    destruct (existsb _ _); [|reflexivity].
    apply difference_at_mirrored. }
  split; [|split; [|split; [|split]]].
  - intros f. rewrite <- !classified_iff_listed, Hclass.
    destruct (classification ab f); simpl; split; congruence.
  - unfold ab. rewrite differences_by_field.
    apply one_difference_per_field; [|apply NoDup_dedup].
    intros k d. apply difference_at_field.
  - unfold ba. rewrite differences_by_field.
    apply one_difference_per_field; [|apply NoDup_dedup].
    intros k d. apply difference_at_field.
  - exact Hclass.
  - unfold ab, ba. rewrite !differences_by_field. fold a b.
    assert (Hperm : Permutation
                      (dedup String.eqb (Object_keys b ++ Object_keys a))
                      (dedup String.eqb (Object_keys a ++ Object_keys b))).
    { apply NoDup_Permutation; try apply NoDup_dedup.
      intros x. apply allFields_same_members. }
    rewrite (Permutation_length (Permutation_flat_map _ Hperm)).
    rewrite !flat_map_concat_map, !length_concat, !map_map.
    f_equal. apply map_ext. intros f.
    pose proof (difference_at_mirrored this a b f) as Hm.
    destruct (difference_at this a b f), (difference_at this b a f);
      simpl in *; congruence.
Qed.

End ComparatorFacts.

(* ================================================================== *)
(** ** More of the register: audit log, indexes, lifecycle *)
(* ================================================================== *)

Module RegisterMore.
Import JS DocumentRegister RegisterFacts.
Local Open Scope list_scope.

(** *** The register after add, update and archive, in full *)

Definition logged (enabled : bool) (action documentId : string)
  (details : AuditDetails) (env : Env) (this : Register) : Register :=
  if enabled then snd (_logAudit action documentId details env this) else this.

Definition stored (id : string) (entry : Entry) (this : Register) : Register :=
  set_storage this (Map_set (storage this) id entry).

Definition indexed (entry : Entry) (this : Register) : Register :=
  snd (_updateIndexes entry this).

Lemma add_state document options env this :
  nullish document = false ->
  let id := str_or (ao_id options) (uuid env) in
  let entry := new_entry this id document options (now env) in
  add document options env this
  = (Returned (mkAddResult id 1 (now env) "created"),
     logged (enableAuditLog this) "ADD" id
       (AddDetails 1 (e_effectiveFrom entry) (ao_userId options)) env
       (indexed entry (stored id entry this))).
Proof.
  intros Hdoc id entry. unfold add. rewrite Hdoc.
  unfold logged, bind, read, modify, ret. cbv beta iota.
  destruct (enableAuditLog this); reflexivity.
Qed.

Lemma update_state id document options env this existing :
  Map_get (storage this) id = Some existing ->
  nullish document = false ->
  let updated := updated_entry this existing document options (now env) in
  update id document options env this
  = (Returned (mkUpdateResult id (e_version existing + 1) (e_version existing)
                 (now env) "updated"),
     logged (enableAuditLog this) "UPDATE" id
       (UpdateDetails (e_version existing) (e_version existing + 1)
          (e_effectiveFrom updated) (uo_userId options)
          (uo_changeReason options)) env
       (indexed updated (stored id updated this))).
Proof.
  intros Hget Hdoc updated. unfold update. unfold bind at 1.
  rewrite get_no_options, Hget. cbn [option_map]. rewrite Hdoc.
  unfold logged, bind, read, modify, ret. cbv beta iota.
  destruct (enableAuditLog this); reflexivity.
Qed.

Lemma update_fails id document options env this :
  Map_get (storage this) id = None \/ nullish document = true ->
  snd (update id document options env this) = this.
Proof.
  intros H. unfold update. unfold bind at 1. rewrite get_no_options.
  destruct (Map_get (storage this) id) as [e|]; cbn [option_map].
  - destruct H as [H|H]; [discriminate|]. now rewrite H.
  - reflexivity.
Qed.

Lemma archive_state id options env this entry :
  Map_get (storage this) id = Some entry ->
  archive id options env this
  = (Returned (mkArchiveResult id "archived" (now env)),
     logged (enableAuditLog this) "ARCHIVE" id
       (ArchiveDetails (arc_reason options) (arc_userId options)) env
       (stored id (archived_entry entry (now env) (arc_reason options)) this)).
Proof.
  intros Hget. unfold archive. unfold bind at 1.
  rewrite get_no_options, Hget. cbn [option_map].
  unfold logged, stored, bind, read, modify, ret. cbv beta iota.
  change (enableAuditLog (set_storage this _)) with (enableAuditLog this).
  destruct (enableAuditLog this); reflexivity.
Qed.

Lemma archive_fails id options env this :
  Map_get (storage this) id = None ->
  archive id options env this = (Thrown (DocumentNotFound id), this).
Proof.
  intros H. unfold archive, bind. now rewrite get_no_options, H.
Qed.

Lemma auditLog_indexed entry this : auditLog (indexed entry this) = auditLog this.
Proof.
  unfold indexed. destruct (updateIndexes_frame entry this) as (t & E & _ & A & _).
  now rewrite E.
Qed.

Lemma storage_indexed entry this : storage (indexed entry this) = storage this.
Proof.
  unfold indexed. destruct (updateIndexes_frame entry this) as (t & E & S & _).
  now rewrite E.
Qed.

Lemma storage_logged b a i d env this :
  storage (logged b a i d env this) = storage this.
Proof. unfold logged. now destruct b. Qed.

Lemma indexes_logged b a i d env this :
  indexes (logged b a i d env this) = indexes this.
Proof. unfold logged. now destruct b. Qed.

Lemma auditLog_logged b a i d env this :
  auditLog (logged b a i d env this)
  = auditLog this ++ (if b then [mkAudit (now env) a i d] else []).
Proof. unfold logged. destruct b; simpl; now rewrite ?app_nil_r. Qed.

(** *** The audit log *)

Definition returned {A : Type} (r : Outcome A * Register) : bool :=
  match fst r with Returned _ => true | Thrown _ => false end.

Section AuditLog.

Variable js_lt : value -> value -> bool.
Variable RegExp : value -> value -> option (string -> bool).

(** Whether the operation returned rather than threw. *)
Definition went_through (op : Operation) (this : Register) : bool :=
  match op with
  | Add document options env => returned (add document options env this)
  | Get id options => returned (get id options this)
  | List_ options => returned (list_ js_lt options this)
  | Search query limit => returned (search js_lt RegExp query limit this)
  | Archive id options env => returned (archive id options env this)
  | Update id document options env =>
      returned (update id document options env this)
  | Export options audit env => returned (export js_lt options audit env this)
  end.

(** The action, the document id and the instant of the audit record a
    writing operation asks for. *)
Definition audit_stamp (op : Operation) : option (string * string * time) :=
  match op with
  | Add _ options env =>
      Some ("ADD", str_or (ao_id options) (uuid env), now env)
  | Update id _ _ env => Some ("UPDATE", id, now env)
  | Archive id _ env => Some ("ARCHIVE", id, now env)
  | _ => None
  end.

Definition stamp_of (l : AuditLogEntry) : string * string * time :=
  (a_action l, a_documentId l, a_timestamp l).

(** X1.  The audit log only grows, and by at most one record per call:
    whatever operation runs (add, get, list, search, archive, update or
    export), the log afterwards is the log before followed by the new
    records.  There is exactly one new record, carrying the operation's
    action name, document id and clock reading, when the operation is an
    add, update or archive that returned and audit logging is on; in
    every other case (a read, a call that threw, logging switched off)
    nothing is appended. *)
Theorem audit_log_only_grows (this : Register) (op : Operation) :
  exists new,
    auditLog (after js_lt RegExp op this) = auditLog this ++ new /\
    map stamp_of new =
      match audit_stamp op with
      | Some stamp =>
          if went_through op this && enableAuditLog this then [stamp] else []
      | None => []
      end.
Proof.
  destruct op as [document options env | id options | options | query limit
                 | id options env | id document options env
                 | options audit env];
    cbn [after audit_stamp went_through].
  - destruct (nullish document) eqn:Hdoc.
    + exists []. unfold add, returned. rewrite Hdoc. cbn.
      now rewrite app_nil_r.
    + rewrite (add_state document options env this Hdoc).
      eexists. split.
      * cbn [snd]. rewrite auditLog_logged, auditLog_indexed. reflexivity.
      * unfold returned. cbn [fst andb].
        now destruct (enableAuditLog this).
  - exists []. split; [|reflexivity]. rewrite app_nil_r.
    unfold get. destruct (Map_get (storage this) id) as [e|]; [|reflexivity].
    destruct (match go_version options with Some _ => _ | None => _ end).
    + now destruct (find _ _).
    + destruct (go_asOf options); [|reflexivity].
      destruct (effective_at _ _ _); [reflexivity|].
      now destruct (find _ _).
  - exists []. now rewrite app_nil_r.
  - exists []. rewrite search_is_pure. now rewrite app_nil_r.
  - destruct (Map_get (storage this) id) as [e|] eqn:Hget.
    + rewrite (archive_state id options env this e Hget).
      eexists. split.
      * cbn [snd]. rewrite auditLog_logged. reflexivity.
      * unfold returned. cbn [fst andb]. now destruct (enableAuditLog this).
    + rewrite (archive_fails id options env this Hget).
      exists []. cbn. now rewrite app_nil_r.
  - destruct (Map_get (storage this) id) as [e|] eqn:Hget.
    + destruct (nullish document) eqn:Hdoc.
      * exists []. rewrite update_fails by now right.
        split; [now rewrite app_nil_r|].
        unfold update, returned, bind. rewrite get_no_options, Hget.
        cbn [option_map]. now rewrite Hdoc.
      * rewrite (update_state id document options env this e Hget Hdoc).
        eexists. split.
        -- cbn [snd]. rewrite auditLog_logged, auditLog_indexed. reflexivity.
        -- unfold returned. cbn [fst andb]. now destruct (enableAuditLog this).
    + exists []. rewrite update_fails by now left.
      split; [now rewrite app_nil_r|].
      unfold update, returned, bind. now rewrite get_no_options, Hget.
  - exists []. now rewrite app_nil_r.
Qed.

End AuditLog.

(** The test a record has to pass under the given options: each filter
    that is given (and not the empty string) has to hold. *)
Definition wanted (options : AuditOptions) (l : AuditLogEntry) : bool :=
  match al_documentId options with
  | Some d => (d =? "") || (a_documentId l =? d)
  | None => true
  end &&
  match al_action options with
  | Some a => (a =? "") || (a_action l =? a)
  | None => true
  end &&
  match al_since options with
  | Some since => (a_timestamp l >=? since)%Z
  | None => true
  end.

Definition limit_of (options : AuditOptions) : nat :=
  match al_limit options with
  | Some 0 | None => 1000
  | Some n => n
  end.

Lemma filter_filter {A : Type} (f g : A -> bool) (l : list A) :
  filter f (filter g l) = filter (fun x => g x && f x) l.
Proof.
  induction l as [|x l IH]; simpl; [reflexivity|].
  destruct (g x); simpl; [destruct (f x)|]; now rewrite IH.
Qed.

Lemma filter_true {A : Type} (l : list A) : filter (fun _ => true) l = l.
Proof. induction l; simpl; congruence. Qed.

Lemma filter_optional {A : Type} (b : bool) (f : A -> bool) (l : list A) :
  (if b then l else filter f l) = filter (fun x => b || f x) l.
Proof. destruct b; simpl; [now rewrite filter_true | reflexivity]. Qed.

Lemma getAuditLog_filters options this :
  getAuditLog options this
  = last_n (limit_of options) (filter (wanted options) (auditLog this)).
Proof.
  unfold getAuditLog, limit_of. f_equal.
  replace (filter (wanted options) (auditLog this))
    with (filter (fun l => match al_since options with
                           | Some since => (a_timestamp l >=? since)%Z
                           | None => true
                           end)
            (filter (fun l => match al_action options with
                              | Some a => (a =? "") || (a_action l =? a)
                              | None => true
                              end)
               (filter (fun l => match al_documentId options with
                                 | Some d => (d =? "") || (a_documentId l =? d)
                                 | None => true
                                 end) (auditLog this)))).
  - destruct (al_documentId options) as [d|], (al_action options) as [a|],
      (al_since options) as [s|];
      rewrite ?filter_optional, ?filter_true; reflexivity.
  - rewrite !filter_filter. apply filter_ext. intros l. unfold wanted.
    apply andb_assoc.
Qed.

(** X2.  getAuditLog answers with the most recent records that pass
    every given filter (document id, action, since), in the order they
    were logged: the matching records of the log are some older ones
    followed by exactly the answer, and the answer holds [limit] of
    them (1000 when no limit, or 0, is given), or all when there are
    fewer. *)
Theorem getAuditLog_latest_matches (options : AuditOptions) (this : Register) :
  exists older,
    filter (wanted options) (auditLog this)
      = older ++ getAuditLog options this /\
    List.length (getAuditLog options this)
      = Nat.min (limit_of options)
          (List.length (filter (wanted options) (auditLog this))).
Proof.
  rewrite getAuditLog_filters. unfold last_n.
  set (logs := filter _ _). set (n := limit_of options).
  exists (firstn (List.length logs - n) logs). split.
  - now rewrite firstn_skipn.
  - rewrite length_skipn. lia.
Qed.

(** *** Every version stays readable *)

(** The data a document hands to add and update. *)
Definition payload (document : value) : value :=
  or_else (member document "data") document.

(** The versions an entry holds, oldest first: number and data. *)
Definition versions_of (e : Entry) : list (Z * value) :=
  map (fun h => (h_version h, h_data h)) (e_history e)
  ++ [(e_version e, e_data e)].

Definition documents_of (us : list (value * UpdateOptions * Env)) : list value :=
  map (fun u => fst (fst u)) us.

Lemma update_all_timeline us : forall this id e,
  enableVersioning this = true ->
  Map_get (storage this) id = Some e ->
  Forall is_document us ->
  exists rs this' e',
    update_all id us this = (Returned rs, this') /\
    Map_get (storage this') id = Some e' /\
    versions_of e' =
      versions_of e
      ++ combine (from (e_version e + 1) (List.length us))
           (map payload (documents_of us)).
Proof.
  induction us as [|[[document options] env] us IH]; intros this id e Hv Hget Hdocs.
  - exists [], this, e. simpl. unfold ret. now rewrite app_nil_r.
  - inversion Hdocs as [|u us' Hdoc Hrest]; subst. unfold is_document in Hdoc.
    simpl in Hdoc.
    destruct (update_returns id document options env this e Hget Hdoc)
      as (this1 & E1 & S1 & C1).
    assert (Hget1 : Map_get (storage this1) id =
                    Some (updated_entry this e document options (now env)))
      by (rewrite S1; apply Map_get_set_same).
    assert (Hv1 : enableVersioning this1 = true)
      by (destruct C1 as (_ & _ & Hc & _); congruence).
    destruct (IH this1 id _ Hv1 Hget1 Hrest) as (rs & this' & e' & E & G & V).
    exists (mkUpdateResult id (e_version e + 1) (e_version e) (now env) "updated"
              :: rs), this', e'.
    simpl update_all. unfold bind at 1. rewrite E1.
    unfold bind at 1. rewrite E. unfold ret.
    repeat split; auto.
    rewrite V. unfold versions_of at 1.
    cbn [updated_entry e_history e_version e_data]. rewrite Hv.
    cbn [List.length documents_of map]. rewrite from_S.
    cbn [combine fst]. rewrite map_app. cbn [map history_entry h_version h_data].
    unfold versions_of, payload. rewrite <- !app_assoc. reflexivity.
Qed.

Lemma add_then_update_timeline this document options env us :
  enableVersioning this = true ->
  nullish document = false ->
  Forall is_document us ->
  let id := str_or (ao_id options) (uuid env) in
  exists rs this' entry,
    add_then_update document options env us this
      = (Returned (mkAddResult id 1 (now env) "created", rs), this') /\
    Map_get (storage this') id = Some entry /\
    versions_of entry =
      combine (from 1 (S (List.length us)))
        (map payload (document :: documents_of us)).
Proof.
  intros Hv Hdoc Hdocs id.
  destruct (add_returns document options env this Hdoc) as (this1 & E1 & S1 & C1).
  fold id in E1, S1.
  assert (Hget1 : Map_get (storage this1) id =
                  Some (new_entry this id document options (now env)))
    by (rewrite S1; apply Map_get_set_same).
  assert (Hv1 : enableVersioning this1 = true)
    by (destruct C1 as (_ & _ & Hc & _); congruence).
  destruct (update_all_timeline us this1 id _ Hv1 Hget1 Hdocs)
    as (rs & this' & e' & E & G & V).
  exists rs, this', e'.
  unfold add_then_update. unfold bind at 1. rewrite E1.
  unfold bind at 1. cbn [ar_id]. rewrite E. unfold ret.
  repeat split; auto.
  rewrite V. rewrite from_S. reflexivity.
Qed.

Lemma map_fst_combine {A B : Type} (l : list A) : forall (l' : list B),
  List.length l = List.length l' -> map fst (combine l l') = l.
Proof.
  induction l as [|a l IH]; intros [|b l'] H; simpl in *; try congruence.
  f_equal. apply IH. congruence.
Qed.

Lemma map_snd_combine {A B : Type} (l : list A) : forall (l' : list B),
  List.length l = List.length l' -> map snd (combine l l') = l'.
Proof.
  induction l as [|a l IH]; intros [|b l'] H; simpl in *; try congruence.
  f_equal. apply IH. congruence.
Qed.

Lemma from_snoc v n : from v (S n) = from v n ++ [(v + Z.of_nat n)%Z].
Proof. unfold from. now rewrite seq_S, map_app. Qed.

(** An entry that holds the versions 1..n+1 with the data [ps]. *)
Lemma versions_split e n ps :
  List.length ps = S n ->
  versions_of e = combine (from 1 (S n)) ps ->
  map h_version (e_history e) = from 1 n /\
  e_version e = (1 + Z.of_nat n)%Z /\
  ps = map h_data (e_history e) ++ [e_data e].
Proof.
  intros Hlen Hvs.
  assert (Hl : List.length (from 1 (S n)) = List.length ps)
    by now rewrite length_from.
  pose proof (f_equal (map fst) Hvs) as Hf.
  pose proof (f_equal (map snd) Hvs) as Hs.
  rewrite map_fst_combine in Hf by exact Hl.
  rewrite map_snd_combine in Hs by exact Hl.
  unfold versions_of in Hf, Hs. rewrite map_app, map_map in Hf, Hs.
  cbn [map fst snd] in Hf, Hs. rewrite from_snoc in Hf.
  apply app_inj_tail in Hf. destruct Hf as [Hf1 Hf2].
  repeat split; auto.
Qed.

Lemma find_by_version (hs : list HistoryRecord) : forall v n j t d,
  map h_version hs = from v n ->
  (j < n)%nat ->
  t = (v + Z.of_nat j)%Z ->
  find (fun h => (h_version h =? t)%Z) hs = Some (nth j hs d).
Proof.
  induction hs as [|h hs IH]; intros v [|n] j t d Hm Hj Ht; try lia.
  - rewrite from_S in Hm. discriminate.
  - rewrite from_S in Hm. cbn [map] in Hm. injection Hm as Hh Hm.
    destruct j as [|j]; cbn [find nth].
    + replace (h_version h =? t)%Z with true; [reflexivity|].
      symmetry. apply Z.eqb_eq. lia.
    + replace (h_version h =? t)%Z with false.
      * apply (IH (v + 1)%Z n); [exact Hm | lia | lia].
      * symmetry. apply Z.eqb_neq. lia.
Qed.

Definition answer_number (r : GetResult) : Z :=
  match r with Current e => e_version e | Historic v => hv_version v end.

Definition answer_data (r : GetResult) : value :=
  match r with Current e => e_data e | Historic v => hv_data v end.

(** X3.  Every version ever written stays readable by its number.
    After one add and any number of updates on the id it returned, on a
    register that keeps versions, get with [version: j+1] returns, for
    every j up to the number of updates, the data handed to the j-th
    write (the add being write 0), under version number j+1, and leaves
    the register as it is. *)
Theorem every_version_stays_readable (this : Register) (document : value)
  (options : AddOptions) (env : Env) (us : list (value * UpdateOptions * Env))
  (j : nat) :
  enableVersioning this = true ->
  nullish document = false ->
  Forall is_document us ->
  (j <= List.length us)%nat ->
  exists a rs this' r,
    add_then_update document options env us this = (Returned (a, rs), this') /\
    get (ar_id a) (mkGetOptions (Some (Z.of_nat j + 1)%Z) None) this'
      = (Returned (Some r), this') /\
    answer_number r = (Z.of_nat j + 1)%Z /\
    answer_data r = payload (nth j (document :: documents_of us) VUndef).
Proof.
  intros Hv Hdoc Hdocs Hj.
  destruct (add_then_update_timeline this document options env us Hv Hdoc Hdocs)
    as (rs & this' & entry & E & G & V).
  set (id := str_or (ao_id options) (uuid env)) in *.
  set (docs := document :: documents_of us) in *.
  assert (Hlen : List.length (map payload docs) = S (List.length us)).
  { unfold docs, documents_of. cbn [map List.length]. now rewrite !length_map. }
  destruct (versions_split entry _ _ Hlen V) as (Hh & Hn & Hps).
  assert (Hhl : List.length (e_history entry) = List.length us).
  { rewrite <- (length_map h_version), Hh. apply length_from. }
  assert (Hnth : forall d, nth j (map payload docs) d
                           = payload (nth j docs VUndef)).
  { intros d. rewrite (nth_indep _ d (payload VUndef)).
    - apply map_nth.
    - rewrite Hlen. lia. }
  exists (mkAddResult id 1 (now env) "created"), rs, this'. cbn [ar_id].
  destruct (Nat.eq_dec j (List.length us)) as [Hlast|Hearlier].
  - subst j. exists (Current entry). split; [exact E|]. unfold get. rewrite G.
    cbn [go_version go_asOf]. rewrite Hn.
    replace (Z.of_nat (List.length us) + 1 =? 1 + Z.of_nat (List.length us))%Z
      with true by (symmetry; apply Z.eqb_eq; lia).
    rewrite orb_true_r. repeat split.
    + cbn [answer_number]. lia.
    + cbn [answer_data]. rewrite <- (Hnth VUndef), Hps, <- Hhl.
      rewrite <- (length_map h_data). now rewrite nth_middle.
  - assert (Hlt : (j < List.length us)%nat) by lia.
    pose (d := history_entry entry 0%Z).
    exists (Historic (historic_view entry (nth j (e_history entry) d))).
    split; [exact E|]. unfold get. rewrite G. cbn [go_version go_asOf].
    replace (Z.of_nat j + 1 =? 0)%Z with false
      by (symmetry; apply Z.eqb_neq; lia).
    replace (Z.of_nat j + 1 =? e_version entry)%Z with false
      by (symmetry; apply Z.eqb_neq; lia).
    cbn [orb].
    rewrite (find_by_version (e_history entry) 1 (List.length us) j _ d Hh Hlt)
      by lia.
    repeat split.
    + cbn [answer_number historic_view hv_version].
      rewrite <- (map_nth h_version), Hh.
      unfold from. rewrite (nth_indep _ _ (1 + Z.of_nat 0)%Z)
        by (rewrite length_map, length_seq; lia).
      rewrite (map_nth (fun i => (1 + Z.of_nat i)%Z)), seq_nth by lia. lia.
    + cbn [answer_data historic_view hv_data].
      rewrite <- (Hnth (h_data d)), Hps.
      rewrite app_nth1 by (rewrite length_map; lia).
      now rewrite (map_nth h_data).
Qed.

(** A run of [every_version_stays_readable]: the first of three
    versions. *)
Lemma every_version_stays_readable_witness :
  exists a rs this' r,
    add_then_update (VObj [("amount", VNum 100)]) no_add_options
      (mkEnv 10%Z "id-1")
      [(VObj [("amount", VNum 150)], no_update_options, mkEnv 20%Z "id-2");
       (VObj [("amount", VNum 175)], no_update_options, mkEnv 30%Z "id-3")]
      (constructor default_options)
      = (Returned (a, rs), this') /\
    get (ar_id a) (mkGetOptions (Some (Z.of_nat 0 + 1)%Z) None) this'
      = (Returned (Some r), this') /\
    answer_number r = (Z.of_nat 0 + 1)%Z /\
    answer_data r =
      payload (nth 0 (VObj [("amount", VNum 100)]
                      :: documents_of
                           [(VObj [("amount", VNum 150)], no_update_options,
                             mkEnv 20%Z "id-2");
                            (VObj [("amount", VNum 175)], no_update_options,
                             mkEnv 30%Z "id-3")]) VUndef).
Proof.
  apply every_version_stays_readable.
  - reflexivity.
  - reflexivity.
  - repeat constructor.
  - simpl; lia.
Defined.

(** *** getHistory *)

(** X4.  getHistory lists the versions newest first and changes
    nothing.  After one add and k updates on the id it returned, on a
    register that keeps versions, it answers with current version k+1
    and the version numbers k+1, k, ..., 1, the first one marked
    current and no other, and the register is left as it was (the stored
    history keeps its order, unlike after an as-of lookup). *)
Theorem getHistory_lists_newest_first (this : Register) (document : value)
  (options : AddOptions) (env : Env) (us : list (value * UpdateOptions * Env)) :
  enableVersioning this = true ->
  nullish document = false ->
  Forall is_document us ->
  exists a rs this' h,
    add_then_update document options env us this = (Returned (a, rs), this') /\
    getHistory (ar_id a) this' = (Returned h, this') /\
    hr_currentVersion h = (Z.of_nat (List.length us) + 1)%Z /\
    map vi_version (hr_versions h) = rev (from 1 (S (List.length us))) /\
    map vi_isCurrent (hr_versions h) = true :: repeat false (List.length us).
Proof.
  intros Hv Hdoc Hdocs.
  destruct (add_then_update_timeline this document options env us Hv Hdoc Hdocs)
    as (rs & this' & entry & E & G & V).
  set (id := str_or (ao_id options) (uuid env)) in *.
  assert (Hlen : List.length (map payload (document :: documents_of us))
                 = S (List.length us)).
  { unfold documents_of. cbn [map List.length]. now rewrite !length_map. }
  destruct (versions_split entry _ _ Hlen V) as (Hh & Hn & Hps).
  assert (Hhl : List.length (e_history entry) = List.length us).
  { rewrite <- (length_map h_version), Hh. apply length_from. }
  exists (mkAddResult id 1 (now env) "created"), rs, this'. eexists.
  split; [exact E|]. cbn [ar_id].
  unfold getHistory. unfold bind. rewrite get_no_options, G.
  cbn [option_map]. unfold ret. split; [reflexivity|].
  cbn [hr_currentVersion hr_versions map vi_version vi_isCurrent].
  repeat split.
  - lia.
  - rewrite map_rev, map_map.
    change (map _ (e_history entry)) with (map h_version (e_history entry)).
    rewrite Hh, from_snoc, rev_app_distr, Hn. cbn [rev app].
    f_equal; lia.
  - f_equal. rewrite map_rev, map_map. cbn [vi_isCurrent].
    rewrite <- Hhl. clear. induction (e_history entry) as [|x l IH]; [reflexivity|].
    cbn [map rev List.length]. rewrite IH. clear.
    induction (List.length l) as [|n IH]; [reflexivity|].
    cbn [repeat app]. now rewrite IH.
Qed.

(** A run of [getHistory_lists_newest_first]. *)
Lemma getHistory_lists_newest_first_witness :
  exists a rs this' h,
    add_then_update (VObj [("amount", VNum 100)]) no_add_options
      (mkEnv 10%Z "id-1")
      [(VObj [("amount", VNum 150)], no_update_options, mkEnv 20%Z "id-2")]
      (constructor default_options)
      = (Returned (a, rs), this') /\
    getHistory (ar_id a) this' = (Returned h, this') /\
    hr_currentVersion h = (Z.of_nat 1 + 1)%Z /\
    map vi_version (hr_versions h) = rev (from 1 2) /\
    map vi_isCurrent (hr_versions h) = true :: repeat false 1.
Proof.
  apply (getHistory_lists_newest_first (constructor default_options)
           (VObj [("amount", VNum 100)]) no_add_options (mkEnv 10%Z "id-1")
           [(VObj [("amount", VNum 150)], no_update_options,
             mkEnv 20%Z "id-2")]).
  - reflexivity.
  - reflexivity.
  - repeat constructor.
Defined.

(** *** What a lookup does to the register *)

Lemma get_state id options this :
  snd (get id options this) =
    if scans_history id options this
    then match Map_get (storage this) id with
         | Some entry =>
             stored id (with_history entry (rev (e_history entry))) this
         | None => this
         end
    else this.
Proof.
  destruct (scans_history id options this) eqn:Hs.
  - revert Hs. unfold scans_history, get.
    destruct (Map_get (storage this) id) as [entry|]; [|discriminate].
    destruct (go_asOf options) as [asOfDate|]; [|discriminate].
    intros Hs. apply andb_prop in Hs. destruct Hs as [Hv He].
    apply negb_true_iff in He. rewrite He.
    destruct (go_version options) as [v|].
    + rewrite Hv. now destruct (find _ _).
    + now destruct (find _ _).
  - now apply get_is_pure_unless_it_scans.
Qed.

Lemma with_history_same e : with_history e (e_history e) = e.
Proof. now destruct e. Qed.

Lemma Map_set_same {V : Type} (m : list (string * V)) k v :
  Map_get m k = Some v -> Map_set m k v = m.
Proof.
  induction m as [|[k' v'] m IH]; simpl; [discriminate|].
  destruct (k' =? k).
  - now intros [= ->].
  - intros H. now rewrite IH.
Qed.

Lemma Map_set_twice {V : Type} (m : list (string * V)) k v w :
  Map_set (Map_set m k v) k w = Map_set m k w.
Proof.
  induction m as [|[k' v'] m IH]; simpl.
  - now rewrite String.eqb_refl.
  - destruct (k' =? k) eqn:E; simpl; rewrite E; [reflexivity|now rewrite IH].
Qed.

Lemma set_storage_same this : set_storage this (storage this) = this.
Proof. now destruct this. Qed.

(** X5.  A lookup never changes more than the order of one history.
    Whatever the options, after [get id options] every stored entry is
    still stored under its id with the same fields, its history either
    as it was or, for the looked-up entry only, reversed; the audit log
    and the indexes are untouched; and running the same lookup once more
    puts the register back exactly as it was before the first. *)
Theorem lookup_only_reorders_history (id : string) (options : GetOptions)
  (this : Register) :
  let this' := snd (get id options this) in
  (forall id' e,
     Map_get (storage this) id' = Some e ->
     exists h,
       Map_get (storage this') id' = Some (with_history e h) /\
       (h = e_history e \/ id' = id /\ h = rev (e_history e))) /\
  auditLog this' = auditLog this /\
  indexes this' = indexes this /\
  snd (get id options this') = this.
Proof.
  intros this'. subst this'. rewrite get_state.
  destruct (scans_history id options this) eqn:Hs.
  - destruct (Map_get (storage this) id) as [entry|] eqn:Hget.
    + repeat split.
      * intros id' e He. destruct (String.eqb_spec id id') as [Heq|Hne].
        -- subst id'. rewrite Hget in He. injection He as ->.
           exists (rev (e_history e)). split; [|now right].
           unfold stored. cbn [storage set_storage]. apply Map_get_set_same.
        -- exists (e_history e). split; [|now left].
           unfold stored. cbn [storage set_storage].
           rewrite Map_get_set_other by exact Hne.
           now rewrite with_history_same.
      * rewrite get_state.
        assert (Hs' : scans_history id options
                        (stored id (with_history entry (rev (e_history entry)))
                           this) = true).
        { revert Hs. unfold scans_history, stored. cbn [storage set_storage].
          rewrite Hget, Map_get_set_same. now destruct entry. }
        rewrite Hs'. unfold stored. cbn [storage set_storage].
        rewrite Map_get_set_same, Map_set_twice.
        cbn [with_history e_id e_version e_createdAt e_updatedAt
               e_effectiveFrom e_effectiveTo e_status e_data e_metadata
               e_citations e_history e_archived].
        rewrite rev_involutive.
        change (with_history (with_history entry _) (e_history entry))
          with (with_history entry (e_history entry)).
        rewrite with_history_same, (Map_set_same _ _ _ Hget).
        now destruct this.
    + repeat split.
      * intros id' e He. exists (e_history e).
        rewrite with_history_same. auto.
      * rewrite get_state, Hs, Hget. reflexivity.
  - repeat split.
    + intros id' e He. exists (e_history e). rewrite with_history_same. auto.
    + rewrite get_state, Hs. reflexivity.
Qed.

(** A run of [lookup_only_reorders_history]: an as-of lookup that walks
    the history of the entry of [twice_updated]. *)
Lemma lookup_only_reorders_history_witness :
  exists e,
    Map_get (storage twice_updated) "doc-1" = Some e /\
    exists h,
      Map_get
        (storage (snd (get "doc-1" (mkGetOptions None (Some (date 2024 2 15)))
                         twice_updated))) "doc-1"
        = Some (with_history e h) /\
      (h = e_history e \/ "doc-1" = "doc-1" /\ h = rev (e_history e)).
Proof.
  eexists. split; [vm_compute; reflexivity|].
  apply (proj1 (lookup_only_reorders_history "doc-1"
                  (mkGetOptions None (Some (date 2024 2 15))) twice_updated)
           "doc-1").
  vm_compute; reflexivity.
Defined.

(** *** archive *)

(** X6.  Archiving marks an entry and loses nothing.  On a stored id,
    archive returns status "archived"; the entry stays stored under its
    id with status "archived", the archive instant and reason, and its
    version, data, metadata, dates and history as before; every other
    entry is untouched; and a later update of the entry goes through as
    on any entry, raising the version by one, and leaves it archived. *)
Theorem archive_marks_and_keeps (id : string) (options : ArchiveOptions)
  (env : Env) (this : Register) (entry : Entry) :
  Map_get (storage this) id = Some entry ->
  exists this',
    archive id options env this
      = (Returned (mkArchiveResult id "archived" (now env)), this') /\
    get id no_options this'
      = (Returned (Some (Current
           (mkEntry (e_id entry) (e_version entry) (e_createdAt entry)
              (e_updatedAt entry) (e_effectiveFrom entry) (e_effectiveTo entry)
              "archived" (e_data entry) (e_metadata entry) (e_citations entry)
              (e_history entry) (Some (now env, arc_reason options))))),
         this') /\
    (forall id', id' <> id ->
       Map_get (storage this') id' = Map_get (storage this) id') /\
    (forall document uoptions env',
       nullish document = false ->
       exists this'' entry'',
         update id document uoptions env' this'
           = (Returned (mkUpdateResult id (e_version entry + 1) (e_version entry)
                          (now env') "updated"), this'') /\
         Map_get (storage this'') id = Some entry'' /\
         e_status entry'' = "archived" /\
         e_archived entry'' = Some (now env, arc_reason options)).
Proof.
  intros Hget.
  destruct (archive_returns id options env this entry Hget) as (this' & E & S & C).
  exists this'. split; [exact E|].
  assert (Hget' : Map_get (storage this') id
                  = Some (archived_entry entry (now env) (arc_reason options)))
    by (rewrite S; apply Map_get_set_same).
  repeat split.
  - rewrite get_no_options, Hget'. reflexivity.
  - intros id' Hne. rewrite S. apply Map_get_set_other. congruence.
  - intros document uoptions env' Hdoc.
    destruct (update_returns id document uoptions env' this' _ Hget' Hdoc)
      as (this'' & E' & S' & _).
    exists this'', (updated_entry this'
                      (archived_entry entry (now env) (arc_reason options))
                      document uoptions (now env')).
    repeat split.
    + exact E'.
    + rewrite S'. apply Map_get_set_same.
Qed.

(** A run of [archive_marks_and_keeps] on the entry of
    [twice_updated]. *)
Lemma archive_marks_and_keeps_witness :
  exists entry this',
    Map_get (storage twice_updated) "doc-1" = Some entry /\
    archive "doc-1" (mkArchiveOptions (VStr "superseded") VUndef)
      (mkEnv (date 2025 1 1) "uuid-4") twice_updated
      = (Returned (mkArchiveResult "doc-1" "archived" (date 2025 1 1)), this') /\
    e_status entry = "active".
Proof.
  eexists. 
  assert (H : Map_get (storage twice_updated) "doc-1" = Some _)
    by (vm_compute; reflexivity).
  destruct (archive_marks_and_keeps "doc-1"
              (mkArchiveOptions (VStr "superseded") VUndef)
              (mkEnv (date 2025 1 1) "uuid-4") twice_updated _ H)
    as (this' & E & _).
  exists this'. split; [exact H|]. split; [exact E|]. reflexivity.
Defined.

(** *** The category and tag indexes *)

Definition entries_of (ix : option Index) : Index :=
  match ix with Some i => i | None => [] end.

(** [index.get(key)] exists and holds [id]. *)
Definition index_has (ix : option Index) (key : value) (id : string) : Prop :=
  exists ids, In (key, ids) (entries_of ix) /\ In id ids.

Lemma strict_eq_eq a b : strict_eq a b = true -> a = b.
Proof.
  destruct a, b; simpl; try discriminate; intros H; try reflexivity.
  - f_equal. now apply Bool.eqb_prop.
  - f_equal. now apply Z.eqb_eq.
  - f_equal. now apply Bool.eqb_prop.
  - f_equal. now apply String.eqb_eq.
Qed.

Lemma same_value_zero_eq a b : same_value_zero a b = true -> a = b.
Proof.
  destruct a, b; try reflexivity; apply strict_eq_eq.
Qed.

Lemma index_add_keeps ix k i key id :
  index_has (Some ix) key id -> index_has (Some (index_add ix k i)) key id.
Proof.
  unfold index_has. cbn [entries_of].
  induction ix as [|[k0 ids0] ix IH]; intros (ids & Hin & Hid).
  - destruct Hin.
  - cbn [index_add]. destruct (same_value_zero k0 k).
    + destruct Hin as [Hin|Hin].
      * inversion Hin; subst.
        exists (if existsb (String.eqb i) ids then ids else ids ++ [i]).
        split; [now left|]. destruct (existsb _ _); auto using in_or_app.
      * exists ids. split; [now right|exact Hid].
    + destruct Hin as [Hin|Hin].
      * exists ids. split; [now left|exact Hid].
      * destruct IH as (ids' & Hin' & Hid'); [now exists ids|].
        exists ids'. split; [now right|exact Hid'].
Qed.

Lemma index_add_has ix key id : index_has (Some (index_add ix key id)) key id.
Proof.
  unfold index_has. cbn [entries_of].
  induction ix as [|[k0 ids0] ix IH]; cbn [index_add].
  - exists [id]. split; now left.
  - destruct (same_value_zero k0 key) eqn:E.
    + apply same_value_zero_eq in E. subst k0. eexists. split; [now left|].
      destruct (existsb (String.eqb id) ids0) eqn:Ex.
      * apply existsb_exists in Ex. destruct Ex as (x & Hx & Hxe).
        apply String.eqb_eq in Hxe. now subst x.
      * apply in_or_app. right. now left.
    + destruct IH as (ids & Hin & Hid). exists ids. split; [now right|exact Hid].
Qed.

Lemma index_fold_keeps tags : forall ix i key id,
  index_has (Some ix) key id ->
  index_has (Some (fold_left (fun ix tag => index_add ix tag i) tags ix)) key id.
Proof.
  induction tags as [|t tags IH]; intros ix i key id H; cbn [fold_left]; auto.
  apply IH. now apply index_add_keeps.
Qed.

Lemma index_fold_has tags : forall ix id t,
  In t tags ->
  index_has (Some (fold_left (fun ix tag => index_add ix tag id) tags ix)) t id.
Proof.
  induction tags as [|t0 tags IH]; intros ix id t Hin; [destruct Hin|].
  cbn [fold_left]. destruct Hin as [->|Hin].
  - apply index_fold_keeps, index_add_has.
  - now apply IH.
Qed.

Lemma index_has_entries ix key id :
  index_has ix key id -> index_has (Some (entries_of ix)) key id.
Proof. now destruct ix. Qed.

Lemma indexed_category entry this :
  idx_category (indexes (indexed entry this)) =
    if truthy (prop (e_metadata entry) "category")
    then Some (index_add (entries_of (idx_category (indexes this)))
                 (prop (e_metadata entry) "category") (e_id entry))
    else idx_category (indexes this).
Proof.
  unfold indexed, _updateIndexes, modify. cbn [snd].
  destruct (truthy _); destruct (tags_of _); reflexivity.
Qed.

Lemma indexed_tags entry this :
  idx_tags (indexes (indexed entry this)) =
    match tags_of (prop (e_metadata entry) "tags") with
    | [] => idx_tags (indexes this)
    | tags =>
        Some (fold_left (fun ix tag => index_add ix tag (e_id entry)) tags
                (entries_of (idx_tags (indexes this))))
    end.
Proof.
  unfold indexed, _updateIndexes, modify. cbn [snd].
  destruct (truthy _); destruct (tags_of _); reflexivity.
Qed.

Lemma indexed_keeps_category entry this key id :
  index_has (idx_category (indexes this)) key id ->
  index_has (idx_category (indexes (indexed entry this))) key id.
Proof.
  intros H. rewrite indexed_category. destruct (truthy _); [|exact H].
  now apply index_add_keeps, index_has_entries.
Qed.

Lemma indexed_keeps_tags entry this key id :
  index_has (idx_tags (indexes this)) key id ->
  index_has (idx_tags (indexes (indexed entry this))) key id.
Proof.
  intros H. rewrite indexed_tags. destruct (tags_of _); [exact H|].
  now apply index_fold_keeps, index_has_entries.
Qed.

Lemma indexes_stored id entry this :
  indexes (stored id entry this) = indexes this.
Proof. reflexivity. Qed.

Lemma indexes_get id options this :
  indexes (snd (get id options this)) = indexes this.
Proof.
  rewrite get_state. destruct (scans_history id options this); [|reflexivity].
  now destruct (Map_get (storage this) id).
Qed.

Section Indexes.

Variable js_lt : value -> value -> bool.
Variable RegExp : value -> value -> option (string -> bool).

(** X7.  The indexes never forget.  Whatever operation runs (add, get,
    list, search, archive, update or export), an id found under a key of
    the category index, or of the tag index, before the operation is
    still found under that key afterwards; in particular an entry whose
    category or tags an update changes stays indexed under the old
    ones. *)
Theorem indexes_never_forget (this : Register) (op : Operation)
  (key : value) (id : string) :
  (index_has (idx_category (indexes this)) key id ->
   index_has (idx_category (indexes (after js_lt RegExp op this))) key id) /\
  (index_has (idx_tags (indexes this)) key id ->
   index_has (idx_tags (indexes (after js_lt RegExp op this))) key id).
Proof.
  destruct op as [document options env | id' options | options | query limit
                 | id' options env | id' document options env
                 | options audit env];
    cbn [after].
  - destruct (nullish document) eqn:Hdoc.
    + unfold add. rewrite Hdoc. cbn. auto.
    + rewrite (add_state document options env this Hdoc). cbn [snd].
      rewrite indexes_logged.
      split; intros H;
        [apply indexed_keeps_category | apply indexed_keeps_tags]; exact H.
  - rewrite indexes_get. auto.
  - rewrite list_is_pure. auto.
  - rewrite search_is_pure. auto.
  - destruct (Map_get (storage this) id') as [e|] eqn:Hget.
    + rewrite (archive_state id' options env this e Hget). cbn [snd].
      rewrite indexes_logged, indexes_stored. auto.
    + rewrite (archive_fails id' options env this Hget). auto.
  - destruct (Map_get (storage this) id') as [e|] eqn:Hget.
    + destruct (nullish document) eqn:Hdoc.
      * rewrite update_fails by now right. auto.
      * rewrite (update_state id' document options env this e Hget Hdoc).
        cbn [snd]. rewrite indexes_logged.
        split; intros H;
          [apply indexed_keeps_category | apply indexed_keeps_tags]; exact H.
    + rewrite update_fails by now left. auto.
  - rewrite export_is_pure. auto.
Qed.

End Indexes.

(** A register with one categorised, tagged entry. *)
Definition one_invoice : Register :=
  snd (add (VObj [("amount", VNum 100)])
         (mkAddOptions (Some "doc-1") None None None VUndef
            (VArr [VStr "q1"; VStr "paid"]) (VStr "invoice") None VUndef)
         (mkEnv (date 2024 1 10) "uuid-1") (constructor default_options)).

(** A run of [indexes_never_forget]: the entry moves to another
    category and is still found under the first. *)
Lemma indexes_never_forget_witness :
  index_has
    (idx_category
       (indexes
          (snd (update "doc-1" (VObj [("amount", VNum 100)])
                  (mkUpdateOptions None None
                     (Some [("category", VStr "receipt")]) VUndef VUndef)
                  (mkEnv (date 2024 2 10) "uuid-2") one_invoice))))
    (VStr "invoice") "doc-1".
Proof.
  apply (proj1 (indexes_never_forget (fun _ _ => false) (fun _ _ => None)
                  one_invoice
                  (Update "doc-1" (VObj [("amount", VNum 100)])
                     (mkUpdateOptions None None
                        (Some [("category", VStr "receipt")]) VUndef VUndef)
                     (mkEnv (date 2024 2 10) "uuid-2"))
                  (VStr "invoice") "doc-1")).
  exists ["doc-1"]. vm_compute. auto.
Defined.

(** Every stored entry carries its key as id and is found in the
    category index under its category, when that is truthy, and in the
    tag index under each of its tags. *)
Definition catalogued (this : Register) : Prop :=
  forall id e,
    Map_get (storage this) id = Some e ->
    e_id e = id /\
    (truthy (prop (e_metadata e) "category") = true ->
     index_has (idx_category (indexes this))
       (prop (e_metadata e) "category") id) /\
    (forall t, In t (tags_of (prop (e_metadata e) "tags")) ->
       index_has (idx_tags (indexes this)) t id).

Lemma catalogued_new options : catalogued (constructor options).
Proof. intros id e H. discriminate H. Qed.

Lemma catalogued_ext a b :
  storage b = storage a -> indexes b = indexes a ->
  catalogued a -> catalogued b.
Proof. unfold catalogued. intros -> ->. auto. Qed.

Lemma catalogued_stored this id entry :
  catalogued this -> e_id entry = id ->
  catalogued (indexed entry (stored id entry this)).
Proof.
  intros Hc Hid id' e. rewrite storage_indexed. unfold stored at 1.
  cbn [storage set_storage].
  destruct (String.eqb_spec id id') as [Heq|Hne].
  - subst id'. rewrite Map_get_set_same. intros [= <-].
    split; [exact Hid|]. split.
    + intros Ht. rewrite indexed_category, Ht, Hid. apply index_add_has.
    + intros t Hin. rewrite indexed_tags, Hid.
      destruct (tags_of (prop (e_metadata entry) "tags")) as [|t0 ts] eqn:Et;
        [destruct Hin|].
      now apply index_fold_has.
  - rewrite Map_get_set_other by exact Hne. intros He.
    destruct (Hc id' e He) as (H1 & H2 & H3).
    split; [exact H1|]. split.
    + intros Ht. apply indexed_keeps_category. rewrite indexes_stored. auto.
    + intros t Hin. apply indexed_keeps_tags. rewrite indexes_stored. auto.
Qed.

Lemma catalogued_replaced this id e e' :
  catalogued this ->
  Map_get (storage this) id = Some e ->
  e_id e' = e_id e -> e_metadata e' = e_metadata e ->
  catalogued (stored id e' this).
Proof.
  intros Hc Hget Hid Hm id' e0. unfold stored. cbn [storage set_storage indexes].
  destruct (String.eqb_spec id id') as [Heq|Hne].
  - subst id'. rewrite Map_get_set_same. intros [= <-].
    rewrite Hid, Hm. exact (Hc id e Hget).
  - rewrite Map_get_set_other by exact Hne. apply Hc.
Qed.

Section Catalogue.

Variable js_lt : value -> value -> bool.
Variable RegExp : value -> value -> option (string -> bool).

(** X8.  Stored entries are always indexed.  If every stored entry is
    found in the category index under its (truthy) category and in the
    tag index under each of its tags, the same holds after any operation
    (add, get, list, search, archive, update or export); it holds of a
    new register, hence of every register these operations build. *)
Theorem stored_entries_stay_indexed (this : Register) (op : Operation) :
  (forall options, catalogued (constructor options)) /\
  (catalogued this -> catalogued (after js_lt RegExp op this)).
Proof.
  split; [exact catalogued_new|].
  intros Hc.
  destruct op as [document options env | id' options | options | query limit
                 | id' options env | id' document options env
                 | options audit env];
    cbn [after].
  - destruct (nullish document) eqn:Hdoc.
    + unfold add. rewrite Hdoc. exact Hc.
    + rewrite (add_state document options env this Hdoc). cbn [snd].
      eapply catalogued_ext;
        [apply storage_logged | apply indexes_logged |].
      now apply catalogued_stored.
  - rewrite get_state. destruct (scans_history id' options this); [|exact Hc].
    destruct (Map_get (storage this) id') as [e|] eqn:Hget; [|exact Hc].
    now apply (catalogued_replaced this id' e).
  - exact Hc.
  - rewrite search_is_pure. exact Hc.
  - destruct (Map_get (storage this) id') as [e|] eqn:Hget.
    + rewrite (archive_state id' options env this e Hget). cbn [snd].
      eapply catalogued_ext;
        [apply storage_logged | apply indexes_logged |].
      now apply (catalogued_replaced this id' e).
    + rewrite (archive_fails id' options env this Hget). exact Hc.
  - destruct (Map_get (storage this) id') as [e|] eqn:Hget.
    + destruct (nullish document) eqn:Hdoc.
      * rewrite update_fails by now right. exact Hc.
      * rewrite (update_state id' document options env this e Hget Hdoc).
        cbn [snd].
        eapply catalogued_ext;
          [apply storage_logged | apply indexes_logged |].
        apply catalogued_stored; [exact Hc|].
        cbn [updated_entry e_id]. exact (proj1 (Hc id' e Hget)).
    + rewrite update_fails by now left. exact Hc.
  - exact Hc.
Qed.

End Catalogue.

(** A run of [stored_entries_stay_indexed]: the add that builds
    [one_invoice]. *)
Lemma stored_entries_stay_indexed_witness : catalogued one_invoice.
Proof.
  apply (proj2 (stored_entries_stay_indexed (fun _ _ => false)
                  (fun _ _ => None) (constructor default_options)
                  (Add (VObj [("amount", VNum 100)])
                     (mkAddOptions (Some "doc-1") None None None VUndef
                        (VArr [VStr "q1"; VStr "paid"]) (VStr "invoice") None
                        VUndef)
                     (mkEnv (date 2024 1 10) "uuid-1")))).
  intros id e H. vm_compute in H. discriminate H.
Defined.

(** *** Metadata under update *)

Lemma prop_set_prop (o : obj) k v k' :
  prop (set_prop o k v) k' = if k =? k' then v else prop o k'.
Proof.
  induction o as [|[k0 v0] o IH]; cbn [set_prop prop]; [reflexivity|].
  destruct (String.eqb_spec k0 k) as [E|E]; cbn [prop].
  - subst k0. now destruct (k =? k').
  - rewrite IH. destruct (String.eqb_spec k0 k') as [E'|E']; [|reflexivity].
    subst k'. destruct (String.eqb_spec k k0); [congruence|reflexivity].
Qed.

Lemma prop_spread_other (extra : obj) : forall o k,
  ~ In k (map fst extra) -> prop (spread o extra) k = prop o k.
Proof.
  unfold spread.
  induction extra as [|[k1 v1] extra IH]; intros o k Hk; [reflexivity|].
  cbn [fold_left fst snd]. rewrite IH by (intros H; apply Hk; now right).
  rewrite prop_set_prop.
  destruct (String.eqb_spec k1 k) as [E|E]; [|reflexivity].
  elim Hk. now left.
Qed.

Lemma prop_spread_given (extra : obj) : forall o k v,
  NoDup (map fst extra) -> In (k, v) extra -> prop (spread o extra) k = v.
Proof.
  induction extra as [|[k1 v1] extra IH]; intros o k v Hnd Hin; [destruct Hin|].
  cbn [map fst] in Hnd. inversion Hnd as [|x l Hnot Hnd']; subst.
  destruct Hin as [Heq|Hin].
  - injection Heq as -> ->.
    change (spread o ((k, v) :: extra)) with (spread (set_prop o k v) extra).
    rewrite prop_spread_other by exact Hnot.
    now rewrite prop_set_prop, String.eqb_refl.
  - change (spread o ((k1, v1) :: extra)) with (spread (set_prop o k1 v1) extra).
    now apply IH.
Qed.

Lemma spread_keys (extra : obj) : forall o,
  exists more, map fst (spread o extra) = map fst o ++ more.
Proof.
  unfold spread.
  induction extra as [|[k1 v1] extra IH]; intros o.
  - exists []. now rewrite app_nil_r.
  - cbn [fold_left fst snd]. destruct (IH (set_prop o k1 v1)) as [more Hmore].
    rewrite Hmore, set_prop_keys. destruct (existsb _ _).
    + now exists more.
    + exists (k1 :: more). now rewrite <- app_assoc.
Qed.

Definition given_metadata (options : UpdateOptions) : obj :=
  match uo_metadata options with Some m => m | None => [] end.

Lemma set_prop_names (o : obj) k v x :
  In x (map fst (set_prop o k v)) <-> In x (map fst o) \/ x = k.
Proof.
  induction o as [|[k' v'] o IH]; cbn [set_prop map fst In].
  - intuition.
  - destruct (String.eqb_spec k' k) as [->|N]; cbn [map fst In].
    + intuition.
    + rewrite IH. intuition.
Qed.

Lemma spread_names (extra o : obj) x :
  In x (map fst (spread o extra)) <-> In x (map fst o) \/ In x (map fst extra).
Proof.
  unfold spread. revert o.
  induction extra as [|[k v] extra IH]; intros o; cbn [fold_left map fst In].
  - intuition.
  - rewrite IH, set_prop_names. cbn [fst]. intuition.
Qed.

(** X9.  update merges metadata, it does not replace it.  After an
    update that goes through, the stored metadata has the property
    names it had, the four names update writes (schemaId, schemaVersion,
    extractionId, confidence) and the names given in [options.metadata],
    and no other; a property given in [options.metadata] has the given
    value; of the others, schemaId and schemaVersion take the document's
    value, or keep the old one when the document has none, while
    extractionId and confidence take the document's value even when it
    is undefined; and every remaining property keeps its value. *)
Theorem update_merges_metadata (id : string) (document : value)
  (options : UpdateOptions) (env : Env) (this : Register) (existing : Entry) :
  Map_get (storage this) id = Some existing ->
  nullish document = false ->
  NoDup (map fst (given_metadata options)) ->
  exists r this' updated,
    update id document options env this = (Returned r, this') /\
    Map_get (storage this') id = Some updated /\
    (forall k,
       In k (map fst (e_metadata updated)) <->
       In k (map fst (e_metadata existing)) \/
       In k ["schemaId"; "schemaVersion"; "extractionId"; "confidence"] \/
       In k (map fst (given_metadata options))) /\
    (forall k v, In (k, v) (given_metadata options) ->
       prop (e_metadata updated) k = v) /\
    (forall k, ~ In k (map fst (given_metadata options)) ->
       prop (e_metadata updated) k =
         if (k =? "schemaId") || (k =? "schemaVersion")
         then or_else (member document k) (prop (e_metadata existing) k)
         else if (k =? "extractionId") || (k =? "confidence")
         then member document k
         else prop (e_metadata existing) k).
Proof.
  intros Hget Hdoc Hnd.
  destruct (update_returns id document options env this existing Hget Hdoc)
    as (this' & E & S & _).
  eexists _, this', _. split; [exact E|].
  split; [rewrite S; apply Map_get_set_same|].
  cbn [updated_entry e_metadata].
  set (four := [("schemaId", _); ("schemaVersion", _); ("extractionId", _);
                ("confidence", _)]).
  assert (Hm : spread_opt (spread (e_metadata existing) four)
                 (uo_metadata options)
               = spread (spread (e_metadata existing) four)
                   (given_metadata options)).
  { unfold given_metadata. now destruct (uo_metadata options). }
  rewrite Hm. clear Hm.
  assert (Hfour : NoDup (map fst four)).
  { subst four. cbn [map fst]. repeat constructor; cbn [In]; intuition discriminate. }
  split; [|split].
  - intros k. rewrite !spread_names. subst four. cbn [map fst]. tauto.
  - intros k v Hin. now apply prop_spread_given.
  - intros k Hk. rewrite prop_spread_other by exact Hk.
    destruct (String.eqb_spec k "schemaId") as [->|N1];
      [apply prop_spread_given; [exact Hfour | now left]|].
    destruct (String.eqb_spec k "schemaVersion") as [->|N2];
      [apply prop_spread_given; [exact Hfour | right; now left]|].
    destruct (String.eqb_spec k "extractionId") as [->|N3];
      [apply prop_spread_given; [exact Hfour | right; right; now left]|].
    destruct (String.eqb_spec k "confidence") as [->|N4];
      [apply prop_spread_given; [exact Hfour | right; right; right; now left]|].
    cbn [orb]. apply prop_spread_other. subst four. cbn [map fst In].
    intuition congruence.
Qed.

(** A run of [update_merges_metadata] on [one_invoice]: the category
    is replaced, the tags stay. *)
Lemma update_merges_metadata_witness :
  exists r this' updated,
    update "doc-1" (VObj [("amount", VNum 120)])
      (mkUpdateOptions None None (Some [("category", VStr "receipt")])
         VUndef VUndef)
      (mkEnv (date 2024 2 10) "uuid-2") one_invoice = (Returned r, this') /\
    Map_get (storage this') "doc-1" = Some updated /\
    prop (e_metadata updated) "category" = VStr "receipt" /\
    prop (e_metadata updated) "tags" = VArr [VStr "q1"; VStr "paid"].
Proof.
  assert (Hget : Map_get (storage one_invoice) "doc-1" = Some _)
    by (vm_compute; reflexivity).
  destruct (update_merges_metadata "doc-1" (VObj [("amount", VNum 120)])
              (mkUpdateOptions None None (Some [("category", VStr "receipt")])
                 VUndef VUndef)
              (mkEnv (date 2024 2 10) "uuid-2") one_invoice _ Hget)
    as (r & this' & updated & E & G & _ & Hgiven & Hother).
  - reflexivity.
  - repeat constructor. intros [].
  - exists r, this', updated. split; [exact E|]. split; [exact G|]. split.
    + apply Hgiven. now left.
    + rewrite Hother; [reflexivity|]. cbn. intuition discriminate.
Defined.

(** *** list, export, search and import *)

Lemma filter_when {A : Type} (b : bool) (f : A -> bool) (l : list A) :
  (if b then filter f l else l) = filter (fun x => negb b || f x) l.
Proof. destruct b; simpl; [reflexivity | now rewrite filter_true]. Qed.

(** The filters of [list], taken together. *)
Definition passes (options : ListOptions) (e : Entry) : bool :=
  match lo_status options with
  | Some s => (s =? "") || (e_status e =? s)
  | None => true
  end &&
  (negb (truthy (lo_category options))
   || strict_eq (prop (e_metadata e) "category") (lo_category options)) &&
  match lo_tags options with
  | [] => true
  | tags => existsb (fun tag => tags_include (prop (e_metadata e) "tags") tag) tags
  end &&
  match lo_effectiveAt options with
  | Some date => effective_at (e_effectiveFrom e) (e_effectiveTo e) date
  | None => true
  end &&
  (negb (truthy (lo_schemaId options))
   || strict_eq (prop (e_metadata e) "schemaId") (lo_schemaId options)).

(** What [list] shows of an entry. *)
Definition view (options : ListOptions) (e : Entry) : Listed :=
  if lo_includeData options then Full e
  else Brief (mkSummary (e_id e) (e_version e) (e_status e) (e_createdAt e)
                (e_updatedAt e) (e_effectiveFrom e) (e_effectiveTo e)
                (e_metadata e)).

Definition page_offset (options : ListOptions) : nat :=
  match lo_offset options with Some n => n | None => 0 end.

Definition page_limit (options : ListOptions) : Limit :=
  match lo_limit options with
  | Some (Finite 0) | None => Finite 100
  | Some l => l
  end.

Section Reads.

Variable js_lt : value -> value -> bool.
Variable RegExp : value -> value -> option (string -> bool).

Lemma list_pages options this :
  exists sorted,
    Permutation (filter (passes options) (Map_values (storage this))) sorted /\
    list_ js_lt options this =
      (Returned
         {| lr_entries :=
              map (view options)
                (slice (page_offset options) (page_limit options) sorted);
            lr_total := List.length sorted;
            lr_offset := page_offset options;
            lr_limit := page_limit options;
            lr_hasMore :=
              match page_limit options with
              | Finite n => (page_offset options + n <? List.length sorted)%nat
              | Infinity => false
              end |}, this).
Proof.
  unfold list_, bind, read, ret. cbv zeta.
  set (kept := if truthy (lo_schemaId options) then _ else _).
  assert (Hk : kept = filter (passes options) (Map_values (storage this))).
  { subst kept. unfold passes.
    etransitivity; [symmetry; apply filter_true|].
    destruct (lo_status options) as [s|]; [destruct (s =? "")|];
      destruct (truthy (lo_category options));
      destruct (lo_tags options) as [|tag tags];
      destruct (lo_effectiveAt options) as [date|];
      destruct (truthy (lo_schemaId options));
      rewrite ?filter_filter; apply filter_ext; intros e;
      cbn [negb orb andb]; btauto. }
  exists (Array_sort
            (fun a b =>
               let key e :=
                 or_else (prop (entry_fields e)
                            (str_or (lo_sortBy options) "updatedAt"))
                   (prop (e_metadata e)
                      (str_or (lo_sortBy options) "updatedAt")) in
               if str_or (lo_sortDir options) "desc" =? "asc"
               then (if js_gt js_lt (key a) (key b) then 1 else -1)%Q
               else (if js_lt (key a) (key b) then 1 else -1)%Q) kept).
  split; [rewrite <- Hk; apply Array_sort_Permutation|].
  reflexivity.
Qed.

(** X10.  list answers with one page of the entries that pass every
    given filter.  The register is left as it is; [total] counts all
    stored entries that pass the filters (status, category, tags,
    effectiveAt, schemaId), whatever the page; the entries returned are
    a window, starting at the offset and [limit] long (100 when no
    limit, or 0, is given), of a rearrangement of exactly those entries,
    so there are min(limit, total - offset) of them; and hasMore tells
    whether entries remain after the page. *)
Theorem list_returns_a_page (options : ListOptions) (this : Register) :
  exists r sorted,
    list_ js_lt options this = (Returned r, this) /\
    Permutation (filter (passes options) (Map_values (storage this))) sorted /\
    lr_entries r =
      map (view options)
        (slice (page_offset options) (page_limit options) sorted) /\
    lr_total r
      = List.length (filter (passes options) (Map_values (storage this))) /\
    List.length (lr_entries r) =
      match page_limit options with
      | Finite n => Nat.min n (lr_total r - page_offset options)
      | Infinity => lr_total r - page_offset options
      end /\
    lr_hasMore r
      = (page_offset options + List.length (lr_entries r) <? lr_total r)%nat.
Proof.
  destruct (list_pages options this) as (sorted & Hperm & E).
  eexists _, sorted. split; [exact E|].
  cbn [lr_entries lr_total lr_hasMore]. split; [exact Hperm|].
  split; [reflexivity|]. split; [symmetry; now apply Permutation_length|].
  rewrite length_map. unfold slice.
  destruct (page_limit options) as [n|].
  - rewrite length_firstn, length_skipn. split; [reflexivity|].
    destruct (Nat.ltb_spec (page_offset options + n) (List.length sorted)),
      (Nat.ltb_spec
         (page_offset options
          + Nat.min n (List.length sorted - page_offset options))
         (List.length sorted)); try reflexivity; lia.
  - rewrite length_skipn. split; [reflexivity|].
    symmetry. apply Nat.ltb_ge. lia.
Qed.

(** X11.  export writes out, in full, every entry that passes the
    filters of its options, whatever [limit] and [includeData] say:
    the entries exported are, after the offset, a rearrangement of
    exactly the stored entries that pass, each with its data;
    totalEntries counts all that pass; the audit log is attached, whole,
    exactly when asked for; and the register is left as it is. *)
Theorem export_writes_every_match (options : ListOptions)
  (includeAuditLog : bool) (env : Env) (this : Register) :
  exists payload sorted,
    export js_lt options includeAuditLog env this = (Returned payload, this) /\
    Permutation (filter (passes options) (Map_values (storage this))) sorted /\
    x_entries payload = map Full (skipn (page_offset options) sorted) /\
    x_totalEntries payload
      = List.length (filter (passes options) (Map_values (storage this))) /\
    x_auditLog payload
      = (if includeAuditLog then Some (auditLog this) else None).
Proof.
  unfold export.
  set (all := mkListOptions _ _ _ _ _ _ _ _ (Some Infinity) true).
  destruct (list_pages all this) as (sorted & Hperm & E).
  exists {| x_registerName := name this;
            x_schemaId := schemaId this;
            x_exportedAt := now env;
            x_totalEntries := List.length sorted;
            x_entries := map Full (skipn (page_offset options) sorted);
            x_auditLog :=
              if includeAuditLog then Some (auditLog this) else None |}, sorted.
  unfold bind at 1. rewrite E. split; [reflexivity|].
  split; [exact Hperm|]. split; [reflexivity|].
  split; [symmetry; exact (Permutation_length Hperm) | reflexivity].
Qed.

(** *** search *)






End Reads.


(** *** Paths into the data *)

Lemma split_on_not_nil sep s : split_on sep s <> [].
Proof.
  destruct s as [|c s]; cbn [split_on]; [discriminate|].
  destruct (Ascii.eqb c sep); [discriminate|].
  destruct (split_on sep s); discriminate.
Qed.

Lemma split_on_app sep p q :
  split_on sep (p ++ String sep q)%string
  = split_on sep p ++ split_on sep q.
Proof.
  induction p as [|c p IH]; cbn [String.append split_on].
  - now rewrite Ascii.eqb_refl.
  - destruct (Ascii.eqb c sep); rewrite IH; [reflexivity|].
    pose proof (split_on_not_nil sep p) as Hne.
    destruct (split_on sep p); [congruence|reflexivity].
Qed.

Lemma elem_of_nothing o p : nullish o = true -> elem o p = VUndef.
Proof. now destruct o. Qed.

(** X13.  A dotted path is followed one property at a time.  Reading
    the path [p.q] is reading [q] in what the path [p] leads to; and
    once a path leads to undefined or null, every longer path answers
    undefined (nothing throws on a missing property). *)
Theorem paths_compose (o : value) (p q : string) :
  _getNestedValue o (p ++ String "."%char q)%string
    = _getNestedValue (_getNestedValue o p) q /\
  (nullish (_getNestedValue o p) = true ->
   _getNestedValue o (p ++ String "."%char q)%string = VUndef).
Proof.
  assert (Hc : _getNestedValue o (p ++ String "."%char q)%string
               = _getNestedValue (_getNestedValue o p) q).
  { unfold _getNestedValue. now rewrite split_on_app, fold_left_app. }
  split; [exact Hc|]. intros Hn. rewrite Hc. clear Hc.
  unfold _getNestedValue in *.
  revert Hn. generalize (fold_left elem (split_on "." p) o) as v.
  pose proof (split_on_not_nil "."%char q) as Hne.
  destruct (split_on "." q) as [|k ks]; [congruence|]. clear Hne.
  intros v Hv. cbn [fold_left]. rewrite (elem_of_nothing v k Hv).
  clear. induction ks as [|k' ks IH]; [reflexivity|exact IH].
Qed.

(** A run of [paths_compose]: a path through a missing property. *)
Lemma paths_compose_witness :
  _getNestedValue (VObj [("client", VObj [("name", VStr "Ada")])])
    ("address" ++ String "."%char "city")%string = VUndef.
Proof.
  apply (proj2 (paths_compose
                  (VObj [("client", VObj [("name", VStr "Ada")])])
                  "address" "city")).
  reflexivity.
Defined.

(** *** import with skipExisting *)

(** Every entry of [before] is stored, unchanged, in [this]. *)
Definition keeps (before this : Register) : Prop :=
  forall id e,
    Map_get (storage before) id = Some e -> Map_get (storage this) id = Some e.

Lemma import_one_skipping env results entry before this :
  keeps before this ->
  Map_get (storage before) (uuid env) = None ->
  exists results' this',
    import_one true env results entry this = (Returned results', this') /\
    keeps before this' /\
    errors results' = errors results /\
    imported results' + skipped results'
      = S (imported results + skipped results).
Proof.
  intros Hkeeps Hfresh. unfold import_one. unfold bind at 1.
  assert (Hadd : Map_get (storage before)
                   (str_or (ii_id entry) (uuid env)) = None ->
    exists results' this',
      (match
         (add (or_else (ii_data entry) (VObj (ii_self entry)))
            (import_options entry) env ;;;
          ret (mkImportResults (S (imported results)) (skipped results)
                 (errors results))) this
       with
       | (Returned r, this') => (Returned r, this')
       | (Thrown e, this') =>
           (Returned (mkImportResults (imported results) (skipped results)
                        (errors results ++ [(ii_id entry, e)])), this')
       end) = (Returned results', this') /\
      keeps before this' /\
      errors results' = errors results /\
      imported results' + skipped results'
        = S (imported results + skipped results)).
  { intros Hkey. unfold bind at 1.
    destruct (add_returns _ (import_options entry) env this
                (import_document_is_object entry)) as (this1 & E1 & S1 & _).
    rewrite E1. unfold ret. eexists _, this1. split; [reflexivity|].
    cbn [errors imported skipped]. repeat split.
    intros id e He. rewrite S1. cbn [import_options ao_id].
    rewrite Map_get_set_other; [now apply Hkeeps|].
    intros Heq. rewrite Heq in Hkey. congruence. }
  destruct (ii_id entry) as [i|] eqn:Hid; cbn [get_opt].
  - rewrite get_no_options.
    destruct (Map_get (storage this) i) as [found|] eqn:Hfound;
      cbn [option_map].
    + unfold ret. eexists _, this. split; [reflexivity|].
      cbn [errors imported skipped]. repeat split; [exact Hkeeps | lia].
    + apply Hadd. cbn [str_or]. destruct (i =? ""); [exact Hfresh|].
      destruct (Map_get (storage before) i) as [e|] eqn:He; [|reflexivity].
      apply Hkeeps in He. congruence.
  - unfold ret at 1. apply Hadd. exact Hfresh.
Qed.

Lemma import_loop_skipping envs before entries : forall i results this,
  keeps before this ->
  (forall j, Map_get (storage before) (uuid (envs j)) = None) ->
  exists results' this',
    import_loop true envs i results entries this = (Returned results', this') /\
    keeps before this' /\
    errors results' = errors results /\
    imported results' + skipped results'
      = imported results + skipped results + List.length entries.
Proof.
  induction entries as [|entry entries IH]; intros i results this Hk Hfresh.
  - exists results, this. cbn [import_loop List.length]. unfold ret.
    repeat split; auto.
  - cbn [import_loop]. unfold bind at 1.
    destruct (import_one_skipping (envs i) results entry before this Hk
                (Hfresh i)) as (r1 & this1 & E1 & K1 & Er1 & N1).
    rewrite E1.
    destruct (IH (S i) r1 this1 K1 Hfresh) as (r2 & this2 & E2 & K2 & Er2 & N2).
    exists r2, this2. split; [exact E2|]. split; [exact K2|].
    split; [congruence|]. cbn [List.length]. lia.
Qed.

(** X14.  import with skipExisting never touches what is stored.
    Handed an object whose [entries] property is the sequence, and
    provided the uuid generator hands out no id that is already stored,
    the import returns; it records no error; every element is counted
    once, as imported or as skipped; and every entry stored before is
    stored afterwards under the same id, unchanged.  Handed the bare
    sequence instead, the import throws a TypeError before the first
    element and leaves the register as it was. *)
Theorem import_skips_stored_entries (entries : list ImportItem)
  (envs : nat -> Env) (this : Register) :
  (forall j, Map_get (storage this) (uuid (envs j)) = None) ->
  (exists results this',
     import (Payload entries) true envs this = (Returned results, this') /\
     errors results = [] /\
     imported results + skipped results = List.length entries /\
     (forall id e,
        Map_get (storage this) id = Some e ->
        Map_get (storage this') id = Some e)) /\
  import (Sequence entries) true envs this = (Thrown TypeError, this).
Proof.
  intros Hfresh. split; [|reflexivity].
  change (import (Payload entries) true envs this)
    with (import_loop true envs 0 (mkImportResults 0 0 []) entries this).
  destruct (import_loop_skipping envs this entries 0
              (mkImportResults 0 0 []) this) as (r & this' & E & K & Er & N).
  - intros id e He. exact He.
  - exact Hfresh.
  - exists r, this'. repeat split; auto.
Qed.

(** A run of [import_skips_stored_entries]: the entry of [one_invoice]
    survives the import of another record under its id. *)
Lemma import_skips_stored_entries_witness :
  let entries :=
    [mkImportItem (Some "doc-1") (VObj [("amount", VNum 999)]) None None
       None None [("id", VStr "doc-1")];
     mkImportItem None (VObj [("amount", VNum 5)]) None None None None
       [("data", VObj [("amount", VNum 5)])]] in
  let envs := fun _ : nat => mkEnv (date 2024 3 1) "uuid-9" in
  (exists results this',
     import (Payload entries) true envs one_invoice
       = (Returned results, this') /\
     errors results = [] /\
     imported results + skipped results = 2 /\
     (forall id e,
        Map_get (storage one_invoice) id = Some e ->
        Map_get (storage this') id = Some e)) /\
  import (Sequence entries) true envs one_invoice
    = (Thrown TypeError, one_invoice).
Proof.
  intros entries envs.
  apply (import_skips_stored_entries
           [mkImportItem (Some "doc-1") (VObj [("amount", VNum 999)]) None None
              None None [("id", VStr "doc-1")];
            mkImportItem None (VObj [("amount", VNum 5)]) None None None None
              [("data", VObj [("amount", VNum 5)])]]
           (fun j => mkEnv (date 2024 3 1) "uuid-9") one_invoice).
  intros j. reflexivity.
Defined.

End RegisterMore.

(* ================================================================== *)
(** ** More of the comparator: similarity, several documents, versions *)
(* ================================================================== *)

Module ComparatorMore.
Import JS DocumentComparator ComparatorFacts.
Local Open Scope list_scope.

(** *** Similarity *)

Lemma compareValues_none nested deep a b f :
  compareValues_with nested deep a b f = None <-> _areEqual a b = true.
Proof.
  unfold compareValues_with.
  destruct (isUndefined a && negb (isUndefined b)) eqn:E1.
  - split; [discriminate|].
    destruct a; try discriminate E1; destruct b; discriminate.
  - destruct (negb (isUndefined a) && isUndefined b) eqn:E2.
    + split; [discriminate|].
      destruct b; try (now rewrite andb_false_r in E2); destruct a; discriminate.
    + destruct (_areEqual a b); [tauto|]. split; [|discriminate].
      destruct a, b; try discriminate; destruct deep; discriminate.
Qed.

Lemma length_filter_Permutation {A : Type} (f : A -> bool) (l l' : list A) :
  Permutation l l' -> List.length (filter f l) = List.length (filter f l').
Proof.
  induction 1 as [|x l l' _ IH|x y l|l l' l'' _ IH1 _ IH2]; simpl.
  - reflexivity.
  - destruct (f x); simpl; congruence.
  - destruct (f x), (f y); reflexivity.
  - congruence.
Qed.

Lemma length_filter_le {A : Type} (f : A -> bool) (l : list A) :
  List.length (filter f l) <= List.length l.
Proof. induction l as [|x l IH]; simpl; [lia|]. destruct (f x); simpl; lia. Qed.

Lemma length_filter_split {A : Type} (f : A -> bool) (l : list A) :
  List.length (filter f l) + List.length (filter (fun x => negb (f x)) l)
  = List.length l.
Proof.
  induction l as [|x l IH]; simpl; [reflexivity|].
  destruct (f x); simpl; lia.
Qed.

Lemma Q_of_nat_pos n : 0 < n -> (0 < Q_of_nat n)%Q.
Proof.
  intros H. unfold Q_of_nat. change 0%Q with (inject_Z 0).
  rewrite <- Zlt_Qlt. lia.
Qed.

Lemma Q_of_nat_le m n : m <= n -> (Q_of_nat m <= Q_of_nat n)%Q.
Proof. intros H. unfold Q_of_nat. rewrite <- Zle_Qle. lia. Qed.

Lemma ratio_bounds m n :
  m <= n -> 0 < n -> (0 <= Q_of_nat m / Q_of_nat n <= 1)%Q.
Proof.
  intros Hle Hpos. pose proof (Q_of_nat_pos n Hpos) as Hn. split.
  - apply Qle_shift_div_l; [exact Hn|]. rewrite Qmult_0_l.
    change 0%Q with (Q_of_nat 0). apply Q_of_nat_le. lia.
  - apply Qle_shift_div_r; [exact Hn|]. rewrite Qmult_1_l.
    now apply Q_of_nat_le.
Qed.

Lemma ratio_whole n : 0 < n -> (Q_of_nat n / Q_of_nat n == 1)%Q.
Proof.
  intros Hpos. pose proof (Q_of_nat_pos n Hpos) as Hn.
  field. lra.
Qed.

Lemma ratios_add_up a b s :
  a + b = s -> 0 < s ->
  (Q_of_nat a / Q_of_nat s + Q_of_nat b / Q_of_nat s == 1)%Q.
Proof.
  intros Hs Hpos. pose proof (Q_of_nat_pos s Hpos) as Hn.
  assert (Hsum : (Q_of_nat a + Q_of_nat b == Q_of_nat s)%Q).
  { unfold Q_of_nat. rewrite <- inject_Z_plus, <- Nat2Z.inj_add, Hs.
    reflexivity. }
  rewrite <- Hsum in Hn |- *. field. lra.
Qed.

Lemma ratio_one_iff m s :
  0 < s -> (Q_of_nat m / Q_of_nat s == 1)%Q <-> m = s.
Proof.
  intros Hpos. pose proof (Q_of_nat_pos s Hpos) as Hs. split.
  - intros H.
    assert (E : (Q_of_nat m == Q_of_nat s)%Q).
    { assert (E : (Q_of_nat m == Q_of_nat m / Q_of_nat s * Q_of_nat s)%Q)
        by (field; lra).
      rewrite E, H. ring. }
    unfold Q_of_nat, Qeq in E. cbn [Qnum Qden inject_Z] in E. lia.
  - intros ->. now apply ratio_whole.
Qed.

Lemma filter_length_all {A : Type} (f : A -> bool) (l : list A) :
  List.length (filter f l) = List.length l -> Forall (fun x => f x = true) l.
Proof.
  induction l as [|x l IH]; cbn [filter List.length]; intros H; [constructor|].
  pose proof (length_filter_le f l) as Hle.
  destruct (f x) eqn:E; cbn [List.length] in H; [|lia].
  constructor; [exact E | apply IH; lia].
Qed.

(** The field names of two documents taken together. *)
Definition allKeys (docA docB : Document) : list string :=
  dedup String.eqb (Object_keys (data_of docA) ++ Object_keys (data_of docB)).

Lemma allKeys_Permutation docA docB :
  Permutation (allKeys docA docB) (allKeys docB docA).
Proof.
  apply NoDup_Permutation; try apply NoDup_dedup.
  intros x. apply allFields_same_members.
Qed.

Lemma similarity_bounds docA docB :
  (0 <= _calculateSimilarity docA docB <= 1)%Q.
Proof.
  unfold _calculateSimilarity. fold (allKeys docA docB).
  destruct (Nat.ltb_spec 0 (List.length (allKeys docA docB))) as [Hpos|_].
  - apply ratio_bounds; [apply length_filter_le | exact Hpos].
  - split; discriminate.
Qed.

(** X15.  The similarity of two documents is a share of their fields:
    it lies between 0 and 1; it does not depend on the order of the two
    documents; and for a document and itself it is 1 when no field of
    the document holds NaN, and only then. *)
Theorem similarity_is_a_symmetric_share (docA docB : Document) :
  (0 <= _calculateSimilarity docA docB <= 1)%Q /\
  _calculateSimilarity docA docB = _calculateSimilarity docB docA /\
  ((_calculateSimilarity docA docA == 1)%Q <->
   forall key, In key (allKeys docA docA) ->
     isNaN (elem (data_of docA) key) = false).
Proof.
  split; [|split; [|split]].
  - apply similarity_bounds.
  - unfold _calculateSimilarity. fold (allKeys docA docB) (allKeys docB docA).
    rewrite <- (Permutation_length (allKeys_Permutation docA docB)).
    rewrite <- (length_filter_Permutation _ _ _ (allKeys_Permutation docA docB)).
    rewrite (filter_ext
               (fun key => _areEqual (elem (data_of docB) key)
                             (elem (data_of docA) key))
               (fun key => _areEqual (elem (data_of docA) key)
                             (elem (data_of docB) key)));
      [reflexivity|].
    intros x. apply _areEqual_sym.
  - intros Hone key Hkey.
    destruct (isNaN (elem (data_of docA) key)) eqn:HNaN; [exfalso|reflexivity].
    unfold _calculateSimilarity in Hone. fold (allKeys docA docA) in Hone.
    assert (Hpos : 0 < List.length (allKeys docA docA))
      by (destruct (allKeys docA docA); [destruct Hkey | cbn [List.length]; lia]).
    destruct (Nat.ltb_spec 0 (List.length (allKeys docA docA))) as [_|Hn];
      [|lia].
    apply ratio_one_iff in Hone; [|exact Hpos].
    apply filter_length_all in Hone.
    rewrite Forall_forall in Hone. specialize (Hone key Hkey).
    cbv beta in Hone. rewrite _areEqual_same, HNaN in Hone. discriminate.
  - intros Hplain.
    unfold _calculateSimilarity. fold (allKeys docA docA).
    destruct (Nat.ltb_spec 0 (List.length (allKeys docA docA))) as [Hpos|_];
      [|reflexivity].
    replace (filter _ (allKeys docA docA)) with (allKeys docA docA).
    + now apply ratio_whole.
    + symmetry. apply forallb_filter_id. apply forallb_forall.
      intros x Hx. apply _areEqual_refl. now apply Hplain.
Qed.

(** [similarity_is_a_symmetric_share] on two one-field records: the
    record whose amount is 100 is as similar to itself as can be, the
    record whose amount is NaN is not. *)
Lemma similarity_is_a_symmetric_share_witness :
  let record (amount : value) :=
    mkDocument VUndef VUndef None None VUndef [("amount", amount)] in
  (_calculateSimilarity (record (VNum 100)) (record (VNum 100)) == 1)%Q /\
  ~ (_calculateSimilarity (record VNaN) (record VNaN) == 1)%Q.
Proof.
  intros record. split.
  - apply (proj2 (proj2 (proj2 (similarity_is_a_symmetric_share
                                  (record (VNum 100)) (record (VNum 100)))))).
    intros key Hkey. vm_compute in Hkey. destruct Hkey as [<-|[]].
    reflexivity.
  - intros Hone.
    pose proof (proj1 (proj2 (proj2 (similarity_is_a_symmetric_share
                                       (record VNaN) (record VNaN))))
                  Hone "amount" (or_introl eq_refl)) as HNaN.
    discriminate HNaN.
Defined.

Lemma length_flat_map_opt {A B : Type} (h : A -> option B) (l : list A) :
  List.length (flat_map (fun x => opt_list (h x)) l)
  = List.length
      (filter (fun x => match h x with Some _ => true | None => false end) l).
Proof.
  induction l as [|x l IH]; [reflexivity|].
  cbn [flat_map filter]. rewrite length_app, IH.
  now destruct (h x).
Qed.

(** The fields on which the two documents agree. *)
Definition equal_fields (docA docB : Document) : list string :=
  filter (fun key => _areEqual (elem (data_of docA) key)
                       (elem (data_of docB) key)) (allKeys docA docB).

Lemma differences_count this docA docB env :
  (forall f, In f (ignoreFields this) -> ~ In f (allKeys docA docB)) ->
  List.length (differences (compare this docA docB env))
  + List.length (equal_fields docA docB)
  = List.length (allKeys docA docB).
Proof.
  intros Hign. rewrite differences_by_field. fold (allKeys docA docB).
  rewrite length_flat_map_opt, Nat.add_comm.
  rewrite <- (length_filter_split
                (fun key => _areEqual (elem (data_of docA) key)
                              (elem (data_of docB) key)) (allKeys docA docB)).
  unfold equal_fields. f_equal. f_equal.
  apply filter_ext_in. intros f Hf. unfold difference_at.
  assert (Hnot : existsb (String.eqb f) (ignoreFields this) = false).
  { destruct (existsb _ _) eqn:E; [|reflexivity].
    apply existsb_exists in E. destruct E as (x & Hx & Hxf).
    apply String.eqb_eq in Hxf. subst x. now elim (Hign f Hx). }
  rewrite Hnot. unfold _compareValues.
  pose proof (compareValues_none (_compareObjects (deepCompare this))
                (deepCompare this) (elem (data_of docA) f)
                (elem (data_of docB) f) f) as Hnone.
  destruct (compareValues_with _ _ _ _ _);
    destruct (_areEqual _ _); try reflexivity.
  - destruct Hnone as [_ H]. discriminate (H eq_refl).
  - destruct Hnone as [H _]. discriminate (H eq_refl).
Qed.

(** X16.  compare and the similarity measure agree.  When none of the
    ignored fields occurs in the two documents, every field is either
    reported as a difference or counted as matching by the similarity:
    the number of differences and the number of equal fields add up to
    the number of fields; the change percentage of the comparison and
    the similarity add up to 1 (when there is a field at all); and the
    comparison says identical exactly when the similarity is 1. *)
Theorem compare_agrees_with_similarity (this : Comparator)
  (docA docB : Document) (env : Env) :
  (forall f, In f (ignoreFields this) -> ~ In f (allKeys docA docB)) ->
  let c := compare this docA docB env in
  totalDifferences (statistics c) + List.length (equal_fields docA docB)
    = totalFields (statistics c) /\
  (0 < totalFields (statistics c) ->
   (changePercentage (statistics c) + _calculateSimilarity docA docB == 1)%Q) /\
  (identical c = true <-> (_calculateSimilarity docA docB == 1)%Q).
Proof.
  intros Hign c.
  pose proof (differences_count this docA docB env Hign) as Hcount.
  fold c in Hcount.
  assert (Hstats : statistics c
                   = _calculateStats (differences c)
                       (List.length (allKeys docA docB))) by reflexivity.
  assert (Hid : identical c = (List.length (differences c) =? 0)%nat)
    by reflexivity.
  assert (Hsim : _calculateSimilarity docA docB
                 = if (0 <? List.length (allKeys docA docB))%nat
                   then (Q_of_nat (List.length (equal_fields docA docB))
                         / Q_of_nat (List.length (allKeys docA docB)))%Q
                   else 1%Q) by reflexivity.
  rewrite Hstats, Hid, Hsim.
  cbn [_calculateStats totalDifferences totalFields changePercentage].
  split; [exact Hcount|]. split.
  - intros Hpos. apply Nat.ltb_lt in Hpos. rewrite Hpos.
    apply Nat.ltb_lt in Hpos. now apply ratios_add_up.
  - destruct (Nat.ltb_spec 0 (List.length (allKeys docA docB))) as [Hpos|Hnone].
    + rewrite (ratio_one_iff _ _ Hpos), Nat.eqb_eq. lia.
    + rewrite Nat.eqb_eq. split; [reflexivity|]. lia.
Qed.

(** A run of [compare_agrees_with_similarity]: two records that differ
    in one field of two. *)
Lemma compare_agrees_with_similarity_witness :
  let this := constructor (mkOptions None None None) in
  let docA := mkDocument (VStr "a") (VNum 1) None None VUndef
                [("amount", VNum 100); ("currency", VStr "EUR")] in
  let docB := mkDocument (VStr "b") (VNum 1) None None VUndef
                [("amount", VNum 150); ("currency", VStr "EUR")] in
  let c := compare this docA docB (mkEnv 0%Z "uuid") in
  totalDifferences (statistics c) + List.length (equal_fields docA docB)
    = totalFields (statistics c) /\
  (changePercentage (statistics c) + _calculateSimilarity docA docB == 1)%Q.
Proof.
  intros this docA docB c.
  destruct (compare_agrees_with_similarity this docA docB (mkEnv 0%Z "uuid"))
    as (Hcount & Hsum & _).
  - intros f Hf Hin. vm_compute in Hf, Hin.
    destruct Hf as [<-|[<-|[<-|[]]]]; intuition discriminate.
  - split; [exact Hcount|]. apply Hsum. vm_compute. lia.
Defined.

(** *** compareMultiple *)

Lemma nth_error_numbered {A : Type} (l : list A) : forall i k,
  nth_error (numbered i l) k = option_map (pair (i + k)) (nth_error l k).
Proof.
  induction l as [|x l IH]; intros i [|k]; cbn [numbered nth_error option_map];
    try reflexivity.
  - now rewrite Nat.add_0_r.
  - rewrite IH. now replace (S i + k) with (i + S k) by lia.
Qed.

Lemma length_numbered {A : Type} (l : list A) : forall i,
  List.length (numbered i l) = List.length l.
Proof. induction l as [|x l IH]; intros i; simpl; auto. Qed.

Lemma map_fst_numbered {A : Type} (l : list A) : forall i,
  map fst (numbered i l) = seq i (List.length l).
Proof. induction l as [|x l IH]; intros i; simpl; [reflexivity|now rewrite IH]. Qed.

Lemma In_numbered {A : Type} (l : list A) : forall i j b,
  In (j, b) (numbered i l) -> i <= j /\ nth_error l (j - i) = Some b.
Proof.
  induction l as [|x l IH]; intros i j b Hin; [destruct Hin|].
  destruct Hin as [Heq|Hin].
  - injection Heq as <- <-. now rewrite Nat.sub_diag.
  - apply IH in Hin. destruct Hin as [Hle Hnth]. split; [lia|].
    replace (j - i) with (S (j - S i)) by lia. exact Hnth.
Qed.

Lemma length_pairs_from {A : Type} (l : list A) : forall i,
  2 * List.length (pairs_from i l) = List.length l * (List.length l - 1).
Proof.
  induction l as [|x l IH]; intros i; [reflexivity|].
  cbn [pairs_from List.length].
  rewrite length_app, length_map, length_numbered.
  specialize (IH (S i)). nia.
Qed.

(** The index pairs [(i, j)], [i < j < n], in the order of the loops. *)
Definition index_pairs (from_ n : nat) : list (nat * nat) :=
  flat_map (fun i => map (pair i) (seq (S i) (from_ + n - S i))) (seq from_ n).

Lemma pairs_from_indices {A : Type} (l : list A) : forall i,
  map (fun p : (nat * A) * (nat * A) => (fst (fst p), fst (snd p)))
    (pairs_from i l)
  = index_pairs i (List.length l).
Proof.
  unfold index_pairs.
  induction l as [|x l IH]; intros i; [reflexivity|].
  cbn [pairs_from List.length seq flat_map].
  rewrite map_app, map_map. cbn [fst snd]. f_equal.
  - rewrite <- (map_map fst (pair i)), map_fst_numbered.
    f_equal. f_equal. lia.
  - rewrite IH. apply flat_map_ext. intros a. do 2 f_equal. lia.
Qed.

Lemma In_pairs_from {A : Type} (l : list A) : forall i i' j' a b,
  In ((i', a), (j', b)) (pairs_from i l) ->
  i <= i' /\ i' < j' /\
  nth_error l (i' - i) = Some a /\ nth_error l (j' - i) = Some b.
Proof.
  induction l as [|x l IH]; intros i i' j' a b Hin; [destruct Hin|].
  cbn [pairs_from] in Hin. apply in_app_or in Hin. destruct Hin as [Hin|Hin].
  - apply in_map_iff in Hin. destruct Hin as ([j0 b0] & Heq & Hin).
    injection Heq as E1 E2 E3 E4. subst i' a j0 b0. apply In_numbered in Hin.
    destruct Hin as [Hle Hnth]. rewrite Nat.sub_diag.
    repeat split; [lia | lia |].
    replace (j' - i) with (S (j' - S i)) by lia. exact Hnth.
  - apply IH in Hin. destruct Hin as (H1 & H2 & H3 & H4).
    repeat split; [lia | lia | |].
    + replace (i' - i) with (S (i' - S i)) by lia. exact H3.
    + replace (j' - i) with (S (j' - S i)) by lia. exact H4.
Qed.

Lemma compare_identical this docA docB env :
  identical (compare this docA docB env) = true
  <-> differences (compare this docA docB env) = [].
Proof.
  unfold compare. cbn [identical differences]. rewrite Nat.eqb_eq.
  apply length_zero_iff_nil.
Qed.

Lemma compareMultiple_nth this documents envs k c :
  nth_error (comparisons (compareMultiple this documents envs)) k = Some c ->
  exists i a j b,
    In ((i, a), (j, b)) (pairs_from 0 documents) /\
    c = mkPairComparison (i, j) (compare this a b (envs k)).
Proof.
  unfold compareMultiple. cbn [comparisons]. intros Hk.
  rewrite nth_error_map, nth_error_numbered in Hk.
  destruct (nth_error (pairs_from 0 documents) k) as [[[i a] [j b]]|] eqn:Hp;
    [|discriminate].
  cbn in Hk. injection Hk as <-. exists i, a, j, b.
  split; [|reflexivity]. eapply nth_error_In; eauto.
Qed.

Lemma compareMultiple_count this documents envs :
  2 * comparisonCount (compareMultiple this documents envs)
  = List.length documents * (List.length documents - 1).
Proof.
  unfold compareMultiple. cbn [comparisonCount].
  rewrite length_map, length_numbered. apply length_pairs_from.
Qed.

(** X17.  compareMultiple compares every pair once.  For n documents
    there are n(n-1)/2 comparisons, those of the index pairs (i, j)
    with i < j in the order (0,1), (0,2), ..., (1,2), ...; the k-th of
    them is the comparison of documents i and j, in that order, made
    with the k-th reading of the clock and of the uuid generator; and
    [allIdentical] holds exactly when no comparison lists a
    difference. *)
Theorem compareMultiple_compares_every_pair (this : Comparator)
  (documents : list Document) (envs : nat -> Env) :
  let r := compareMultiple this documents envs in
  let n := List.length documents in
  documentCount r = n /\
  2 * comparisonCount r = n * (n - 1) /\
  map pc_pair (comparisons r) = index_pairs 0 n /\
  (forall k c,
     nth_error (comparisons r) k = Some c ->
     exists a b,
       fst (pc_pair c) < snd (pc_pair c) /\
       nth_error documents (fst (pc_pair c)) = Some a /\
       nth_error documents (snd (pc_pair c)) = Some b /\
       pc_comparison c = compare this a b (envs k)) /\
  (allIdentical r = true <->
   forall c, In c (comparisons r) -> differences (pc_comparison c) = []).
Proof.
  intros r n. subst r n. unfold compareMultiple.
  cbn [documentCount comparisonCount comparisons allIdentical].
  pose proof (compareMultiple_nth this documents envs) as Hnth.
  unfold compareMultiple in Hnth. cbn [comparisons] in Hnth.
  split; [reflexivity|]. split; [|split; [|split]].
  - apply (compareMultiple_count this documents envs).
  - rewrite <- pairs_from_indices, map_map.
    generalize (pairs_from 0 documents) as ps. generalize 0 as k.
    intros k ps. revert k.
    induction ps as [|[[i a] [j b]] ps IH]; intros k; [reflexivity|].
    cbn [numbered map]. now rewrite IH.
  - intros k c Hk. destruct (Hnth k c Hk) as (i & a & j & b & Hin & ->).
    apply In_pairs_from in Hin. destruct Hin as (_ & Hlt & Ha & Hb).
    rewrite Nat.sub_0_r in Ha, Hb. exists a, b. cbn [pc_pair pc_comparison fst snd].
    auto.
  - rewrite forallb_forall. split; intros H c Hc.
    + specialize (H c Hc). apply In_nth_error in Hc. destruct Hc as [k Hk].
      destruct (Hnth k c Hk) as (i & a & j & b & _ & ->).
      cbn [pc_comparison] in *. now apply compare_identical.
    + specialize (H c Hc). apply In_nth_error in Hc. destruct Hc as [k Hk].
      destruct (Hnth k c Hk) as (i & a & j & b & _ & ->).
      cbn [pc_comparison] in *. now apply compare_identical.
Qed.

(** A run of [compareMultiple_compares_every_pair]: the first of the
    three comparisons of three documents. *)
Lemma compareMultiple_compares_every_pair_witness :
  let this := constructor (mkOptions None None None) in
  let doc amount :=
    mkDocument VUndef VUndef None None VUndef [("amount", VNum amount)] in
  let documents := [doc 1%Z; doc 2%Z; doc 3%Z] in
  let envs := fun k : nat => mkEnv (Z.of_nat k) "uuid" in
  let r := compareMultiple this documents envs in
  exists c a b,
    nth_error (comparisons r) 0 = Some c /\
    fst (pc_pair c) < snd (pc_pair c) /\
    nth_error documents (fst (pc_pair c)) = Some a /\
    nth_error documents (snd (pc_pair c)) = Some b /\
    pc_comparison c = compare this a b (envs 0).
Proof.
  intros this doc documents envs r.
  destruct (nth_error (comparisons r) 0) as [c|] eqn:Hc;
    [|vm_compute in Hc; discriminate].
  destruct (proj1 (proj2 (proj2 (proj2
              (compareMultiple_compares_every_pair this documents envs))))
              0 c Hc) as (a & b & H).
  exists c, a, b. split; [reflexivity|exact H].
Defined.

(** *** The differences common to all comparisons *)

Definition Map_get := @DocumentRegister.Map_get.
Definition Map_set := @DocumentRegister.Map_set.

Lemma count_field_get m x f :
  Map_get _ (count_field m x) f =
    if x =? f
    then Some (match Map_get _ m x with Some n => n + 1 | None => 1 end)
    else Map_get _ m f.
Proof.
  unfold count_field, Map_get.
  destruct (DocumentRegister.Map_get m x) as [n|] eqn:Hx.
  - rewrite Hx. destruct (String.eqb_spec x f) as [->|Hne].
    + apply RegisterFacts.Map_get_set_same.
    + now apply RegisterFacts.Map_get_set_other.
  - rewrite RegisterFacts.Map_get_set_same.
    destruct (String.eqb_spec x f) as [->|Hne].
    + apply RegisterFacts.Map_get_set_same.
    + rewrite !RegisterFacts.Map_get_set_other by exact Hne. reflexivity.
Qed.

Lemma count_field_NoDup m x :
  NoDup (map fst m) -> NoDup (map fst (count_field m x)).
Proof.
  intros H. unfold count_field.
  destruct (DocumentRegister.Map_get m x);
    repeat apply RegisterFacts.Map_set_NoDup; exact H.
Qed.

(** The number of times [f] occurs in [l]. *)
Definition occurrences (l : list string) (f : string) : nat :=
  List.length (filter (String.eqb f) l).

Lemma tally_get l : forall m f,
  Map_get _ (fold_left count_field l m) f =
    match occurrences l f, Map_get _ m f with
    | 0, g => g
    | S k, Some n => Some (n + S k)
    | S k, None => Some (S k)
    end.
Proof.
  unfold occurrences.
  induction l as [|x l IH]; intros m f; cbn [fold_left filter List.length].
  - now destruct (Map_get _ m f).
  - rewrite IH, count_field_get, (String.eqb_sym f x).
    destruct (String.eqb_spec x f) as [->|Hne]; cbn [List.length].
    + destruct (List.length (filter (String.eqb f) l)) as [|k];
        destruct (Map_get _ m f) as [n|]; f_equal; lia.
    + reflexivity.
Qed.

Lemma tally_NoDup l : forall m,
  NoDup (map fst m) -> NoDup (map fst (fold_left count_field l m)).
Proof.
  induction l as [|x l IH]; intros m H; cbn [fold_left]; auto.
  apply IH. now apply count_field_NoDup.
Qed.

Lemma Map_get_of_In {V : Type} (m : list (string * V)) k v :
  NoDup (map fst m) -> In (k, v) m -> DocumentRegister.Map_get m k = Some v.
Proof.
  induction m as [|[k0 v0] m IH]; intros Hnd Hin; [destruct Hin|].
  cbn [map fst] in Hnd. inversion Hnd as [|? ? Hnot Hnd']; subst.
  cbn [DocumentRegister.Map_get]. destruct Hin as [Heq|Hin].
  - injection Heq as -> ->. now rewrite String.eqb_refl.
  - destruct (String.eqb_spec k0 k) as [->|Hne]; [|now apply IH].
    elim Hnot. apply in_map_iff. now exists (k, v).
Qed.

Lemma NoDup_map_fst_filter {A B : Type} (p : A * B -> bool) (m : list (A * B)) :
  NoDup (map fst m) -> NoDup (map fst (filter p m)).
Proof.
  induction m as [|x m IH]; intros H; [constructor|].
  cbn [map] in H. inversion H as [|? ? Hnot Hnd]; subst.
  cbn [filter]. destruct (p x); [|now apply IH].
  cbn [map]. constructor; [|now apply IH].
  intros Hin. apply Hnot. apply in_map_iff in Hin.
  destruct Hin as (y & Hy & Hin). apply filter_In in Hin.
  apply in_map_iff. exists y. tauto.
Qed.

Lemma occurrences_app l l' f :
  occurrences (l ++ l') f = occurrences l f + occurrences l' f.
Proof. unfold occurrences. now rewrite filter_app, length_app. Qed.

Lemma occurrences_NoDup l f :
  NoDup l -> occurrences l f = if existsb (String.eqb f) l then 1 else 0.
Proof.
  unfold occurrences.
  induction 1 as [|x l Hx Hl IH]; [reflexivity|].
  cbn [filter existsb]. destruct (String.eqb_spec f x) as [->|Hne].
  - cbn [List.length orb]. rewrite IH.
    destruct (existsb (String.eqb x) l) eqn:E; [|reflexivity].
    apply existsb_exists in E. destruct E as (y & Hy & Hxy).
    apply String.eqb_eq in Hxy. subst y. contradiction.
  - exact IH.
Qed.

(** A field occurs in every list exactly when it occurs as many times
    as there are lists, none of them repeating a field. *)
Lemma occurrences_everywhere {A : Type} (F : A -> list string) (cs : list A) f :
  (forall c, In c cs -> NoDup (F c)) ->
  occurrences (flat_map F cs) f <= List.length cs /\
  (occurrences (flat_map F cs) f = List.length cs <->
   forall c, In c cs -> In f (F c)).
Proof.
  induction cs as [|c cs IH]; intros Hnd.
  - cbn. split; [lia|]. split; [intros _ ? []|reflexivity].
  - destruct IH as [Hle Hiff]; [intros; apply Hnd; now right|].
    cbn [flat_map List.length]. rewrite occurrences_app.
    rewrite (occurrences_NoDup (F c)) by (apply Hnd; now left).
    destruct (existsb (String.eqb f) (F c)) eqn:E.
    + apply existsb_exists in E. destruct E as (y & Hy & Hfy).
      apply String.eqb_eq in Hfy. subst y.
      split; [lia|]. split.
      * intros H c' [<-|Hc']; [exact Hy|]. apply Hiff; [lia|exact Hc'].
      * intros H.
        assert (occurrences (flat_map F cs) f = List.length cs); [|lia].
        apply Hiff. intros c' Hc'. apply H. now right.
    + split; [lia|]. split; [lia|].
      intros H. specialize (H c (or_introl eq_refl)).
      assert (existsb (String.eqb f) (F c) = true)
        by (apply existsb_exists; exists f; split;
            [exact H | apply String.eqb_refl]).
      congruence.
Qed.

Lemma fold_fields (cs : list PairComparison) : forall m,
  fold_left (fun fieldDiffs c =>
      fold_left (fun fieldDiffs diff => count_field fieldDiffs (field diff))
        (differences (pc_comparison c)) fieldDiffs) cs m
  = fold_left count_field
      (flat_map (fun c => map field (differences (pc_comparison c))) cs) m.
Proof.
  induction cs as [|c cs IH]; intros m; [reflexivity|].
  cbn [fold_left flat_map]. rewrite fold_left_app, IH. f_equal.
  generalize (differences (pc_comparison c)) as ds. intros ds. revert m.
  induction ds as [|d ds IHd]; intros m; [reflexivity|]. cbn. apply IHd.
Qed.

Lemma common_differences (cs : list PairComparison) f :
  (forall c, In c cs -> NoDup (map field (differences (pc_comparison c)))) ->
  NoDup (_findCommonDifferences cs) /\
  (In f (_findCommonDifferences cs) <->
   2 <= List.length cs /\
   forall c, In c cs -> In f (map field (differences (pc_comparison c)))).
Proof.
  intros Hnd. unfold _findCommonDifferences.
  destruct (Nat.ltb_spec (List.length cs) 2) as [Hfew|Hmany].
  - split; [constructor|]. split; [intros []|lia].
  - rewrite fold_fields.
    set (all := flat_map (fun c => map field (differences (pc_comparison c))) cs).
    assert (Hkeys : NoDup (map fst (fold_left count_field all [])))
      by (apply tally_NoDup; constructor).
    split; [now apply NoDup_map_fst_filter|].
    destruct (occurrences_everywhere
                (fun c => map field (differences (pc_comparison c))) cs f Hnd)
      as [_ Hiff].
    fold all in Hiff. rewrite <- Hiff.
    pose proof (tally_get all [] f) as Hget. cbn [Map_get DocumentRegister.Map_get] in Hget.
    change (DocumentRegister.Map_get (fold_left count_field all []) f)
      with (Map_get _ (fold_left count_field all []) f).
    rewrite in_map_iff. split.
    + intros ([f' n] & Hf & Hin). cbn [fst] in Hf. subst f'.
      apply filter_In in Hin. destruct Hin as [Hin Hn]. cbn [snd] in Hn.
      apply Nat.eqb_eq in Hn. subst n. split; [exact Hmany|].
      apply Map_get_of_In in Hin; [|exact Hkeys].
      unfold Map_get in Hget. rewrite Hin in Hget.
      destruct (occurrences all f); [discriminate|]. now injection Hget.
    + intros [_ Hocc]. exists (f, List.length cs). split; [reflexivity|].
      apply filter_In. split; [|apply Nat.eqb_refl].
      apply RegisterFacts.Map_get_In. unfold Map_get in Hget. rewrite Hget, Hocc.
      destruct (List.length cs); [lia|reflexivity].
Qed.

Lemma compare_fields_NoDup this docA docB env :
  NoDup (map field (differences (compare this docA docB env))).
Proof.
  rewrite differences_by_field.
  apply (one_difference_per_field
           (difference_at this (data_of docA) (data_of docB))).
  - intros k d. apply difference_at_field.
  - apply NoDup_dedup.
Qed.

(** X18.  The common differences of compareMultiple are the fields
    that differ in every pair.  A field is listed exactly when there
    are at least two comparisons (three documents or more) and every one
    of them reports a difference on it; no field is listed twice.  With
    two documents, hence one comparison, nothing is ever listed. *)
Theorem common_differences_differ_in_every_pair (this : Comparator)
  (documents : list Document) (envs : nat -> Env) (f : string) :
  let r := compareMultiple this documents envs in
  NoDup (commonDifferences r) /\
  (In f (commonDifferences r) <->
   2 <= comparisonCount r /\
   forall c, In c (comparisons r) ->
     In f (map field (differences (pc_comparison c)))) /\
  (List.length documents <= 2 -> commonDifferences r = []).
Proof.
  intros r.
  assert (Hnd : forall c, In c (comparisons r) ->
                  NoDup (map field (differences (pc_comparison c)))).
  { intros c Hc. apply In_nth_error in Hc. destruct Hc as [k Hk].
    destruct (compareMultiple_nth this documents envs k c Hk)
      as (i & a & j & b & _ & ->).
    apply compare_fields_NoDup. }
  destruct (common_differences (comparisons r) f Hnd) as [H1 H2].
  split; [exact H1|]. split; [exact H2|].
  intros Hfew.
  pose proof (compareMultiple_count this documents envs) as Hcount.
  fold r in Hcount.
  change (commonDifferences r) with (_findCommonDifferences (comparisons r)).
  unfold _findCommonDifferences.
  change (List.length (comparisons r)) with (comparisonCount r).
  destruct (Nat.ltb_spec (comparisonCount r) 2) as [_|Hmany]; [reflexivity|].
  remember (List.length documents) as n eqn:Hn. clear Hn.
  destruct n as [|[|[|n]]]; lia.
Qed.

(** A run of [common_differences_differ_in_every_pair]: with two
    documents nothing is common. *)
Lemma common_differences_differ_in_every_pair_witness :
  commonDifferences
    (compareMultiple (constructor (mkOptions None None None))
       [mkDocument VUndef VUndef None None VUndef [("amount", VNum 1)];
        mkDocument VUndef VUndef None None VUndef [("amount", VNum 2)]]
       (fun k => mkEnv 0%Z "uuid")) = [].
Proof.
  apply (proj2 (proj2 (common_differences_differ_in_every_pair
                         (constructor (mkOptions None None None))
                         [mkDocument VUndef VUndef None None VUndef
                            [("amount", VNum 1)];
                          mkDocument VUndef VUndef None None VUndef
                            [("amount", VNum 2)]]
                         (fun k => mkEnv 0%Z "uuid") "amount"))).
  simpl. lia.
Defined.

(** *** Sorting by an integer key *)

Section SortByKey.

Variable A : Type.
Variable key : A -> Z.
Variable cmp : A -> A -> Q.
Hypothesis cmp_key : forall a b, (cmp a b == inject_Z (key a - key b))%Q.

Definition ascending : list A -> Prop :=
  StronglySorted (fun a b => (key a <= key b)%Z).

Lemma cmp_negative a b : (cmp a b < 0)%Q <-> (key a < key b)%Z.
Proof.
  rewrite cmp_key. change 0%Q with (inject_Z 0). rewrite <- Zlt_Qlt. lia.
Qed.

Lemma sort_insert_ascending x l :
  ascending l -> ascending (sort_insert cmp x l).
Proof.
  unfold ascending. induction 1 as [|y l Hl IH Hy]; cbn [sort_insert].
  - repeat constructor.
  - destruct (Qlt_le_dec (cmp x y) 0) as [Hlt|Hle].
    + apply cmp_negative in Hlt.
      constructor; [now constructor|]. constructor; [lia|].
      rewrite Forall_forall in *. intros z Hz. specialize (Hy z Hz). lia.
    + assert (Hge : (key y <= key x)%Z).
      { destruct (Z.le_gt_cases (key y) (key x)) as [H|H]; [exact H|].
        apply cmp_negative in H. lra. }
      constructor; [exact IH|].
      rewrite Forall_forall in *. intros z Hz.
      apply RegisterFacts.In_sort_insert in Hz.
      destruct Hz as [->|Hz]; [exact Hge|now apply Hy].
Qed.

Lemma Array_sort_ascending l : ascending (Array_sort cmp l).
Proof.
  unfold Array_sort.
  assert (H : forall acc, ascending acc ->
            ascending (fold_left (fun sorted x => sort_insert cmp x sorted)
                         l acc)).
  { induction l as [|x l IH]; intros acc Hacc; cbn [fold_left]; auto.
    apply IH, sort_insert_ascending, Hacc. }
  apply H. constructor.
Qed.

(** Two ascending arrangements of the same elements, no two with the
    same key, are the same list. *)
Lemma ascending_unique l1 : forall l2,
  ascending l1 -> ascending l2 -> Permutation l1 l2 ->
  NoDup (map key l1) -> l1 = l2.
Proof.
  unfold ascending.
  induction l1 as [|a l1 IH]; intros l2 H1 H2 Hp Hnd.
  - apply Permutation_nil in Hp. now subst.
  - destruct l2 as [|b l2];
      [apply Permutation_sym, Permutation_nil in Hp; discriminate|].
    inversion H1 as [|? ? Hs1 Ha]; subst. inversion H2 as [|? ? Hs2 Hb]; subst.
    rewrite Forall_forall in Ha, Hb.
    assert (Hab : a = b).
    { assert (Hin_a : In a (b :: l2))
        by (eapply Permutation_in; [exact Hp | now left]).
      assert (Hin_b : In b (a :: l1))
        by (eapply Permutation_in; [symmetry; exact Hp | now left]).
      destruct Hin_a as [->|Hin_a]; [reflexivity|].
      destruct Hin_b as [->|Hin_b]; [reflexivity|].
      pose proof (Ha b Hin_b) as Hle1. pose proof (Hb a Hin_a) as Hle2.
      cbn [map] in Hnd. inversion Hnd as [|? ? Hnot _]; subst.
      elim Hnot. replace (key a) with (key b) by lia.
      now apply in_map. }
    subst b. f_equal. apply IH; auto.
    + now apply Permutation_cons_inv in Hp.
    + cbn [map] in Hnd. now inversion Hnd.
Qed.

Lemma Array_sort_unique l sorted :
  ascending sorted -> Permutation l sorted -> NoDup (map key l) ->
  Array_sort cmp l = sorted.
Proof.
  intros Hs Hp Hnd. apply ascending_unique.
  - apply Array_sort_ascending.
  - exact Hs.
  - transitivity l; [symmetry; apply RegisterFacts.Array_sort_Permutation|exact Hp].
  - eapply Permutation_NoDup; [|exact Hnd].
    apply Permutation_map, RegisterFacts.Array_sort_Permutation.
Qed.

End SortByKey.

(** *** compareVersions *)

Definition current_version (e : DocumentRegister.Entry) : Version :=
  mkVersion (DocumentRegister.e_version e) (DocumentRegister.e_data e) None None.

Definition historic_version (h : DocumentRegister.HistoryRecord) : Version :=
  mkVersion (DocumentRegister.h_version h) (DocumentRegister.h_data h)
    (Some (DocumentRegister.h_effectiveFrom h)) (DocumentRegister.h_effectiveTo h).

Definition by_version (a b : Version) : Q :=
  inject_Z (v_version a - v_version b).

(** The array [versions] of [compareVersions], sorted. *)
Definition sorted_versions (e : DocumentRegister.Entry) : list Version :=
  Array_sort by_version
    (current_version e :: map historic_version (DocumentRegister.e_history e)).

Lemma compareVersions_by_versions this e envs :
  compareVersions this e envs =
    let timeline :=
      match sorted_versions e with
      | [] => []
      | first :: later => timeline_of this envs 0 first later
      end in
    {| vr_documentId := DocumentRegister.e_id e;
       versionCount := List.length (sorted_versions e);
       timeline := timeline;
       totalChanges := fold_left (fun sum t => sum + changeCount t) timeline 0;
       mostChangedFields := _getMostChangedFields timeline |}.
Proof. reflexivity. Qed.

Lemma map_version_historic hs :
  map v_version (map historic_version hs)
  = map DocumentRegister.h_version hs.
Proof. rewrite map_map. reflexivity. Qed.

(** X19.  compareVersions does not depend on the order in which the
    history is stored.  For an entry whose versions all carry different
    numbers, the report is the same whatever the order of the records
    in [history]; in particular it is not affected by the reversal an
    as-of lookup leaves behind. *)
Theorem compareVersions_ignores_history_order (this : Comparator)
  (e : DocumentRegister.Entry) (history' : list DocumentRegister.HistoryRecord)
  (envs : nat -> Env) :
  Permutation (DocumentRegister.e_history e) history' ->
  NoDup (DocumentRegister.e_version e
         :: map DocumentRegister.h_version (DocumentRegister.e_history e)) ->
  compareVersions this (DocumentRegister.with_history e history') envs
  = compareVersions this e envs.
Proof.
  intros Hp Hnd. rewrite !compareVersions_by_versions.
  assert (Hs : sorted_versions (DocumentRegister.with_history e history')
               = sorted_versions e).
  { unfold sorted_versions.
    apply (Array_sort_unique Version v_version by_version).
    - reflexivity.
    - apply Array_sort_ascending. reflexivity.
    - cbn [DocumentRegister.with_history DocumentRegister.e_history].
      change (current_version (DocumentRegister.with_history e history'))
        with (current_version e).
      etransitivity; [|apply RegisterFacts.Array_sort_Permutation].
      constructor. apply Permutation_map. now symmetry.
    - cbn [DocumentRegister.with_history DocumentRegister.e_history map].
      rewrite map_version_historic.
      change (v_version (current_version (DocumentRegister.with_history e history')))
        with (DocumentRegister.e_version e).
      eapply Permutation_NoDup; [|exact Hnd].
      constructor. now apply Permutation_map. }
  rewrite Hs. reflexivity.
Qed.

(** An entry at version 3 with two superseded versions. *)
Definition three_versions : DocumentRegister.Entry :=
  DocumentRegister.mkEntry "doc-1" 3 (date 2024 1 1) (date 2024 3 1)
    (date 2024 3 1) None "active"
    (VObj [("amount", VNum 175); ("currency", VStr "EUR")])
    [] (VArr [])
    [DocumentRegister.mkHistoryRecord 1 (VObj [("amount", VNum 100)]) []
       (date 2024 1 1) (Some (date 2024 2 1)) (date 2024 2 1);
     DocumentRegister.mkHistoryRecord 2
       (VObj [("amount", VNum 150); ("currency", VStr "EUR")]) []
       (date 2024 2 1) (Some (date 2024 3 1)) (date 2024 3 1)]
    None.

(** A run of [compareVersions_ignores_history_order]: the history
    reversed. *)
Lemma compareVersions_ignores_history_order_witness :
  compareVersions (constructor (mkOptions None None None))
    (DocumentRegister.with_history three_versions
       (rev (DocumentRegister.e_history three_versions)))
    (fun k => mkEnv 0%Z "uuid")
  = compareVersions (constructor (mkOptions None None None)) three_versions
      (fun k => mkEnv 0%Z "uuid").
Proof.
  apply compareVersions_ignores_history_order.
  - apply Permutation_rev.
  - repeat constructor; simpl; intuition discriminate.
Defined.

(** The versions of an entry, oldest first, as the register stores
    them. *)
Definition oldest_first (e : DocumentRegister.Entry) : list Version :=
  map historic_version (DocumentRegister.e_history e) ++ [current_version e].

Lemma ascending_of_keys {A : Type} (key : A -> Z) (l : list A) :
  StronglySorted Z.le (map key l) -> ascending A key l.
Proof.
  unfold ascending. induction l as [|x l IH]; intros H; [constructor|].
  cbn [map] in H. inversion H as [|? ? Hs Hx]; subst.
  constructor; [now apply IH|].
  rewrite Forall_forall in *. intros y Hy. apply Hx. now apply in_map.
Qed.

Lemma In_from v n x :
  In x (RegisterFacts.from v n) -> (v <= x < v + Z.of_nat n)%Z.
Proof.
  unfold RegisterFacts.from. rewrite in_map_iff.
  intros (i & <- & Hi). apply in_seq in Hi. lia.
Qed.

Lemma from_sorted n : forall v, StronglySorted Z.le (RegisterFacts.from v n).
Proof.
  induction n as [|n IH]; intros v; [constructor|].
  rewrite RegisterFacts.from_S. constructor; [apply IH|].
  apply Forall_forall. intros x Hx. apply In_from in Hx. lia.
Qed.

Lemma from_NoDup n : forall v, NoDup (RegisterFacts.from v n).
Proof.
  induction n as [|n IH]; intros v; [constructor|].
  rewrite RegisterFacts.from_S. constructor; [|apply IH].
  intros Hx. apply In_from in Hx. lia.
Qed.

Lemma nth_error_from n : forall v i x,
  nth_error (RegisterFacts.from v n) i = Some x -> x = (v + Z.of_nat i)%Z.
Proof.
  induction n as [|n IH]; intros v i x H.
  - destruct i; discriminate.
  - rewrite RegisterFacts.from_S in H. destruct i as [|i]; cbn [nth_error] in H.
    + injection H as <-. lia.
    + apply IH in H. lia.
Qed.

Lemma oldest_first_keys e k :
  map DocumentRegister.h_version (DocumentRegister.e_history e)
    = RegisterFacts.from 1 k ->
  DocumentRegister.e_version e = (1 + Z.of_nat k)%Z ->
  map v_version (oldest_first e) = RegisterFacts.from 1 (S k).
Proof.
  intros Hh Hv. unfold oldest_first.
  rewrite map_app, map_version_historic, Hh, RegisterMore.from_snoc.
  cbn [map current_version v_version]. now rewrite Hv.
Qed.

Lemma sorted_versions_oldest_first e k :
  map DocumentRegister.h_version (DocumentRegister.e_history e)
    = RegisterFacts.from 1 k ->
  DocumentRegister.e_version e = (1 + Z.of_nat k)%Z ->
  sorted_versions e = oldest_first e.
Proof.
  intros Hh Hv. unfold sorted_versions.
  pose proof (oldest_first_keys e k Hh Hv) as Hkeys.
  apply (Array_sort_unique Version v_version by_version).
  - reflexivity.
  - apply ascending_of_keys. rewrite Hkeys. apply from_sorted.
  - unfold oldest_first. apply Permutation_cons_append.
  - apply (Permutation_NoDup (l := map v_version (oldest_first e))).
    + apply Permutation_map. symmetry. unfold oldest_first.
      apply Permutation_cons_append.
    + rewrite Hkeys. apply from_NoDup.
Qed.

Lemma length_timeline_of this envs later : forall j prev,
  List.length (timeline_of this envs j prev later) = List.length later.
Proof.
  induction later as [|curr later IH]; intros j prev; [reflexivity|].
  cbn [timeline_of List.length]. now rewrite IH.
Qed.

(** The step from [prev] to [curr], made with [env]. *)
Definition step (this : Comparator) (env : Env) (prev curr : Version)
  : TimelineEntry :=
  let comparison :=
    compare this (version_document prev) (version_document curr) env in
  mkTimelineEntry (v_version prev) (v_version curr) (v_effectiveFrom curr)
    (differences comparison) (List.length (differences comparison))
    (statistics comparison).

Lemma timeline_of_nth this envs later : forall j prev i t,
  nth_error (timeline_of this envs j prev later) i = Some t ->
  exists p c,
    nth_error (prev :: later) i = Some p /\
    nth_error later i = Some c /\
    t = step this (envs (j + i)) p c.
Proof.
  induction later as [|curr later IH]; intros j prev i t H.
  - destruct i; discriminate.
  - cbn [timeline_of] in H. destruct i as [|i]; cbn [nth_error] in H.
    + injection H as <-. exists prev, curr. rewrite Nat.add_0_r.
      repeat split.
    + apply IH in H. destruct H as (p & c & Hp & Hc & ->).
      exists p, c. cbn [nth_error].
      replace (j + S i) with (S j + i) by lia. auto.
Qed.

Lemma fold_changeCount (tl : list TimelineEntry) : forall a,
  fold_left (fun sum t => sum + changeCount t) tl a
  = a + list_sum (map changeCount tl).
Proof.
  induction tl as [|t tl IH]; intros a; simpl; [lia|].
  rewrite IH. lia.
Qed.

Lemma changeCount_is_length this envs later : forall j prev,
  map changeCount (timeline_of this envs j prev later)
  = map (fun t => List.length (changes t)) (timeline_of this envs j prev later).
Proof.
  induction later as [|curr later IH]; intros j prev; [reflexivity|].
  cbn [timeline_of map changeCount changes]. f_equal. apply IH.
Qed.

(** X20.  compareVersions walks the versions of a register entry in
    order.  For an entry whose history holds the versions 1..k and
    whose current version is k+1, there are k+1 versions and k steps;
    step i goes from version i+1 to version i+2 and lists the
    differences between the data of these two versions, compared in this
    order with the i-th reading of the clock and the uuid generator;
    its change count is the number of these differences, and the total
    is their sum; the step carries the effectiveFrom recorded for the
    version it leads to, which for the step to the current version is
    none. *)
Theorem compareVersions_steps_through_versions (this : Comparator)
  (e : DocumentRegister.Entry) (envs : nat -> Env) (k : nat) :
  map DocumentRegister.h_version (DocumentRegister.e_history e)
    = RegisterFacts.from 1 k ->
  DocumentRegister.e_version e = (1 + Z.of_nat k)%Z ->
  let r := compareVersions this e envs in
  versionCount r = S k /\
  List.length (timeline r) = k /\
  totalChanges r
    = list_sum (map (fun t => List.length (changes t)) (timeline r)) /\
  (forall i t,
     nth_error (timeline r) i = Some t ->
     exists p c,
       nth_error (oldest_first e) i = Some p /\
       nth_error (oldest_first e) (S i) = Some c /\
       t = step this (envs i) p c /\
       fromVersion t = (1 + Z.of_nat i)%Z /\
       toVersion t = (2 + Z.of_nat i)%Z /\
       (S i = k -> tl_effectiveFrom t = None)).
Proof.
  intros Hh Hv r. subst r. rewrite compareVersions_by_versions.
  rewrite (sorted_versions_oldest_first e k Hh Hv).
  pose proof (oldest_first_keys e k Hh Hv) as Hkeys.
  assert (Hlen : List.length (oldest_first e) = S k).
  { rewrite <- (length_map v_version), Hkeys. apply RegisterFacts.length_from. }
  destruct (oldest_first e) as [|first later] eqn:Hvs; [discriminate|].
  cbn zeta. cbn [versionCount timeline totalChanges].
  cbn [List.length] in Hlen. split; [exact Hlen|]. split; [|split].
  - rewrite length_timeline_of. lia.
  - rewrite fold_changeCount. cbn [Nat.add]. f_equal.
    apply changeCount_is_length.
  - intros i t Ht. apply timeline_of_nth in Ht.
    destruct Ht as (p & c & Hp & Hc & ->). exists p, c. cbn [Nat.add].
    assert (Hkp : v_version p = (1 + Z.of_nat i)%Z).
    { apply (nth_error_from (S k) 1 i). rewrite <- Hkeys.
      now rewrite nth_error_map, Hp. }
    assert (Hkc : v_version c = (2 + Z.of_nat i)%Z).
    { replace (2 + Z.of_nat i)%Z with (1 + Z.of_nat (S i))%Z by lia.
      apply (nth_error_from (S k) 1 (S i)). rewrite <- Hkeys.
      rewrite nth_error_map. cbn [nth_error]. now rewrite Hc. }
    repeat split; auto.
    intros Hlast. cbn [step tl_effectiveFrom].
    assert (Hcur : c = current_version e).
    { assert (Hnth : nth_error (oldest_first e) (S i) = Some c)
        by (rewrite Hvs; exact Hc).
      unfold oldest_first in Hnth.
      rewrite nth_error_app2 in Hnth
        by (rewrite length_map, <- (length_map DocumentRegister.h_version), Hh,
              RegisterFacts.length_from; lia).
      rewrite length_map, <- (length_map DocumentRegister.h_version), Hh,
        RegisterFacts.length_from, Hlast, Nat.sub_diag in Hnth.
      now injection Hnth. }
    now rewrite Hcur.
Qed.

(** A run of [compareVersions_steps_through_versions] on
    [three_versions]. *)
Lemma compareVersions_steps_through_versions_witness :
  let r := compareVersions (constructor (mkOptions None None None))
             three_versions (fun k => mkEnv 0%Z "uuid") in
  versionCount r = 3 /\ List.length (timeline r) = 2.
Proof.
  destruct (compareVersions_steps_through_versions
              (constructor (mkOptions None None None)) three_versions
              (fun k => mkEnv 0%Z "uuid") 2) as (H1 & H2 & _).
  - reflexivity.
  - reflexivity.
  - split; [exact H1 | exact H2].
Defined.

(** *** The most changed fields *)

Lemma count_change_is_count_field m f : count_change m f = count_field m f.
Proof.
  unfold count_change, count_field.
  destruct (DocumentRegister.Map_get m f) as [n|] eqn:Hget.
  - now rewrite Hget.
  - rewrite RegisterFacts.Map_get_set_same, RegisterMore.Map_set_twice.
    reflexivity.
Qed.

Lemma fold_changes (tl : list TimelineEntry) : forall m,
  fold_left (fun fieldCounts entry =>
      fold_left (fun fieldCounts change => count_change fieldCounts (field change))
        (changes entry) fieldCounts) tl m
  = fold_left count_field (flat_map (fun t => map field (changes t)) tl) m.
Proof.
  induction tl as [|t tl IH]; intros m; [reflexivity|].
  cbn [fold_left flat_map]. rewrite fold_left_app, IH. f_equal.
  generalize (changes t) as ds. intros ds. revert m.
  induction ds as [|d ds IHd]; intros m; [reflexivity|].
  cbn [fold_left map]. rewrite count_change_is_count_field. apply IHd.
Qed.

Lemma StronglySorted_app_inv {A : Type} (R : A -> A -> Prop) (l1 : list A) :
  forall l2, StronglySorted R (l1 ++ l2) ->
  StronglySorted R l1 /\ forall x y, In x l1 -> In y l2 -> R x y.
Proof.
  induction l1 as [|a l1 IH]; intros l2 H.
  - split; [constructor|intros ? ? []].
  - cbn [app] in H. inversion H as [|? ? Hs Ha]; subst.
    destruct (IH l2 Hs) as [Hs1 Hcross]. rewrite Forall_forall in Ha. split.
    + constructor; [exact Hs1|]. apply Forall_forall. intros x Hx.
      apply Ha. apply in_or_app. now left.
    + intros x y [<-|Hx] Hy; [|now apply Hcross].
      apply Ha. apply in_or_app. now right.
Qed.

Definition by_count (a b : string * nat) : Q :=
  inject_Z (Z.of_nat (snd b) - Z.of_nat (snd a)).

(** X21.  The most changed fields are counted over the whole timeline.
    [_getMostChangedFields] lists at most ten fields, none twice, each
    with the number of changes the timeline records on it (at least
    one), in descending order of that number; a changed field is left
    out only when ten are listed, and then none of the listed ones has
    fewer changes. *)
Theorem most_changed_fields_are_counted (tl : list TimelineEntry) :
  let all := flat_map (fun t => map field (changes t)) tl in
  let r := _getMostChangedFields tl in
  List.length r <= 10 /\
  NoDup (map fst r) /\
  (forall f n, In (f, n) r -> 0 < n /\ n = occurrences all f) /\
  StronglySorted (fun a b => snd b <= snd a) r /\
  (forall f, In f all -> ~ In f (map fst r) ->
     List.length r = 10 /\
     forall g n, In (g, n) r -> occurrences all f <= n).
Proof.
  intros all r. subst r. unfold _getMostChangedFields. rewrite fold_changes.
  fold all. change (fun a b : string * nat =>
                      inject_Z (Z.of_nat (snd b) - Z.of_nat (snd a)))
              with by_count.
  set (tally := fold_left count_field all []).
  set (sorted := Array_sort by_count tally).
  assert (Hkeys : NoDup (map fst tally)) by (apply tally_NoDup; constructor).
  assert (Hperm : Permutation tally sorted)
    by apply RegisterFacts.Array_sort_Permutation.
  assert (Hsorted : ascending _ (fun x : string * nat => (- Z.of_nat (snd x))%Z)
                      sorted).
  { apply (Array_sort_ascending _ _ by_count).
    intros a b. unfold by_count.
    replace (- Z.of_nat (snd a) - - Z.of_nat (snd b))%Z
      with (Z.of_nat (snd b) - Z.of_nat (snd a))%Z by lia.
    reflexivity. }
  assert (Hget : forall f n, In (f, n) sorted -> 0 < n /\ n = occurrences all f).
  { intros f n Hin.
    apply (Permutation_in _ (Permutation_sym Hperm)) in Hin.
    apply Map_get_of_In in Hin; [|exact Hkeys].
    pose proof (tally_get all [] f) as Ht. fold tally in Ht.
    unfold Map_get in Ht. cbn [DocumentRegister.Map_get] in Ht.
    rewrite Hin in Ht. destruct (occurrences all f); [discriminate|].
    injection Ht as ->. split; [lia|reflexivity]. }
  rewrite <- (firstn_skipn 10 sorted) in Hsorted.
  apply StronglySorted_app_inv in Hsorted. destruct Hsorted as [Hs1 Hcross].
  split; [apply firstn_le_length|]. split; [|split; [|split]].
  - assert (Hnd : NoDup (map fst sorted))
      by (eapply Permutation_NoDup; [apply Permutation_map; exact Hperm|exact Hkeys]).
    rewrite <- (firstn_skipn 10 sorted), map_app in Hnd.
    now apply NoDup_app_remove_r in Hnd.
  - intros f n Hin. apply Hget.
    rewrite <- (firstn_skipn 10 sorted). apply in_or_app. now left.
  - clear -Hs1. induction Hs1 as [|x l Hl IH Hx]; constructor; auto.
    rewrite Forall_forall in *. intros y Hy. specialize (Hx y Hy).
    cbn beta in Hx. lia.
  - intros f Hf Hout.
    assert (Hin : In (f, occurrences all f) sorted).
    { apply (Permutation_in _ Hperm). apply RegisterFacts.Map_get_In.
      pose proof (tally_get all [] f) as Ht. fold tally in Ht.
      unfold Map_get in Ht. cbn [DocumentRegister.Map_get] in Ht.
      rewrite Ht. destruct (occurrences all f) eqn:Hocc; [|reflexivity].
      exfalso. unfold occurrences in Hocc.
      apply length_zero_iff_nil in Hocc.
      assert (Hin : In f (filter (String.eqb f) all))
        by (apply filter_In; split; [exact Hf | apply String.eqb_refl]).
      rewrite Hocc in Hin. destruct Hin. }
    rewrite <- (firstn_skipn 10 sorted) in Hin. apply in_app_or in Hin.
    destruct Hin as [Hin|Hin].
    + elim Hout. apply in_map_iff. now exists (f, occurrences all f).
    + split.
      * rewrite length_firstn. apply Nat.min_l.
        destruct (Nat.le_gt_cases 10 (List.length sorted)) as [H|H]; [exact H|].
        rewrite skipn_all2 in Hin by lia. destruct Hin.
      * intros g n Hg. specialize (Hcross _ _ Hg Hin). cbn [snd] in Hcross. lia.
Qed.

(** A run of [most_changed_fields_are_counted] on the timeline of
    [three_versions]: the amount changes in both steps. *)
Lemma most_changed_fields_are_counted_witness :
  let tl := timeline (compareVersions (constructor (mkOptions None None None))
                        three_versions (fun k => mkEnv 0%Z "uuid")) in
  0 < 2 /\
  2 = occurrences (flat_map (fun t => map field (changes t)) tl) "amount".
Proof.
  intros tl.
  apply (proj1 (proj2 (proj2 (most_changed_fields_are_counted tl))) "amount" 2).
  vm_compute. auto.
Defined.

(** *** findOverlaps: the groups *)

(** The documents filed under a key. *)
Definition group (groups : list (string * list Document)) (k : string)
  : list Document :=
  match DocumentRegister.Map_get groups k with Some ds => ds | None => [] end.

Lemma push_doc_group groups k0 d k :
  group (push_doc groups k0 d) k
  = group groups k ++ (if k0 =? k then [d] else []).
Proof.
  unfold group.
  induction groups as [|[k1 ds1] groups IH];
    cbn [push_doc DocumentRegister.Map_get].
  - destruct (k0 =? k); reflexivity.
  - destruct (String.eqb_spec k1 k0) as [->|Hne]; cbn [DocumentRegister.Map_get].
    + destruct (String.eqb_spec k0 k) as [->|Hne']; [reflexivity|].
      now rewrite app_nil_r.
    + destruct (String.eqb_spec k1 k) as [->|Hne']; [|exact IH].
      destruct (String.eqb_spec k0 k) as [->|_]; [congruence|].
      now rewrite app_nil_r.
Qed.

(** Every key holds a group that is not empty, and no key occurs
    twice. *)
Definition well_grouped (groups : list (string * list Document)) : Prop :=
  NoDup (map fst groups) /\ forall k ds, In (k, ds) groups -> ds <> [].

Lemma push_doc_well_grouped groups k0 d :
  well_grouped groups -> well_grouped (push_doc groups k0 d).
Proof.
  unfold well_grouped.
  induction groups as [|[k1 ds1] groups IH]; intros [Hnd Hne]; cbn [push_doc].
  - split; [repeat constructor; intros []|].
    intros k ds [[= <- <-]|[]]. discriminate.
  - cbn [map fst] in Hnd. inversion Hnd as [|? ? Hnot Hnd']; subst.
    destruct (String.eqb_spec k1 k0) as [->|Hk].
    + split; [exact Hnd|].
      intros k ds [[= <- <-]|Hin].
      * now destruct ds1.
      * apply (Hne k ds). now right.
    + destruct IH as [IH1 IH2].
      { split; [exact Hnd'|]. intros k ds Hin. apply (Hne k ds). now right. }
      split.
      * cbn [map fst]. constructor; [|exact IH1].
        intros Hin. apply in_map_iff in Hin. destruct Hin as ([k ds] & Hk1 & Hin).
        cbn [fst] in Hk1. subst k.
        assert (Hg : group (push_doc groups k0 d) k1 = ds).
        { unfold group. now rewrite (Map_get_of_In _ _ _ IH1 Hin). }
        rewrite push_doc_group in Hg.
        destruct (String.eqb_spec k0 k1) as [->|_]; [congruence|].
        rewrite app_nil_r in Hg. unfold group in Hg.
        destruct (DocumentRegister.Map_get groups k1) as [ds'|] eqn:Hget.
        -- apply RegisterFacts.Map_get_In in Hget. apply Hnot.
           apply in_map_iff. now exists (k1, ds').
        -- subst ds. now apply (IH2 k1 []).
      * intros k ds [[= <- <-]|Hin]; [|now apply (IH2 k ds)].
        apply (Hne k1 ds1). now left.
Qed.

Lemma grouped_documents (key : Document -> string) documents :
  forall groups,
    well_grouped groups ->
    let groups' :=
      fold_left (fun groups doc => push_doc groups (key doc) doc)
        documents groups in
    well_grouped groups' /\
    forall k, group groups' k
              = group groups k ++ filter (fun d => key d =? k) documents.
Proof.
  induction documents as [|d documents IH]; intros groups Hwg; cbn [fold_left].
  - split; [exact Hwg|]. intros k. now rewrite app_nil_r.
  - destruct (IH (push_doc groups (key d) d)) as [Hwg' Hgroup];
      [now apply push_doc_well_grouped|].
    split; [exact Hwg'|]. intros k. rewrite Hgroup, push_doc_group.
    cbn [filter]. rewrite <- app_assoc. f_equal.
    now destruct (key d =? k).
Qed.

Definition fields_of (options : OverlapOptions) : list string :=
  match groupByFields options with Some l => l | None => [] end.

(** X22.  findOverlaps reports the groups of documents that agree on
    the grouping fields.  A duplicate group is reported under a key
    exactly when grouping fields are given and at least two documents
    have that key (the values of the grouping fields joined by a bar);
    it then lists the id and version of exactly those documents, in the
    order given, and counts them. *)
Theorem findOverlaps_reports_duplicate_groups (documents : list Document)
  (options : OverlapOptions) (k : string) (fs : list string)
  (docs : list (value * value)) (n : nat) :
  In (duplicate_group k fs docs n) (overlaps (findOverlaps documents options))
  <->
  fields_of options <> [] /\
  fs = fields_of options /\
  let same := filter (fun d => group_key (fields_of options) d =? k) documents in
  2 <= List.length same /\
  docs = map (fun d => (d_id d, d_version d)) same /\
  n = List.length same.
Proof.
  unfold findOverlaps. fold (fields_of options). cbn [overlaps].
  set (groups := fold_left _ documents []).
  destruct (grouped_documents (group_key (fields_of options)) documents [])
    as [[Hnd Hne] Hgroup]; [split; [constructor|intros ? ? []]|].
  fold groups in Hnd, Hne, Hgroup.
  assert (Hgroup' : forall k,
            group groups k
            = filter (fun d => group_key (fields_of options) d =? k) documents)
    by (intros k'; rewrite Hgroup; reflexivity).
  clear Hgroup. rename Hgroup' into Hgroup.
  assert (Hlookup : forall ds, In (k, ds) groups <->
            ds <> [] /\
            ds = filter (fun d => group_key (fields_of options) d =? k) documents).
  { intros ds. split.
    - intros Hin. split; [now apply (Hne k)|].
      rewrite <- Hgroup. unfold group.
      now rewrite (Map_get_of_In _ _ _ Hnd Hin).
    - intros [Hds ->]. rewrite <- Hgroup in *. unfold group in *.
      destruct (DocumentRegister.Map_get groups k) as [ds|] eqn:Hget;
        [|congruence].
      now apply RegisterFacts.Map_get_In. }
  rewrite in_app_iff. split.
  - intros [Hin|Hin].
    + destruct (Nat.ltb_spec 0 (List.length (fields_of options))) as [Hpos|_];
        [|destruct Hin].
      apply in_flat_map in Hin. destruct Hin as ([k' ds] & Hg & Hin).
      destruct (Nat.ltb_spec 1 (List.length ds)) as [Hmany|_]; [|destruct Hin].
      destruct Hin as [Heq|[]]. injection Heq as -> <- <- <-.
      apply Hlookup in Hg. destruct Hg as [_ Hds]. cbn zeta. rewrite <- Hds.
      repeat split; [|lia].
      intros Hnil. rewrite Hnil in Hpos. cbn in Hpos. lia.
    + apply in_flat_map in Hin. destruct Hin as ([[i a] [j b]] & _ & Hin).
      destruct (Qlt_le_dec _ _); [|destruct Hin].
      destruct Hin as [Heq|[]]. discriminate.
  - cbn zeta. intros (Hfs & -> & Hmany & -> & ->). left.
    destruct (Nat.ltb_spec 0 (List.length (fields_of options))) as [_|Hnone].
    + apply in_flat_map.
      exists (k, filter (fun d => group_key (fields_of options) d =? k) documents).
      split.
      * apply Hlookup. split; [|reflexivity].
        intros Hnil. rewrite Hnil in Hmany. cbn in Hmany. lia.
      * destruct (Nat.ltb_spec 1 (List.length
                    (filter (fun d => group_key (fields_of options) d =? k)
                       documents))) as [_|Hfew]; [now left|lia].
    + destruct (fields_of options); [congruence|cbn in Hnone; lia].
Qed.

(** A run of [findOverlaps_reports_duplicate_groups]: two of three
    invoices are for the same customer. *)
Lemma findOverlaps_reports_duplicate_groups_witness :
  let doc id customer :=
    mkDocument (VStr id) (VNum 1) None None VUndef
      [("customer", VStr customer)] in
  In (duplicate_group "acme" ["customer"]
        [(VStr "a", VNum 1); (VStr "c", VNum 1)] 2)
     (overlaps (findOverlaps [doc "a" "acme"; doc "b" "bolt"; doc "c" "acme"]
                  (mkOverlapOptions (Some ["customer"]) None))).
Proof.
  intros doc. apply findOverlaps_reports_duplicate_groups.
  split; [discriminate|]. split; [reflexivity|].
  cbn zeta. split; [vm_compute; lia|]. split; reflexivity.
Defined.

(** *** findOverlaps: similar documents *)

Lemma numbered_In {A : Type} (l : list A) i k b :
  nth_error l k = Some b -> In (i + k, b) (numbered i l).
Proof.
  intros H. apply (nth_error_In _ k). now rewrite nth_error_numbered, H.
Qed.

Lemma pairs_from_In {A : Type} (l : list A) : forall i0 i j a b,
  i < j -> nth_error l i = Some a -> nth_error l j = Some b ->
  In ((i0 + i, a), (i0 + j, b)) (pairs_from i0 l).
Proof.
  induction l as [|x l IH]; intros i0 i j a b Hlt Ha Hb.
  - destruct i; discriminate.
  - cbn [pairs_from]. apply in_or_app.
    destruct j as [|j]; [lia|]. cbn [nth_error] in Hb.
    destruct i as [|i]; cbn [nth_error] in Ha.
    + injection Ha as <-. left. rewrite Nat.add_0_r.
      apply in_map. replace (i0 + S j) with (S i0 + j) by lia.
      now apply numbered_In.
    + right. replace (i0 + S i) with (S i0 + i) by lia.
      replace (i0 + S j) with (S i0 + j) by lia.
      apply IH; [lia | exact Ha | exact Hb].
Qed.

(** X23.  findOverlaps flags the pairs that are more similar than the
    threshold.  A high-similarity overlap is reported for two documents
    exactly when the first comes before the second in the list and
    their similarity exceeds the threshold, and it carries that
    similarity and their ids and versions.  The threshold is 0.9 when
    none, or 0, is given, so it is never 0; and with a threshold of 1 or
    more no pair is ever reported, however alike. *)
Theorem findOverlaps_flags_similar_pairs (documents : list Document)
  (options : OverlapOptions) :
  (forall s a b,
     In (high_similarity s a b) (overlaps (findOverlaps documents options))
     <->
     exists i j docA docB,
       i < j /\
       nth_error documents i = Some docA /\
       nth_error documents j = Some docB /\
       a = (d_id docA, d_version docA) /\
       b = (d_id docB, d_version docB) /\
       s = _calculateSimilarity docA docB /\
       (threshold_of options < s)%Q) /\
  ~ (threshold_of options == 0)%Q /\
  ((1 <= threshold_of options)%Q ->
   forall s a b,
     ~ In (high_similarity s a b) (overlaps (findOverlaps documents options))).
Proof.
  assert (Hiff : forall s a b,
     In (high_similarity s a b) (overlaps (findOverlaps documents options))
     <->
     exists i j docA docB,
       i < j /\
       nth_error documents i = Some docA /\
       nth_error documents j = Some docB /\
       a = (d_id docA, d_version docA) /\
       b = (d_id docB, d_version docB) /\
       s = _calculateSimilarity docA docB /\
       (threshold_of options < s)%Q).
  { intros s a b. unfold findOverlaps. cbn [overlaps]. rewrite in_app_iff.
    split.
    - intros [Hin|Hin].
      + destruct (0 <? _)%nat; [|destruct Hin].
        apply in_flat_map in Hin. destruct Hin as ([k ds] & _ & Hin).
        destruct (1 <? _)%nat; [|destruct Hin].
        destruct Hin as [Heq|[]]. discriminate.
      + apply in_flat_map in Hin.
        destruct Hin as ([[i docA] [j docB]] & Hp & Hin).
        destruct (Qlt_le_dec (threshold_of options)
                    (_calculateSimilarity docA docB)) as [Hlt|_];
          [|destruct Hin].
        destruct Hin as [Heq|[]]. injection Heq as <- <- <-.
        apply In_pairs_from in Hp. destruct Hp as (_ & Hij & Ha & Hb).
        rewrite Nat.sub_0_r in Ha, Hb.
        exists i, j, docA, docB. repeat split; auto.
    - intros (i & j & docA & docB & Hij & Ha & Hb & -> & -> & -> & Hlt).
      right. apply in_flat_map. exists ((i, docA), (j, docB)). split.
      + apply (pairs_from_In documents 0 i j docA docB Hij Ha Hb).
      + destruct (Qlt_le_dec (threshold_of options)
                    (_calculateSimilarity docA docB)) as [_|Hle];
          [now left|lra]. }
  split; [exact Hiff|]. split.
  - unfold threshold_of. destruct (similarityThreshold options) as [q|].
    + destruct (Qeq_bool q 0) eqn:E; [intros H; discriminate H|].
      intros H. apply Qeq_bool_neq in E. contradiction.
    + intros H. discriminate H.
  - intros Hone s a b Hin. apply Hiff in Hin.
    destruct Hin as (i & j & docA & docB & _ & _ & _ & _ & _ & -> & Hlt).
    destruct (similarity_bounds docA docB) as [_ Hle]. lra.
Qed.

(** A run of [findOverlaps_flags_similar_pairs]: two documents with the
    same data, under the default threshold. *)
Lemma findOverlaps_flags_similar_pairs_witness :
  let doc id :=
    mkDocument (VStr id) (VNum 1) None None (VObj [("amount", VNum 100)])
      [("id", VStr id); ("data", VObj [("amount", VNum 100)])] in
  In (high_similarity (_calculateSimilarity (doc "a") (doc "b"))
        (VStr "a", VNum 1) (VStr "b", VNum 1))
     (overlaps (findOverlaps [doc "a"; doc "b"] (mkOverlapOptions None None))).
Proof.
  intros doc.
  apply (proj1 (findOverlaps_flags_similar_pairs [doc "a"; doc "b"]
                  (mkOverlapOptions None None))).
  exists 0, 1, (doc "a"), (doc "b").
  split; [lia|]. do 5 (split; [reflexivity|]).
  vm_compute. reflexivity.
Defined.

(** *** The HTML report *)

Lemma chars_app (s1 s2 : string) :
  list_ascii_of_string (s1 ++ s2)%string
  = list_ascii_of_string s1 ++ list_ascii_of_string s2.
Proof. induction s1 as [|c s1 IH]; cbn; [reflexivity|now rewrite IH]. Qed.

Lemma replace_char_chars c by_ s x :
  In x (list_ascii_of_string (replace_char c by_ s)) ->
  In x (list_ascii_of_string by_) \/ (In x (list_ascii_of_string s) /\ x <> c).
Proof.
  induction s as [|y s IH]; cbn [replace_char list_ascii_of_string];
    [intros []|].
  destruct (Ascii.eqb_spec y c) as [->|Hne].
  - rewrite chars_app, in_app_iff. intros [H|H]; [now left|].
    destruct (IH H) as [H'|[H' Hx]]; [now left|]. right. split; [now right|exact Hx].
  - cbn [list_ascii_of_string]. intros [<-|H].
    + right. split; [now left|exact Hne].
    + destruct (IH H) as [H'|[H' Hx]]; [now left|].
      right. split; [now right|exact Hx].
Qed.

Lemma replace_char_absent c by_ s :
  ~ In c (list_ascii_of_string s) -> replace_char c by_ s = s.
Proof.
  induction s as [|y s IH]; cbn [replace_char list_ascii_of_string];
    intros H; [reflexivity|].
  destruct (Ascii.eqb_spec y c) as [->|Hne]; [elim H; now left|].
  f_equal. apply IH. intros Hin. apply H. now right.
Qed.

(** X24.  The HTML report contains no markup of its own making.
    [_convertToHtml] wraps the lines, joined by newlines, in one [pre]
    element whose content holds neither [<] nor [>]; a report without
    these two characters is passed through unchanged (an ampersand is
    not escaped). *)
Theorem html_report_is_escaped (lines : list string) :
  exists body,
    _convertToHtml lines = ("<pre>" ++ body ++ "</pre>")%string /\
    (forall x, In x (list_ascii_of_string body) ->
       x <> "<"%char /\ x <> ">"%char) /\
    ((forall x, In x (list_ascii_of_string (join newline lines)) ->
        x <> "<"%char /\ x <> ">"%char) ->
     body = join newline lines).
Proof.
  unfold _convertToHtml. eexists. split; [reflexivity|]. split.
  - intros x Hx. apply replace_char_chars in Hx.
    destruct Hx as [Hx|[Hx Hgt]].
    + cbn in Hx. intuition (subst; discriminate).
    + split; [|exact Hgt]. apply replace_char_chars in Hx.
      destruct Hx as [Hx|[_ Hlt]]; [|exact Hlt].
      cbn in Hx. intuition (subst; discriminate).
  - intros Hplain.
    rewrite (replace_char_absent "<" "&lt;" (join newline lines))
      by (intros H; now destruct (Hplain _ H)).
    apply replace_char_absent. intros H. now destruct (Hplain _ H).
Qed.

(** A run of [html_report_is_escaped]: a report without markup. *)
Lemma html_report_is_escaped_witness :
  exists body,
    _convertToHtml ["a & b"; "c"] = ("<pre>" ++ body ++ "</pre>")%string /\
    body = join newline ["a & b"; "c"].
Proof.
  destruct (html_report_is_escaped ["a & b"; "c"]) as (body & E & _ & Hsame).
  exists body. split; [exact E|]. apply Hsame.
  intros x Hx. vm_compute in Hx.
  repeat (destruct Hx as [<-|Hx]; [split; discriminate|]). destruct Hx.
Defined.

(** *** The statistics of a comparison *)

Lemma _commonPrefixLength_le a : forall b,
  _commonPrefixLength a b <= Nat.min (String.length a) (String.length b).
Proof.
  induction a as [|x a IH]; intros [|y b]; cbn [_commonPrefixLength String.length];
    try lia.
  destruct (Ascii.eqb x y); [|lia]. specialize (IH b). lia.
Qed.

(** [Number.isNaN(v)] or an infinity. *)
Definition not_finite (v : value) : bool :=
  match v with VNaN | VInf _ => true | _ => false end.

(** What a significance can be: a share, or NaN when a number that is
    NaN or infinite is compared with a number, or a number with NaN. *)
Definition share_or_NaN (oldVal newVal : value) (s : number) : Prop :=
  match s with
  | Num q => (0 <= q <= 1)%Q
  | NaN => not_finite oldVal || isNaN newVal = true
  | Inf _ => False
  end.

Lemma half_is_a_share : (0 <= 0.5 <= 1)%Q.
Proof. split; discriminate. Qed.

Lemma significance_of_integers o n :
  _calculateSignificance (VNum o) (VNum n)
  = Num (Qmin (Qabs ((inject_Z n + - inject_Z o)
                     / (if Qeq_bool (inject_Z o) 0 then 1 else inject_Z o)))
           1).
Proof.
  unfold _calculateSignificance.
  cbn [nullish number_of nsub nneg nadd number_or].
  destruct (Qeq_bool (inject_Z o) 0) eqn:E.
  - reflexivity.
  - cbn [ndiv]. rewrite E. reflexivity.
Qed.

Lemma significance_bounds oldVal newVal :
  share_or_NaN oldVal newVal (_calculateSignificance oldVal newVal).
Proof.
  destruct oldVal as [| | |o| |s|o| |]; try exact half_is_a_share;
    destruct newVal as [| | |n| |t|n| |]; try exact half_is_a_share;
    try reflexivity.
  - rewrite significance_of_integers. split.
    + apply Q.min_glb; [apply Qabs_nonneg|discriminate].
    + apply Q.le_min_r.
  - unfold _calculateSignificance.
    cbn [nullish number_of nsub nneg nadd number_or].
    destruct (Qeq_bool (inject_Z o) 0); cbn [ndiv nabs nmin share_or_NaN];
      split; discriminate.
  - unfold _calculateSignificance.
    cbn [nullish number_of nsub nneg nadd number_or].
    destruct (Bool.eqb t (negb s)); reflexivity.
  - unfold _calculateSignificance. cbn [nullish number_of share_or_NaN].
    destruct (Nat.eqb_spec (Nat.max (String.length o) (String.length n)) 0)
      as [_|Hpos]; [split; discriminate|].
    pose proof (_commonPrefixLength_le o n) as Hle.
    destruct (ratio_bounds (_commonPrefixLength o n)
                (Nat.max (String.length o) (String.length n))) as [H0 H1];
      [lia | lia |].
    split; lra.
Qed.

Lemma compareValues_significance nested deep a b f d :
  compareValues_with nested deep a b f = Some d ->
  share_or_NaN (valueA d) (valueB d) (significance d).
Proof.
  unfold compareValues_with.
  destruct (isUndefined a && negb (isUndefined b));
    [intros [= <-]; apply significance_bounds|].
  destruct (negb (isUndefined a) && isUndefined b);
    [intros [= <-]; apply significance_bounds|].
  destruct (_areEqual a b); [discriminate|].
  match goal with
  | |- (let '(_, _) := ?e in _) = _ -> _ => destruct e as [t dt]
  end.
  intros [= <-]. cbn [valueA valueB significance].
  apply significance_bounds.
Qed.

Lemma compare_significance this docA docB env d :
  In d (differences (compare this docA docB env)) ->
  share_or_NaN (valueA d) (valueB d) (significance d).
Proof.
  rewrite differences_by_field. intros Hin.
  apply in_flat_map in Hin. destruct Hin as (f & _ & Hd).
  unfold difference_at, _compareValues in Hd.
  destruct (existsb _ _); [destruct Hd|].
  destruct (compareValues_with _ _ _ _ _) as [d'|] eqn:E; [|destruct Hd].
  destruct Hd as [<-|[]]. eapply compareValues_significance; eauto.
Qed.

(** [d.significance || 0] is a share, whatever the significance. *)
Lemma significance_or_zero (d : Difference) :
  share_or_NaN (valueA d) (valueB d) (significance d) ->
  exists q, number_or (significance d) (Num 0) = Num q /\ (0 <= q <= 1)%Q.
Proof.
  destruct (significance d) as [q| |s]; cbn [share_or_NaN number_or].
  - intros H. destruct (Qeq_bool q 0).
    + exists 0%Q. split; [reflexivity | split; discriminate].
    + now exists q.
  - intros _. exists 0%Q. split; [reflexivity | split; discriminate].
  - intros [].
Qed.

Lemma sum_bounds (ds : list Difference) :
  (forall d, In d ds ->
     share_or_NaN (valueA d) (valueB d) (significance d)) ->
  forall a, exists r,
    fold_left (fun sum d => nadd sum (number_or (significance d) (Num 0)))
      ds (Num a) = Num r /\
    (a <= r <= a + Q_of_nat (List.length ds))%Q.
Proof.
  induction ds as [|d ds IH]; intros Hall a.
  - exists a. cbn [fold_left List.length]. change (Q_of_nat 0) with 0%Q.
    split; [reflexivity | split; lra].
  - cbn [fold_left List.length].
    destruct (significance_or_zero d (Hall d (or_introl eq_refl)))
      as (q & -> & H0 & H1).
    cbn [nadd].
    destruct (IH (fun x Hx => Hall x (or_intror Hx)) (a + q)%Q)
      as (r & -> & IH0 & IH1).
    exists r. split; [reflexivity|].
    assert (HS : (Q_of_nat (S (List.length ds))
                  == 1 + Q_of_nat (List.length ds))%Q).
    { unfold Q_of_nat. rewrite Nat2Z.inj_succ, <- Z.add_1_l, inject_Z_plus.
      reflexivity. }
    rewrite HS. split; lra.
Qed.

Lemma disjoint_filters {A : Type} (p q : A -> bool) (l : list A) :
  (forall x, p x = true -> q x = false) ->
  List.length (filter p l) + List.length (filter q l) <= List.length l.
Proof.
  intros Hpq. induction l as [|x l IH]; cbn [filter List.length]; [lia|].
  destruct (p x) eqn:Hp.
  - rewrite (Hpq x Hp). cbn [List.length]. lia.
  - destruct (q x); cbn [List.length]; lia.
Qed.

(** X25.  The statistics of a comparison are consistent.  The numbers
    of added, removed and modified fields are not negative and add up
    to the number of differences; there are no more differences than
    fields, so the change percentage lies between 0 and 1; the
    significance of a difference lies between 0 and 1, or is NaN, which
    it is only where the first value is NaN or infinite or the second
    is NaN; and the average significance, which counts a NaN as 0, is
    a number between 0 and 1. *)
Theorem compare_statistics_are_consistent (this : Comparator)
  (docA docB : Document) (env : Env) :
  let c := compare this docA docB env in
  let s := statistics c in
  totalFields s = List.length (allKeys docA docB) /\
  totalDifferences s = List.length (differences c) /\
  (Z.of_nat (st_added s) + Z.of_nat (st_removed s) + st_modified s
   = Z.of_nat (totalDifferences s))%Z /\
  (0 <= st_modified s)%Z /\
  totalDifferences s <= totalFields s /\
  (0 <= changePercentage s <= 1)%Q /\
  (forall d, In d (differences c) ->
     match significance d with
     | Num q => (0 <= q <= 1)%Q
     | NaN => not_finite (valueA d) || isNaN (valueB d) = true
     | Inf _ => False
     end) /\
  (exists q, averageSignificance s = Num q /\ (0 <= q <= 1)%Q).
Proof.
  intros c s.
  assert (Hs : s = _calculateStats (differences c)
                     (List.length (allKeys docA docB))) by reflexivity.
  assert (Hle : List.length (differences c) <= List.length (allKeys docA docB)).
  { subst c. rewrite differences_by_field. fold (allKeys docA docB).
    rewrite length_flat_map_opt. apply length_filter_le. }
  assert (Hsig : forall d, In d (differences c) ->
            share_or_NaN (valueA d) (valueB d) (significance d))
    by (intros d; apply compare_significance).
  rewrite Hs.
  cbn [_calculateStats totalFields totalDifferences st_added st_removed
         st_modified changePercentage averageSignificance].
  pose proof (disjoint_filters (fun d => DiffType_eqb (type d) added)
                (fun d => DiffType_eqb (type d) removed) (differences c)) as Hdis.
  assert (Hsum : List.length
                   (filter (fun d => DiffType_eqb (type d) added) (differences c))
                 + List.length
                     (filter (fun d => DiffType_eqb (type d) removed)
                        (differences c))
                 <= List.length (differences c)).
  { apply Hdis. intros d. now destruct (type d). }
  do 5 (split; [lia|]). split; [|split; [exact Hsig|]].
  { destruct (Nat.ltb_spec 0 (List.length (allKeys docA docB))) as [Hpos|_];
      [|split; discriminate].
    now apply ratio_bounds. }
  destruct (Nat.ltb_spec 0 (List.length (differences c))) as [Hpos|_];
    [|exists 0%Q; split; [reflexivity | split; discriminate]].
  destruct (sum_bounds (differences c) Hsig 0%Q) as (r & -> & H0 & H1).
  pose proof (Q_of_nat_pos _ Hpos) as Hn.
  exists (r / Q_of_nat (List.length (differences c)))%Q. split.
  - cbn [ndiv].
    destruct (Qeq_bool (Q_of_nat (List.length (differences c))) 0) eqn:E;
      [|reflexivity].
    apply Qeq_bool_iff in E. lra.
  - split.
    + apply Qle_shift_div_l; [exact Hn|]. lra.
    + apply Qle_shift_div_r; [exact Hn|]. lra.
Qed.

(** A run of [compare_statistics_are_consistent]: the one difference of
    two records. *)
Lemma compare_statistics_are_consistent_witness :
  let c := compare (constructor (mkOptions None None None))
             (mkDocument VUndef VUndef None None VUndef
                [("amount", VNum 100)])
             (mkDocument VUndef VUndef None None VUndef
                [("amount", VNum 150)]) (mkEnv 0%Z "uuid") in
  exists d, In d (differences c) /\
    match significance d with
    | Num q => (0 <= q <= 1)%Q
    | NaN => not_finite (valueA d) || isNaN (valueB d) = true
    | Inf _ => False
    end.
Proof.
  intros c. destruct (differences c) as [|d ds] eqn:Hd;
    [vm_compute in Hd; discriminate|].
  exists d. split; [now left|].
  apply (proj1 (proj2 (proj2 (proj2 (proj2 (proj2 (proj2
           (compare_statistics_are_consistent
              (constructor (mkOptions None None None))
              (mkDocument VUndef VUndef None None VUndef
                 [("amount", VNum 100)])
              (mkDocument VUndef VUndef None None VUndef
                 [("amount", VNum 150)]) (mkEnv 0%Z "uuid"))))))))).
  fold c. rewrite Hd. now left.
Defined.

End ComparatorMore.

(* ================================================================== *)
(** ** The citation tracker *)
(* ================================================================== *)

Module CitationFacts.
Import JS CitationTracker.
Local Open Scope list_scope.

Definition Map_get := @DocumentRegister.Map_get.

(** *** The indexes *)

Lemma ids_of_push_id index key i k :
  ids_of (push_id index key i) k
  = ids_of index k ++ (if key =? k then [i] else []).
Proof.
  unfold ids_of.
  induction index as [|[k1 ids1] index IH];
    cbn [push_id DocumentRegister.Map_get].
  - destruct (key =? k); reflexivity.
  - destruct (String.eqb_spec k1 key) as [->|Hne]; cbn [DocumentRegister.Map_get].
    + destruct (String.eqb_spec key k) as [->|Hne']; [reflexivity|].
      now rewrite app_nil_r.
    + destruct (String.eqb_spec k1 k) as [->|Hne']; [|exact IH].
      destruct (String.eqb_spec key k) as [->|_]; [congruence|].
      now rewrite app_nil_r.
Qed.

Lemma push_id_In index key i k ids x :
  In (k, ids) (push_id index key i) -> In x ids ->
  x = i \/ exists ids0, In (k, ids0) index /\ In x ids0.
Proof.
  induction index as [|[k1 ids1] index IH]; cbn [push_id].
  - intros [[= <- <-]|[]] [<-|[]]. now left.
  - destruct (k1 =? key).
    + intros [[= <- <-]|Hin] Hx.
      * apply in_app_or in Hx. destruct Hx as [Hx|[<-|[]]]; [|now left].
        right. exists ids1. split; [now left|exact Hx].
      * right. exists ids. split; [now right|exact Hx].
    + intros [[= <- <-]|Hin] Hx.
      * right. exists ids1. split; [now left|exact Hx].
      * destruct (IH Hin Hx) as [->|(ids0 & H0 & Hx0)]; [now left|].
        right. exists ids0. split; [now right|exact Hx0].
Qed.

(** The ids filed under an extraction, and under a field: what [add]
    appends to. *)
Definition filed_under (a : option string) (k : string) (i : string)
  : list string :=
  match given a with
  | Some key => if key =? k then [i] else []
  | None => []
  end.

Lemma add_unfolds citation env this :
  let cid := str_or (r_id citation) (uuid env) in
  let c := normalized citation cid (now env) in
  add citation env this
  = (cid,
     mkTracker (DocumentRegister.Map_set (citations this) cid c)
       (match given (r_extractionId citation) with
        | Some e => push_id (documentCitations this) e cid
        | None => documentCitations this
        end)
       (match given (r_fieldName citation) with
        | Some f => push_id (fieldCitations this) f cid
        | None => fieldCitations this
        end)
       (requireCitations this) (minCitations this) (validateSources this)
       (sourceDocuments this)).
Proof. reflexivity. Qed.

(** X26.  add files the citation where the lookups find it.  After
    [add], the id returned (the one given, or a fresh uuid) leads to
    the normalized citation (confidence 1 and empty metadata when none
    are given, source document falling back on documentId); every other
    id leads where it led; the id is appended to the list filed under
    the extraction id and to the one under the field name, when these
    are given, and to no other list, so that adding under an id twice
    lists it twice; the registered sources are untouched. *)
Theorem add_files_the_citation (citation : RawCitation) (env : Env)
  (this : Tracker) :
  let cid := fst (add citation env this) in
  let this' := snd (add citation env this) in
  cid = str_or (r_id citation) (uuid env) /\
  get cid this' = Some (normalized citation cid (now env)) /\
  (forall other, other <> cid -> get other this' = get other this) /\
  (forall e, ids_of (documentCitations this') e
             = ids_of (documentCitations this) e
               ++ filed_under (r_extractionId citation) e cid) /\
  (forall f, ids_of (fieldCitations this') f
             = ids_of (fieldCitations this) f
               ++ filed_under (r_fieldName citation) f cid) /\
  sourceDocuments this' = sourceDocuments this.
Proof.
  intros cid this'. subst cid this'. rewrite add_unfolds. cbn [fst snd].
  unfold get. cbn [citations documentCitations fieldCitations sourceDocuments].
  split; [reflexivity|]. split; [apply RegisterFacts.Map_get_set_same|].
  split; [intros other Hne; apply RegisterFacts.Map_get_set_other; congruence|].
  unfold filed_under. repeat split.
  - intros e. destruct (given (r_extractionId citation));
      [apply ids_of_push_id | now rewrite app_nil_r].
  - intros f. destruct (given (r_fieldName citation));
      [apply ids_of_push_id | now rewrite app_nil_r].
Qed.

(** A run of [add_files_the_citation]: the same id added twice is
    listed twice. *)
Lemma add_files_the_citation_witness :
  let raw := mkRawCitation (Some "c-1") (Some "Total: 100 EUR") None
               (Some "invoice.pdf") VUndef VUndef VUndef VUndef VUndef
               (Some "total") (Some "ext-1") None VUndef None in
  let once := snd (add raw (mkEnv 10%Z "uuid-1")
                     (constructor (mkOptions None None None))) in
  let twice := snd (add raw (mkEnv 20%Z "uuid-2") once) in
  ids_of (documentCitations twice) "ext-1" = ["c-1"; "c-1"].
Proof.
  intros raw once twice. unfold twice.
  rewrite (proj1 (proj2 (proj2 (proj2
             (add_files_the_citation raw (mkEnv 20%Z "uuid-2") once)))) "ext-1").
  reflexivity.
Defined.

(** *** Indexed ids are stored *)

(** Every id filed under an extraction or a field leads to a
    citation. *)
Definition sound (this : Tracker) : Prop :=
  forall key ids i,
    In (key, ids) (documentCitations this)
    \/ In (key, ids) (fieldCitations this) ->
    In i ids -> get i this <> None.

(** The operations that change a tracker. *)
Inductive Operation : Type :=
| Add (citation : RawCitation) (env : Env)
| AddBatch (cs : list RawCitation) (envs : nat -> Env)
| RegisterSource (sourceId : string) (sourceInfo : SourceInfo) (env : Env)
| Import (cs : list RawCitation) (envs : nat -> Env)
| Clear.

Definition after (op : Operation) (this : Tracker) : Tracker :=
  match op with
  | Add citation env => snd (add citation env this)
  | AddBatch cs envs => snd (addBatch cs envs this)
  | RegisterSource sourceId sourceInfo env =>
      snd (registerSource sourceId sourceInfo env this)
  | Import cs envs => snd (import cs envs this)
  | Clear => clear this
  end.

Lemma add_files_the_citation_parts citation env this :
  let this' := snd (add citation env this) in
  get (str_or (r_id citation) (uuid env)) this'
    = Some (normalized citation (str_or (r_id citation) (uuid env)) (now env)) /\
  (forall key ids,
     In (key, ids) (documentCitations this') ->
     In (key, ids) (documentCitations this)
     \/ (exists e, given (r_extractionId citation) = Some e) /\
        In (key, ids)
          (push_id (documentCitations this)
             (match given (r_extractionId citation) with
              | Some e => e | None => "" end)
             (str_or (r_id citation) (uuid env)))) /\
  (forall key ids,
     In (key, ids) (fieldCitations this') ->
     In (key, ids) (fieldCitations this)
     \/ (exists f, given (r_fieldName citation) = Some f) /\
        In (key, ids)
          (push_id (fieldCitations this)
             (match given (r_fieldName citation) with
              | Some f => f | None => "" end)
             (str_or (r_id citation) (uuid env)))).
Proof.
  intros this'. subst this'. rewrite add_unfolds. cbn [snd].
  unfold get. cbn [citations documentCitations fieldCitations].
  split; [apply RegisterFacts.Map_get_set_same|]. split.
  - intros key ids Hin. destruct (given (r_extractionId citation)) as [e|];
      [right; split; [now exists e|exact Hin] | now left].
  - intros key ids Hin. destruct (given (r_fieldName citation)) as [f|];
      [right; split; [now exists f|exact Hin] | now left].
Qed.

Lemma get_after_add citation env this i :
  get i this <> None -> get i (snd (add citation env this)) <> None.
Proof.
  rewrite add_unfolds. cbn [snd]. unfold get. cbn [citations].
  destruct (String.eqb_spec (str_or (r_id citation) (uuid env)) i) as [->|Hne].
  - now rewrite RegisterFacts.Map_get_set_same.
  - now rewrite RegisterFacts.Map_get_set_other.
Qed.

Lemma add_sound citation env this :
  sound this -> sound (snd (add citation env this)).
Proof.
  intros Hs key ids i Hin Hi.
  destruct (add_files_the_citation_parts citation env this) as (Hnew & Hdoc & Hfld).
  assert (Hcase : i = str_or (r_id citation) (uuid env)
                  \/ exists ids0,
                       (In (key, ids0) (documentCitations this)
                        \/ In (key, ids0) (fieldCitations this))
                       /\ In i ids0).
  { destruct Hin as [Hin|Hin].
    - apply Hdoc in Hin. destruct Hin as [Hin|Hin].
      + right. exists ids. auto.
      + destruct (push_id_In _ _ _ _ _ _ (proj2 Hin) Hi)
          as [->|(ids0 & H0 & Hx)]; [now left|].
        right. exists ids0. auto.
    - apply Hfld in Hin. destruct Hin as [Hin|Hin].
      + right. exists ids. auto.
      + destruct (push_id_In _ _ _ _ _ _ (proj2 Hin) Hi)
          as [->|(ids0 & H0 & Hx)]; [now left|].
        right. exists ids0. auto. }
  destruct Hcase as [->|(ids0 & H0 & Hx)].
  - rewrite Hnew. discriminate.
  - apply get_after_add. exact (Hs key ids0 i H0 Hx).
Qed.

Lemma addBatch_from_sound cs envs : forall i this,
  sound this -> sound (snd (addBatch_from i cs envs this)).
Proof.
  induction cs as [|c cs IH]; intros i this Hs; [exact Hs|].
  cbn [addBatch_from].
  destruct (add c (envs i) this) as [cid this1] eqn:E1.
  destruct (addBatch_from (S i) cs envs this1) as [ids this2] eqn:E2.
  cbn [snd]. replace this2 with (snd (addBatch_from (S i) cs envs this1))
    by now rewrite E2.
  apply IH. replace this1 with (snd (add c (envs i) this)) by now rewrite E1.
  now apply add_sound.
Qed.

Lemma all_defined_some {A : Type} (l : list (option A)) :
  Forall (fun x => x <> None) l -> exists xs, all_defined l = Some xs.
Proof.
  induction 1 as [|x l Hx Hl IH]; [now exists []|].
  destruct x as [x|]; [|congruence]. destruct IH as [xs Hxs].
  exists (x :: xs). cbn [all_defined]. now rewrite Hxs.
Qed.

Lemma ids_of_In index key :
  ids_of index key = [] \/ In (key, ids_of index key) index.
Proof.
  unfold ids_of. destruct (DocumentRegister.Map_get index key) as [ids|] eqn:E;
    [|now left].
  right. now apply RegisterFacts.Map_get_In.
Qed.

(** X27.  What the indexes list is always stored.  On a new tracker,
    and after any sequence of add, addBatch, registerSource, import and
    clear, every id filed under an extraction or a field leads to a
    stored citation; hence getForDocument and getForField never hand
    out undefined, and validate always returns. *)
Theorem indexed_citations_are_stored (this : Tracker) (op : Operation) :
  (forall options, sound (constructor options)) /\
  (sound this -> sound (after op this)) /\
  (sound this ->
   forall key,
     Forall (fun c => c <> None) (getForDocument key this) /\
     Forall (fun c => c <> None) (getForField key this) /\
     forall options, exists v, validate key options this = Returned v).
Proof.
  split; [|split].
  - intros options key ids i [[]|[]].
  - intros Hs. destruct op as [citation env|cs envs|sid info env|cs envs|];
      cbn [after].
    + now apply add_sound.
    + now apply addBatch_from_sound.
    + exact Hs.
    + unfold import.
      pose proof (addBatch_from_sound cs envs 0 this Hs) as H.
      destruct (addBatch_from 0 cs envs this) as [ids this']. exact H.
    + intros key ids i [[]|[]].
  - intros Hs key.
    assert (Hdoc : Forall (fun c => c <> None) (getForDocument key this)).
    { unfold getForDocument. apply Forall_forall. intros c Hc.
      apply in_map_iff in Hc. destruct Hc as (i & <- & Hi).
      destruct (ids_of_In (documentCitations this) key) as [Hnil|Hin];
        [rewrite Hnil in Hi; destruct Hi|].
      apply (Hs key _ i (or_introl Hin) Hi). }
    split; [exact Hdoc|]. split.
    + unfold getForField. apply Forall_forall. intros c Hc.
      apply in_map_iff in Hc. destruct Hc as (i & <- & Hi).
      destruct (ids_of_In (fieldCitations this) key) as [Hnil|Hin];
        [rewrite Hnil in Hi; destruct Hi|].
      apply (Hs key _ i (or_intror Hin) Hi).
    + intros options. unfold validate.
      destruct (all_defined_some _ Hdoc) as [cs Hcs]. rewrite Hcs.
      eexists. reflexivity.
Qed.

(** A run of [indexed_citations_are_stored]: one add on a new
    tracker. *)
Lemma indexed_citations_are_stored_witness :
  sound (snd (add (mkRawCitation (Some "c-1") (Some "Total: 100 EUR") None
                     (Some "invoice.pdf") VUndef VUndef VUndef VUndef VUndef
                     (Some "total") (Some "ext-1") None VUndef None)
                (mkEnv 10%Z "uuid-1")
                (constructor (mkOptions None None None)))).
Proof.
  apply (proj1 (proj2 (indexed_citations_are_stored
                         (constructor (mkOptions None None None))
                         (Add (mkRawCitation (Some "c-1") (Some "Total: 100 EUR")
                                 None (Some "invoice.pdf") VUndef VUndef VUndef
                                 VUndef VUndef (Some "total") (Some "ext-1")
                                 None VUndef None)
                              (mkEnv 10%Z "uuid-1"))))).
  intros key ids i H. vm_compute in H. destruct H as [[]|[]].
Defined.

(** *** validate *)

Lemma all_defined_map {A : Type} (l : list (option A)) : forall xs,
  all_defined l = Some xs -> l = map Some xs.
Proof.
  induction l as [|[x|] l IH]; intros xs H; cbn [all_defined] in H.
  - now injection H as <-.
  - destruct (all_defined l) as [ys|]; [|discriminate].
    injection H as <-. cbn [map]. f_equal. now apply IH.
  - discriminate.
Qed.

Lemma flat_map_nil {A B : Type} (f : A -> list B) (l : list A) :
  flat_map f l = [] <-> forall x, In x l -> f x = [].
Proof.
  induction l as [|a l IH]; cbn [flat_map].
  - split; [intros _ ? []|reflexivity].
  - split.
    + intros H. apply app_eq_nil in H. destruct H as [Ha Hl].
      intros x [<-|Hx]; [exact Ha|]. now apply IH.
    + intros H. rewrite (H a (or_introl eq_refl)).
      apply IH. intros x Hx. apply H. now right.
Qed.

Definition min_required (options : ValidateOptions) (this : Tracker) : nat :=
  match vo_minCitations options with
  | Some n => n
  | None => minCitations this
  end.

Definition required_fields (options : ValidateOptions) : list string :=
  match vo_requiredFields options with Some l => l | None => [] end.

Definition is_error (i : Issue) : bool :=
  match i with
  | INSUFFICIENT_CITATIONS _ _ _ | MISSING_FIELD_CITATION _ _ => true
  | _ => false
  end.

(** X28.  validate judges by count and required fields only.  When
    validate returns, the citation count is the number of ids filed
    under the extraction; the result is valid exactly when there are no
    errors, that is, exactly when there are at least as many citations
    as required (the option, or the tracker's minimum) and every
    required field has a citation among them; unregistered sources and
    low confidence only ever produce warnings, which do not affect
    validity. *)
Theorem validate_judges_count_and_fields (key : string)
  (options : ValidateOptions) (this : Tracker) (v : Validation) :
  validate key options this = Returned v ->
  citationCount v = List.length (ids_of (documentCitations this) key) /\
  (valid v = true <-> errors v = []) /\
  (valid v = true <->
   min_required options this <= citationCount v /\
   forall f, In f (required_fields options) ->
     exists c, In (Some c) (getForDocument key this) /\ fieldName c = Some f) /\
  Forall (fun i => is_error i = true) (errors v) /\
  Forall (fun i => is_error i = false) (warnings v).
Proof.
  unfold validate.
  destruct (all_defined (getForDocument key this)) as [cs|] eqn:Hcs;
    [|discriminate].
  apply all_defined_map in Hcs. intros [= <-].
  fold (min_required options this) (required_fields options).
  cbn [citationCount valid errors warnings].
  assert (Hlen : List.length cs
                 = List.length (ids_of (documentCitations this) key)).
  { rewrite <- (length_map Some cs), <- Hcs. unfold getForDocument.
    apply length_map. }
  split; [exact Hlen|].
  set (errors1 := if (List.length cs <? min_required options this)%nat
                  then _ else []).
  set (errors2 := flat_map _ (required_fields options)).
  assert (Hvalid : (List.length (errors1 ++ errors2) =? 0)%nat = true
                   <-> errors1 ++ errors2 = []).
  { rewrite Nat.eqb_eq. apply length_zero_iff_nil. }
  split; [exact Hvalid|]. split; [|split].
  - rewrite Hvalid. split.
    + intros H. apply app_eq_nil in H. destruct H as [H1 H2]. split.
      * subst errors1.
        destruct (Nat.ltb_spec (List.length cs) (min_required options this));
          [discriminate|exact H].
      * intros f Hf. subst errors2.
        pose proof (proj1 (flat_map_nil _ _) H2 f Hf) as Hnone.
        cbn beta in Hnone.
        destruct (filter (is_field f) cs) as [|c rest] eqn:Hfilter;
          [discriminate|].
        assert (Hin : In c (filter (is_field f) cs))
          by (rewrite Hfilter; now left).
        apply filter_In in Hin. destruct Hin as [Hin Hfield].
        exists c. split; [rewrite Hcs; now apply in_map|].
        unfold is_field in Hfield. destruct (fieldName c) as [g|]; [|discriminate].
        apply String.eqb_eq in Hfield. now subst g.
    + intros [Hmin Hfields].
      assert (H1 : errors1 = []).
      { subst errors1.
        destruct (Nat.ltb_spec (List.length cs) (min_required options this));
          [lia|reflexivity]. }
      assert (H2 : errors2 = []).
      { subst errors2. apply flat_map_nil. intros f Hf.
        destruct (Hfields f Hf) as (c & Hc & Hfield).
        rewrite Hcs in Hc. apply in_map_iff in Hc.
        destruct Hc as (c' & [= ->] & Hc).
        assert (Hin : In c (filter (is_field f) cs)).
        { apply filter_In. split; [exact Hc|]. unfold is_field.
          rewrite Hfield. apply String.eqb_refl. }
        destruct (filter (is_field f) cs); [destruct Hin|reflexivity]. }
      now rewrite H1, H2.
  - apply Forall_app. split.
    + subst errors1. destruct (_ <? _)%nat; repeat constructor.
    + subst errors2. apply Forall_forall. intros i Hi.
      apply in_flat_map in Hi. destruct Hi as (f & _ & Hi).
      destruct (Nat.eqb (List.length (filter (is_field f) cs)) 0);
        [|destruct Hi].
      destruct Hi as [<-|[]]. reflexivity.
  - apply Forall_app. split.
    + destruct (validateSources this); [|constructor].
      apply Forall_forall. intros i Hi.
      apply in_flat_map in Hi. destruct Hi as (c & _ & Hi).
      destruct (given (sourceDocument c)) as [s|]; [|destruct Hi].
      destruct (DocumentRegister.Map_get (sourceDocuments this) s);
        [destruct Hi|].
      destruct Hi as [<-|[]]. reflexivity.
    + destruct (0 <? _)%nat; repeat constructor.
Qed.

(** A tracker with one citation, of the field "total" of the
    extraction "ext-1". *)
Definition one_citation : Tracker :=
  snd (add (mkRawCitation (Some "c-1") (Some "Total: 100 EUR") None
              (Some "invoice.pdf") VUndef VUndef VUndef VUndef VUndef
              (Some "total") (Some "ext-1") (Some 0.5%Q) VUndef None)
         (mkEnv 10%Z "uuid-1") (constructor (mkOptions None None None))).

(** A run of [validate_judges_count_and_fields]: a low confidence and
    an unregistered source leave the result valid. *)
Lemma validate_judges_count_and_fields_witness :
  exists v,
    validate "ext-1" (mkValidateOptions (Some 1) (Some ["total"]) None)
      one_citation = Returned v /\
    valid v = true /\ List.length (warnings v) = 2.
Proof.
  eexists. split; [vm_compute; reflexivity|].
  split; [|reflexivity].
  apply (proj2 (proj1 (proj2 (validate_judges_count_and_fields "ext-1"
                  (mkValidateOptions (Some 1) (Some ["total"]) None)
                  one_citation _ eq_refl)))).
  reflexivity.
Defined.

(** *** createChain *)

Definition known (this : Tracker) (i : string) : bool :=
  match get i this with Some _ => true | None => false end.

(** The citations [createChain] keeps: those the ids lead to. *)
Definition chained (this : Tracker) (ids : list string) : list Citation :=
  flat_map (fun i => match get i this with Some c => [c] | None => [] end) ids.

Lemma chained_known this ids :
  map Some (chained this ids)
  = map (fun i => get i this) (filter (known this) ids).
Proof.
  unfold chained. induction ids as [|i ids IH]; [reflexivity|].
  cbn [flat_map filter]. unfold known at 1.
  destruct (get i this) as [c|] eqn:E; cbn [app map]; [|exact IH].
  now rewrite E, IH.
Qed.

Lemma last_map {A B : Type} (f : A -> B) (l : list A) d :
  last (map f l) (f d) = f (last l d).
Proof.
  induction l as [|x l IH]; [reflexivity|].
  cbn [map]. destruct l as [|y l]; [reflexivity|]. exact IH.
Qed.

Lemma last_indep {A : Type} (l : list A) d d' :
  l <> [] -> last l d = last l d'.
Proof.
  induction l as [|x l IH]; [congruence|]. intros _.
  destruct l as [|y l]; [reflexivity|]. apply IH. discriminate.
Qed.

Lemma length_substring n : forall s,
  String.length (String.substring 0 n s) <= n.
Proof.
  induction n as [|n IH]; intros [|c s]; cbn; try lia.
  specialize (IH s). lia.
Qed.

(** X29.  createChain links the citations it knows.  It throws 'No
    valid citations found for chain' exactly when none of the ids
    leads to a citation; otherwise the chain keeps all the ids as
    given, while its depth and its path count only the ids that lead
    to a citation; the root is what the first of these leads to and the
    leaf what the last leads to; and each step of the path shows at
    most the first 100 characters of the text. *)
Theorem createChain_links_known_citations (citationIds : list string)
  (env : Env) (this : Tracker) :
  (createChain citationIds env this = Thrown NoValidCitations <->
   forall i, In i citationIds -> get i this = None) /\
  (forall ch,
     createChain citationIds env this = Returned ch ->
     chainId ch = uuid env /\
     chain_citations ch = citationIds /\
     depth ch = List.length (filter (known this) citationIds) /\
     0 < depth ch <= List.length citationIds /\
     List.length (path ch) = depth ch /\
     get (hd "" (filter (known this) citationIds)) this
       = Some (rootCitation ch) /\
     get (last (filter (known this) citationIds) "") this
       = Some (leafCitation ch) /\
     Forall (fun s => match p_text s with
                      | Some t => String.length t <= 100
                      | None => True
                      end) (path ch)).
Proof.
  pose proof (chained_known this citationIds) as Hk.
  unfold createChain. fold (chained this citationIds).
  destruct (chained this citationIds) as [|first rest] eqn:Hc.
  - split.
    + split; [|reflexivity]. intros _ i Hi.
      destruct (get i this) as [c|] eqn:E; [|reflexivity].
      assert (Hin : In (get i this)
                      (map (fun i => get i this)
                         (filter (known this) citationIds))).
      { apply (in_map (fun j => get j this) _ i).
        apply filter_In. split; [exact Hi|].
        unfold known. now rewrite E. }
      rewrite <- Hk in Hin. destruct Hin.
    + intros ch H. discriminate H.
  - split.
    + split; [discriminate|]. intros Hnone.
      destruct (filter (known this) citationIds) as [|i l] eqn:Hf;
        [discriminate|].
      assert (Hi : In i (filter (known this) citationIds))
        by (rewrite Hf; now left).
      apply filter_In in Hi. destruct Hi as [Hi Hknown].
      unfold known in Hknown. rewrite (Hnone i Hi) in Hknown. discriminate.
    + intros ch [= <-].
      cbn [chainId chain_citations depth path rootCitation leafCitation].
      assert (Hlen : List.length (first :: rest)
                     = List.length (filter (known this) citationIds)).
      { rewrite <- (length_map Some), Hk. apply length_map. }
      split; [reflexivity|]. split; [reflexivity|]. split; [exact Hlen|].
      split.
      { split.
        - cbn [List.length]. lia.
        - cbn [List.length] in Hlen |- *. rewrite Hlen. clear.
          induction citationIds as [|i l IH]; cbn [filter List.length];
            [lia|]. destruct (known this i); cbn [List.length]; lia. }
      split; [cbn [List.length]; f_equal; apply length_map|].
      destruct (filter (known this) citationIds) as [|i l] eqn:Hf;
        [discriminate|].
      split; [|split].
      * cbn [map hd] in Hk |- *. now injection Hk as <- _.
      * change (get (last (i :: l) "") this)
          with ((fun i => get i this) (last (i :: l) "")).
        rewrite <- last_map, <- Hk.
        rewrite (last_indep _ _ (Some first)) by discriminate.
        now rewrite last_map.
      * change (Forall
                  (fun s => match p_text s with
                            | Some t => String.length t <= 100
                            | None => True
                            end)
                  (map (fun c => mkPathStep (id c)
                                   (option_map (String.substring 0 100) (text c))
                                   (sourceDocument c)) (first :: rest))).
        apply Forall_forall. intros s Hs. apply in_map_iff in Hs.
        destruct Hs as (c & <- & _). cbn [p_text].
        destruct (text c) as [t|]; cbn [option_map]; [|exact I].
        apply length_substring.
Qed.

(** A run of [createChain_links_known_citations]: one known id among
    two. *)
Lemma createChain_links_known_citations_witness :
  exists ch,
    createChain ["c-0"; "c-1"] (mkEnv 20%Z "chain-1") one_citation
      = Returned ch /\
    chain_citations ch = ["c-0"; "c-1"] /\ depth ch = 1.
Proof.
  eexists. split; [vm_compute; reflexivity|].
  destruct (proj2 (createChain_links_known_citations ["c-0"; "c-1"]
                     (mkEnv 20%Z "chain-1") one_citation) _ eq_refl)
    as (_ & H1 & H2 & _).
  split; [exact H1 | exact H2].
Defined.

(** *** export and import *)

(** A citation as it comes back from an import at instant [t]: an
    empty source document has become undefined. *)
Definition restamped (c : Citation) (t : time) : Citation :=
  mkCitation (id c) (text c) (given (sourceDocument c)) (startOffset c)
    (endOffset c) (chunkIndex c) (pageNumber c) (sectionId c) (fieldName c)
    (extractionId c) (confidence c) (reasoning c) t (metadata c).

(** No id is stored twice, and every citation is stored under its own
    id, which is not empty. *)
Definition kept (this : Tracker) : Prop :=
  NoDup (map fst (citations this)) /\
  forall k c, In (k, c) (citations this) -> id c = k /\ k <> "".

Lemma get_after_other_add citation env this k :
  k <> str_or (r_id citation) (uuid env) ->
  get k (snd (add citation env this)) = get k this.
Proof.
  intros Hne. rewrite add_unfolds. cbn [snd]. unfold get. cbn [citations].
  apply RegisterFacts.Map_get_set_other. congruence.
Qed.

Lemma addBatch_of_export envs (cs : list Citation) : forall i this,
  (forall c, In c cs -> id c <> "") ->
  NoDup (map id cs) ->
  let r := addBatch_from i (map raw_of cs) envs this in
  fst r = map id cs /\
  (forall c, In c cs -> exists t, get (id c) (snd r) = Some (restamped c t)) /\
  (forall k, ~ In k (map id cs) -> get k (snd r) = get k this).
Proof.
  induction cs as [|c cs IH]; intros i this Hne Hnd.
  - cbn. repeat split; auto. intros ? [].
  - cbn [map] in Hnd. inversion Hnd as [|? ? Hnot Hnd']; subst.
    cbn [map addBatch_from].
    assert (Hid : str_or (r_id (raw_of c)) (uuid (envs i)) = id c).
    { cbn [raw_of r_id str_or].
      destruct (String.eqb_spec (id c) "") as [E|_]; [|reflexivity].
      now elim (Hne c (or_introl eq_refl)). }
    destruct (add (raw_of c) (envs i) this) as [cid this1] eqn:E1.
    assert (Hcid : cid = id c)
      by (rewrite <- Hid; change cid with (fst (cid, this1)); now rewrite <- E1).
    assert (Hthis1 : this1 = snd (add (raw_of c) (envs i) this))
      by now rewrite E1.
    destruct (IH (S i) this1 (fun x Hx => Hne x (or_intror Hx)) Hnd')
      as (Hids & Hall & Hother).
    destruct (addBatch_from (S i) (map raw_of cs) envs this1) as [ids this2].
    cbn [fst snd] in *. split; [now rewrite Hcid, Hids|]. split.
    + intros c' [<-|Hc'].
      * exists (now (envs i)). rewrite (Hother (id c) Hnot), Hthis1.
        rewrite add_unfolds. cbn [snd]. unfold get. cbn [citations].
        rewrite Hid, RegisterFacts.Map_get_set_same. reflexivity.
      * now apply Hall.
    + intros k Hk. rewrite Hother by (intros H; apply Hk; now right).
      rewrite Hthis1. apply get_after_other_add. rewrite Hid.
      intros ->. apply Hk. now left.
Qed.

(** X30.  export followed by import rebuilds the citations.  For a
    tracker in which every citation is stored once, under its own
    non-empty id, importing what export (without options) returns into
    a new tracker imports as many citations as were stored; each id
    then leads to the same citation, but for the instant of creation,
    which is that of the import, and for an empty source document,
    which has become undefined; and an id that led nowhere still leads
    nowhere. *)
Theorem export_then_import_rebuilds (this : Tracker) (options : Options)
  (envs : nat -> Env) :
  kept this ->
  let r := import (map raw_of (export (mkExportOptions None None) this)) envs
             (constructor options) in
  fst r = List.length (citations this) /\
  forall k,
    match get k this with
    | Some c => exists t, get k (snd r) = Some (restamped c t)
    | None => get k (snd r) = None
    end.
Proof.
  intros [Hnd Hall] r. subst r. unfold import.
  cbn [export given eo_extractionId eo_fieldName].
  set (cs := DocumentRegister.Map_values (citations this)).
  assert (Hids : map id cs = map fst (citations this)).
  { subst cs. unfold DocumentRegister.Map_values. rewrite map_map.
    apply map_ext_in. intros [k c] Hin. cbn [fst snd].
    now destruct (Hall k c Hin). }
  destruct (addBatch_of_export envs cs 0 (constructor options))
    as (Hfst & Hsome & Hnone).
  - intros c Hc. subst cs. unfold DocumentRegister.Map_values in Hc.
    apply in_map_iff in Hc. destruct Hc as ([k c'] & <- & Hin).
    cbn [snd]. destruct (Hall k c' Hin) as [-> Hne]. exact Hne.
  - now rewrite Hids.
  - destruct (addBatch_from 0 (map raw_of cs) envs (constructor options))
      as [ids fresh].
    cbn [fst snd] in *. split.
    + rewrite Hfst, length_map. subst cs.
      unfold DocumentRegister.Map_values. apply length_map.
    + intros k. destruct (get k this) as [c|] eqn:Hget.
      * unfold get in Hget. apply RegisterFacts.Map_get_In in Hget.
        destruct (Hall k c Hget) as [Hid _]. rewrite <- Hid.
        apply Hsome. subst cs. unfold DocumentRegister.Map_values.
        apply in_map_iff. now exists (k, c).
      * rewrite Hnone; [reflexivity|]. rewrite Hids. intros Hin.
        apply in_map_iff in Hin. destruct Hin as ([k' c] & Hk & Hin).
        cbn [fst] in Hk. subst k'.
        unfold get in Hget.
        rewrite (ComparatorMore.Map_get_of_In _ _ _ Hnd Hin) in Hget.
        discriminate.
Qed.

(** A run of [export_then_import_rebuilds] on [one_citation]. *)
Lemma export_then_import_rebuilds_witness :
  fst (import (map raw_of (export (mkExportOptions None None) one_citation))
         (fun i => mkEnv 30%Z "uuid-3") (constructor (mkOptions None None None)))
  = List.length (citations one_citation).
Proof.
  apply (export_then_import_rebuilds one_citation (mkOptions None None None)
           (fun i => mkEnv 30%Z "uuid-3")).
  split.
  - vm_compute. repeat constructor. intros [].
  - intros k c H. vm_compute in H. destruct H as [[= <- <-]|[]].
    split; [reflexivity|discriminate].
Defined.

End CitationFacts.
